(** * Camera stabilization module (flight/Modules/CameraStab/camerastab.c)

    A shallow embedding of the per-axis signal pipeline of the OpenPilot
    camera stabilization module, and the properties its specification
    states about it.

    The module computes in C [float], i.e. IEEE 754 binary32 with
    round-to-nearest-even.  The arithmetic below is the Standard Library's
    executable specification of IEEE arithmetic ([SpecFloat]) instantiated
    at precision 24 and maximal exponent 128, every operation rounded to
    binary32 (FLT_EVAL_METHOD 0, as on the Cortex-M3 target); [fabs] is
    the C library's [double] function, so the places that call it compute
    in binary64 (precision 53, maximal exponent 1024).  The embedding is
    that of a
    build with USE_GIMBAL_LPF and USE_GIMBAL_FF defined: both optional
    stages are present. *)

From Stdlib Require Import ZArith QArith Qabs Lqa Bool List Lia.
From Stdlib Require Import Floats.SpecFloat.
Import ListNotations.

Local Open Scope Z_scope.

(* ================================================================== *)
(** * Floating-point formats *)
(* ================================================================== *)

(** A C [float] or [double] value. Both formats share the carrier
    [spec_float]; a value belongs to a format when it is [valid_binary]
    for that format's precision and exponent range. *)
Definition float := spec_float.
Definition double := spec_float.

Module F32.
Definition prec : Z := 24.
Definition emax : Z := 128.

Definition add : float -> float -> float := SFadd prec emax.
Definition sub : float -> float -> float := SFsub prec emax.
Definition mul : float -> float -> float := SFmul prec emax.
Definition div : float -> float -> float := SFdiv prec emax.
Definition neg : float -> float := SFopp.

(** C comparison operators; every comparison with a NaN is false. *)
Definition gt (x y : float) : bool := SFltb y x.
Definition lt (x y : float) : bool := SFltb x y.
Definition le (x y : float) : bool := SFleb x y.

(** Conversion of an integer to [float], as the cast [(float)n]. *)
Definition of_Z (n : Z) : float := binary_normalize prec emax n 0 false.

(** Rounding of a [double] to [float], as the assignment of a [double]
    expression to a [float] variable. *)
Definition of_double (x : double) : float :=
  match x with
  | S754_finite s m e => binary_normalize prec emax (cond_Zopp s (Zpos m)) e s
  | _ => x
  end.

Definition valid (x : float) : bool := valid_binary prec emax x.

Definition zero : float := S754_zero false.          (* 0.0f *)
Definition one : float := S754_finite false 8388608 (-23).  (* 1.0f *)
(** The literal [0.001f]: the binary32 number nearest to 1/1000,
    8589935 * 2^-33. *)
Definition milli : float := S754_finite false 8589935 (-33).

(** The float nearest to the fraction [p/q] of two integers that are
    themselves floats exactly: the value of a decimal literal such as
    [0.3f] = [ratio 3 10]. *)
Definition ratio (p q : Z) : float := div (of_Z p) (of_Z q).
End F32.

Module F64.
Definition prec : Z := 53.
Definition emax : Z := 1024.

Definition sub : double -> double -> double := SFsub prec emax.
Definition div : double -> double -> double := SFdiv prec emax.
Definition gt (x y : double) : bool := SFltb y x.

(** Promotion of a [float] to [double]; exact, the mantissa is
    re-normalised to 53 bits. *)
Definition of_float (x : float) : double :=
  match x with
  | S754_finite s m e => binary_normalize prec emax (cond_Zopp s (Zpos m)) e s
  | _ => x
  end.

(** [double fabs(double)] of the C library. *)
Definition fabs : double -> double := SFabs.
End F64.

Declare Scope f32_scope.
Delimit Scope f32_scope with f32.
Infix "+" := F32.add : f32_scope.
Infix "-" := F32.sub : f32_scope.
Infix "*" := F32.mul : f32_scope.
Infix "/" := F32.div : f32_scope.
Notation "- x" := (F32.neg x) : f32_scope.
Infix ">?" := F32.gt : f32_scope.
Infix "<?" := F32.lt : f32_scope.
Infix "<=?" := F32.le : f32_scope.

(** Classification of values. *)
Definition is_nan (x : spec_float) : bool :=
  match x with S754_nan => true | _ => false end.

Definition is_finite (x : spec_float) : bool :=
  match x with S754_zero _ | S754_finite _ _ _ => true | _ => false end.

(** A finite binary32 number in canonical form: what a [float] variable
    holds when it is neither an infinity nor a NaN. *)
Definition finite32 (x : float) : bool := is_finite x && F32.valid x.

Definition is_zero (x : spec_float) : bool :=
  match x with S754_zero _ => true | _ => false end.

(** The exact rational value of a finite float (0 for the others). *)
Definition SF2Q (x : spec_float) : Q :=
  match x with
  | S754_finite s m e => inject_Z (cond_Zopp s (Zpos m)) * Qpower 2 e
  | _ => 0
  end.

(** A number with the sign [s] that is not zero: [S754_finite s] at or
    above the least exponent [emin] of the format, or the infinity of
    that sign. *)
Definition signed_nonzero (emin : Z) (s : bool) (x : spec_float) : Prop :=
  match x with
  | S754_finite s' _ e => s' = s /\ emin <= e
  | S754_infinity s' => s' = s
  | _ => False
  end.

(** A positive number whose mantissa is at least [2 ^ (prec - 1)], at
    the exponent [k] or above; or the positive infinity. *)
Definition normal_above (prec k : Z) (x : spec_float) : Prop :=
  match x with
  | S754_finite false m e => 2 ^ (prec - 1) <= Zpos m /\ k <= e
  | S754_infinity false => True
  | _ => False
  end.

(* ================================================================== *)
(** * Data model *)
(* ================================================================== *)

(** The three controlled axes, in the order of the element names of the
    settings fields (indices 0, 1, 2 of the loop in [attitudeUpdated]). *)
Inductive axis : Set := ROLL | PITCH | YAW.

(** An array with one element per axis. *)
Record arr3 (A : Type) : Type := Arr3 { at_roll : A; at_pitch : A; at_yaw : A }.
Arguments Arr3 {A} _ _ _.
Arguments at_roll {A} _.
Arguments at_pitch {A} _.
Arguments at_yaw {A} _.

Definition get {A} (v : arr3 A) (i : axis) : A :=
  match i with
  | ROLL => at_roll v
  | PITCH => at_pitch v
  | YAW => at_yaw v
  end.

Definition set {A} (v : arr3 A) (i : axis) (x : A) : arr3 A :=
  match i with
  | ROLL => Arr3 x (at_pitch v) (at_yaw v)
  | PITCH => Arr3 (at_roll v) x (at_yaw v)
  | YAW => Arr3 (at_roll v) (at_pitch v) x
  end.

Definition fill {A} (x : A) : arr3 A := Arr3 x x x.

Notation "v .[ i ]" := (get v i) (at level 1, left associativity, format "v .[ i ]").

(** [CameraStabSettings.Input]: an accessory channel, or none. The code
    passes [Input - INPUT_ACCESSORY0] to [AccessoryDesiredInstGet]. *)
Inductive input_t : Set :=
  | INPUT_ACCESSORY (instId : nat)
  | INPUT_NONE.

(** [CameraStabSettings.StabilizationMode]; a value outside the two
    options reaches the [default: PIOS_Assert(0)] of the switch. *)
Inductive stabilizationmode_t : Set :=
  | STABILIZATIONMODE_ATTITUDE
  | STABILIZATIONMODE_AXISLOCK
  | STABILIZATIONMODE_INVALID.

(** [CameraStabSettings.GimbalType], with the same provision. *)
Inductive gimbaltype_t : Set :=
  | GIMBALTYPE_GENERIC
  | GIMBALTYPE_YAWROLLPITCH
  | GIMBALTYPE_YAWPITCHROLL
  | GIMBALTYPE_INVALID.

(** Modelled from the spec: the generated header camerastabsettings.h,
    which declares [CameraStabSettingsData], is not part of the sources.
    The spec's AxisConfig gives the scale and limit parameters as floats;
    every numeric field is used by the code only through its conversion
    to floating point (an explicit [(float)] cast or the usual arithmetic
    conversion) and, for [FeedForward], a test against zero, so a field
    holds the value of that conversion. *)
Record CameraStabSettingsData : Type := {
  Input : arr3 input_t;
  InputRange : arr3 float;
  InputRate : arr3 float;
  StabilizationMode : arr3 stabilizationmode_t;
  OutputRange : arr3 float;
  ResponseTime : arr3 float;
  GimbalType : gimbaltype_t;
  FeedForward : arr3 float;
  AccelTime : arr3 float;
  DecelTime : arr3 float;
  MaxAxisLockRate : float;
  MaxAccel : float
}.

(** [struct CameraStab_data], with USE_GIMBAL_LPF and USE_GIMBAL_FF
    defined. *)
Record CameraStab_data : Type := {
  lastSysTime : Z;
  inputs : arr3 float;
  attitudeFiltered : arr3 float;
  ffLastAttitude : arr3 float;
  ffLastAttitudeFiltered : arr3 float;
  ffFilterAccumulator : arr3 float
}.

(** The state after [memset(csd, 0, ...)] and the first clock reading. *)
Definition initial_data (now : Z) : CameraStab_data :=
  {| lastSysTime := now;
     inputs := fill F32.zero;
     attitudeFiltered := fill F32.zero;
     ffLastAttitude := fill F32.zero;
     ffLastAttitudeFiltered := fill F32.zero;
     ffFilterAccumulator := fill F32.zero |}.

Definition set_inputs (csd : CameraStab_data) (i : axis) (x : float) :=
  {| lastSysTime := lastSysTime csd;
     inputs := set (inputs csd) i x;
     attitudeFiltered := attitudeFiltered csd;
     ffLastAttitude := ffLastAttitude csd;
     ffLastAttitudeFiltered := ffLastAttitudeFiltered csd;
     ffFilterAccumulator := ffFilterAccumulator csd |}.

Definition set_attitudeFiltered (csd : CameraStab_data) (i : axis) (x : float) :=
  {| lastSysTime := lastSysTime csd;
     inputs := inputs csd;
     attitudeFiltered := set (attitudeFiltered csd) i x;
     ffLastAttitude := ffLastAttitude csd;
     ffLastAttitudeFiltered := ffLastAttitudeFiltered csd;
     ffFilterAccumulator := ffFilterAccumulator csd |}.

Definition set_ffLastAttitude (csd : CameraStab_data) (i : axis) (x : float) :=
  {| lastSysTime := lastSysTime csd;
     inputs := inputs csd;
     attitudeFiltered := attitudeFiltered csd;
     ffLastAttitude := set (ffLastAttitude csd) i x;
     ffLastAttitudeFiltered := ffLastAttitudeFiltered csd;
     ffFilterAccumulator := ffFilterAccumulator csd |}.

Definition set_ffLastAttitudeFiltered (csd : CameraStab_data) (i : axis) (x : float) :=
  {| lastSysTime := lastSysTime csd;
     inputs := inputs csd;
     attitudeFiltered := attitudeFiltered csd;
     ffLastAttitude := ffLastAttitude csd;
     ffLastAttitudeFiltered := set (ffLastAttitudeFiltered csd) i x;
     ffFilterAccumulator := ffFilterAccumulator csd |}.

Definition set_ffFilterAccumulator (csd : CameraStab_data) (i : axis) (x : float) :=
  {| lastSysTime := lastSysTime csd;
     inputs := inputs csd;
     attitudeFiltered := attitudeFiltered csd;
     ffLastAttitude := ffLastAttitude csd;
     ffLastAttitudeFiltered := ffLastAttitudeFiltered csd;
     ffFilterAccumulator := set (ffFilterAccumulator csd) i x |}.

Definition set_lastSysTime (csd : CameraStab_data) (t : Z) :=
  {| lastSysTime := t;
     inputs := inputs csd;
     attitudeFiltered := attitudeFiltered csd;
     ffLastAttitude := ffLastAttitude csd;
     ffLastAttitudeFiltered := ffLastAttitudeFiltered csd;
     ffFilterAccumulator := ffFilterAccumulator csd |}.

(** What one invocation reads from the object bus and the kernel. *)
Record bus : Type := {
  ev_is_attitude : bool;                 (* ev->obj == AttitudeActualHandle() *)
  tickCount : Z;                         (* xTaskGetTickCount() *)
  cameraStab : CameraStabSettingsData;   (* CameraStabSettingsGet *)
  attitudeActual : arr3 float;           (* AttitudeActual{Roll,Pitch,Yaw}Get *)
  accessoryVal : nat -> option float     (* AccessoryDesiredInstGet: Some on 0 *)
}.

(* ================================================================== *)
(** * The program *)
(* ================================================================== *)

Definition SAMPLE_PERIOD_MS : Z := 10.

(** Modelled from the spec: FreeRTOS's [portTICK_RATE_MS] and
    [portTickType] are not part of the sources. The spec's clock counts
    milliseconds ([NowMillis]), one tick per millisecond, in an unsigned
    32-bit counter. *)
Definition portTICK_RATE_MS : Z := 1.
Definition portTickType_modulus : Z := 2 ^ 32.

Local Open Scope f32_scope.

(** [static float bound(float val, float limit)] *)
Definition bound (val limit : float) : float :=
  if val >? limit then limit
  else if val <? - limit then - limit
  else val.

(** The time delta between calls in ms (lines 158-161). *)
Definition elapsed_ms (thisSysTime last : Z) : float :=
  if (thisSysTime >? last)%Z
  then F32.of_Z (((thisSysTime - last) * portTICK_RATE_MS) mod portTickType_modulus)
  else F32.of_Z SAMPLE_PERIOD_MS.

(** [fabs(x) > y] on two floats: both operands are promoted to double. *)
Definition fabs_gt (x y : float) : bool :=
  F64.gt (F64.fabs (F64.of_float x)) (F64.of_float y).

(** Read and process the control input of axis [i] (lines 167-184).
    [None] is the halt of [PIOS_Assert(0)]. *)
Definition process_input (b : bus) (dT : float) (i : axis)
    (csd : CameraStab_data) : option CameraStab_data :=
  let cs := cameraStab b in
  match (Input cs).[i] with
  | INPUT_NONE => Some csd
  | INPUT_ACCESSORY instId =>
    match accessoryVal b instId with
    | None => Some csd
    | Some AccessoryVal =>
      match (StabilizationMode cs).[i] with
      | STABILIZATIONMODE_ATTITUDE =>
        Some (set_inputs csd i (AccessoryVal * (InputRange cs).[i]))
      | STABILIZATIONMODE_AXISLOCK =>
        let input_rate := AccessoryVal * (InputRate cs).[i] in
        if fabs_gt input_rate (MaxAxisLockRate cs)
        then Some (set_inputs csd i
                     (bound ((inputs csd).[i] + input_rate * F32.milli * dT)
                            (InputRange cs).[i]))
        else Some csd
      | STABILIZATIONMODE_INVALID => None
      end
    end
  end.

(** The low-pass filter (lines 203-208). The guard
    [if (cameraStab.ResponseTime)] tests the array itself, which is never
    null, so the assignment is always executed. *)
Definition lowpass (rt dT filtered attitude : float) : float :=
  ((rt * filtered) + (dT * attitude)) / (rt + dT).

Definition filter_attitude (b : bus) (dT : float) (i : axis)
    (attitude : float) (csd : CameraStab_data) : float * CameraStab_data :=
  let rt := (ResponseTime (cameraStab b)).[i] in
  let a := lowpass rt dT (attitudeFiltered csd).[i] attitude in
  (a, set_attitudeFiltered csd i a).

(** The correction of lines 254-255 and 262-263: [fabs] makes the
    subtraction and the division double operations, and the assignment
    rounds the quotient to float. *)
Definition typeCorrection (range other : float) : float :=
  F32.of_double
    (F64.div (F64.sub (F64.of_float range) (F64.fabs (F64.of_float other)))
             (F64.of_float range)).

(** Lines 243-268 of [applyFeedForward]. *)
Definition gimbalTypeCorrection (b : bus) (index : axis) : option float :=
  let cs := cameraStab b in
  match GimbalType cs with
  | GIMBALTYPE_GENERIC => Some F32.one
  | GIMBALTYPE_YAWROLLPITCH =>
    match index with
    | ROLL => Some (typeCorrection (OutputRange cs).[PITCH] (attitudeActual b).[PITCH])
    | _ => Some F32.one
    end
  | GIMBALTYPE_YAWPITCHROLL =>
    match index with
    | PITCH => Some (typeCorrection (OutputRange cs).[ROLL] (attitudeActual b).[ROLL])
    | _ => Some F32.one
    end
  | GIMBALTYPE_INVALID => None
  end.

(** Lines 270-281: the accumulator and the two additions to the
    attitude. Returns the attitude and the new accumulator. *)
Definition ff_accumulate (dT attitude last gain correction accel decel acc0 : float)
    : float * float :=
  let accumulator := acc0 + (attitude - last) * gain * correction in
  let attitude1 := attitude + accumulator in
  let filter := (if accumulator >? F32.zero then accel else decel) / dT in
  let filter := if filter <? F32.one then F32.one else filter in
  let accumulator := accumulator - accumulator / filter in
  let attitude2 := attitude1 + accumulator in
  (attitude2, accumulator).

(** Lines 283-291: the acceleration limit. *)
Definition ff_limit (dT maxAccel lastFiltered attitude : float) : float :=
  let delta := attitude - lastFiltered in
  let maxDelta := maxAccel * F32.milli * dT in
  if fabs_gt delta maxDelta
  then lastFiltered + (if delta >? F32.zero then maxDelta else - maxDelta)
  else attitude.

(** [applyFeedForward(index, dT, &attitude, &cameraStab)] *)
Definition applyFeedForward (b : bus) (index : axis) (dT : float)
    (attitude : float) (csd : CameraStab_data) : option (float * CameraStab_data) :=
  let cs := cameraStab b in
  match gimbalTypeCorrection b index with
  | None => None
  | Some correction =>
    let '(attitude', accumulator) :=
      ff_accumulate dT attitude (ffLastAttitude csd).[index]
        (FeedForward cs).[index] correction
        (AccelTime cs).[index] (DecelTime cs).[index]
        (ffFilterAccumulator csd).[index] in
    let csd := set_ffLastAttitude csd index attitude in
    let csd := set_ffFilterAccumulator csd index accumulator in
    let attitude'' :=
      ff_limit dT (MaxAccel cs) (ffLastAttitudeFiltered csd).[index] attitude' in
    Some (attitude'', set_ffLastAttitudeFiltered csd index attitude'')
  end.

(** The test [if (cameraStab.FeedForward[i])]: true unless the value
    compares equal to zero. *)
Definition nonzero (x : float) : bool := negb (SFeqb x F32.zero).

(** The servo output of lines 215-216. *)
Definition output_of (attitude input range : float) : float :=
  bound ((attitude + input) / range) F32.one.

(** Lines 210-213: feed-forward, when the gain of the axis is not zero. *)
Definition feed_forward (b : bus) (dT : float) (i : axis)
    (attitude : float) (csd : CameraStab_data) : option (float * CameraStab_data) :=
  if nonzero (FeedForward (cameraStab b)).[i]
  then applyFeedForward b i dT attitude csd
  else Some (attitude, csd).

(** One iteration of the loop over the axes (lines 165-230): the new
    module data and the value passed to [CameraDesired<Axis>Set]. *)
Definition process_axis (b : bus) (dT : float) (i : axis)
    (csd : CameraStab_data) : option (CameraStab_data * float) :=
  match process_input b dT i csd with
  | None => None
  | Some csd =>
    let attitude := (attitudeActual b).[i] in
    let '(attitude, csd) := filter_attitude b dT i attitude csd in
    match feed_forward b dT i attitude csd with
    | None => None
    | Some (attitude, csd) =>
      Some (csd, output_of attitude (inputs csd).[i] (OutputRange (cameraStab b)).[i])
    end
  end.

(** What an invocation leaves behind: the module data and the commands
    written to CameraDesired, in the order they were written. *)
Record outcome : Type := {
  data : CameraStab_data;
  commands : list (axis * float)
}.

Fixpoint process_axes (b : bus) (dT : float) (axes : list axis)
    (csd : CameraStab_data) (done : list (axis * float)) : option outcome :=
  match axes with
  | [] => Some {| data := csd; commands := done |}
  | i :: rest =>
    match process_axis b dT i csd with
    | None => None
    | Some (csd, output) => process_axes b dT rest csd (done ++ [(i, output)])
    end
  end.

(** [static void attitudeUpdated(UAVObjEvent* ev)] *)
Definition attitudeUpdated (b : bus) (csd : CameraStab_data) : option outcome :=
  if negb (ev_is_attitude b) then Some {| data := csd; commands := [] |}
  else
    let thisSysTime := tickCount b in
    let dT := elapsed_ms thisSysTime (lastSysTime csd) in
    let csd := set_lastSysTime csd thisSysTime in
    process_axes b dT [ROLL; PITCH; YAW] csd [].

Local Close Scope f32_scope.

(** The axis has no trim sample on this invocation: its input source is
    None, or [AccessoryDesiredInstGet] fails for the configured one. *)
Definition trim_unavailable (b : bus) (i : axis) : Prop :=
  match (Input (cameraStab b)).[i] with
  | INPUT_NONE => True
  | INPUT_ACCESSORY instId => accessoryVal b instId = None
  end.

(** A number that is zero or positive, at or above the least exponent
    [emin] when finite. *)
Definition nonneg_number (emin : Z) (x : spec_float) : Prop :=
  match x with
  | S754_zero _ => True
  | S754_finite false _ e => emin <= e
  | S754_infinity false => True
  | _ => False
  end.

(* ================================================================== *)
(** * The specification's wording *)
(* ================================================================== *)

Module Spec.
Local Open Scope f32_scope.

(** [max(a, b)] on floats. *)
Definition max (a b : float) : float := if a <? b then b else a.

(** Step 2: accumulator += (attitude - ffLastAttitude) * feedForwardGain
    * gimbalTypeCorrection. *)
Definition accumulate (accumulator attitude ffLastAttitude gain correction : float) :=
  accumulator + (attitude - ffLastAttitude) * gain * correction.

(** Step 3: timeConstant = accelTimeMs if accumulator > 0 else
    decelTimeMs; filter = max(1, timeConstant / dT);
    accumulator -= accumulator / filter. *)
Definition timeConstant (accumulator accelTimeMs decelTimeMs : float) :=
  if accumulator >? F32.zero then accelTimeMs else decelTimeMs.

Definition decay (accumulator timeConstant dT : float) :=
  accumulator - accumulator / max F32.one (timeConstant / dT).

(** The filter formula of section 4.3 in exact arithmetic. *)
Definition lowpass_exact (responseTimeMs dT filteredAttitude rawAttitude : Q) : Q :=
  (responseTimeMs * filteredAttitude + dT * rawAttitude) / (responseTimeMs + dT).

End Spec.

(* ================================================================== *)
(** * Sample configurations and runs *)
(* ================================================================== *)

Module Examples.

(** Settings with the feed-forward of every axis enabled (gain 1), no
    input channel, response time 0 and a generic gimbal. *)
Definition settings : CameraStabSettingsData :=
  {| Input := fill INPUT_NONE;
     InputRange := fill (F32.of_Z 20);
     InputRate := fill (F32.of_Z 50);
     StabilizationMode := fill STABILIZATIONMODE_ATTITUDE;
     OutputRange := fill (F32.of_Z 20);
     ResponseTime := fill F32.zero;
     GimbalType := GIMBALTYPE_GENERIC;
     FeedForward := fill (F32.of_Z 1);
     AccelTime := fill (F32.of_Z 5);
     DecelTime := fill (F32.of_Z 5);
     MaxAxisLockRate := F32.of_Z 1;
     MaxAccel := F32.of_Z 500 |}.

(** A bus whose three attitude angles are [a] and that has no
    accessory channel. *)
Definition bus_at (now : Z) (a : float) : bus :=
  {| ev_is_attitude := true;
     tickCount := now;
     cameraStab := settings;
     attitudeActual := fill a;
     accessoryVal := fun _ => None |}.

(** Roll in axis-lock mode on accessory channel 0, with input rate 1.0,
    maximal axis-lock rate 0.5 and input range 1. *)
Definition lock_settings : CameraStabSettingsData :=
  {| Input := Arr3 (INPUT_ACCESSORY 0) INPUT_NONE INPUT_NONE;
     InputRange := fill (F32.of_Z 1);
     InputRate := fill F32.one;
     StabilizationMode := fill STABILIZATIONMODE_AXISLOCK;
     OutputRange := fill (F32.of_Z 20);
     ResponseTime := fill F32.zero;
     GimbalType := GIMBALTYPE_GENERIC;
     FeedForward := fill F32.zero;
     AccelTime := fill (F32.of_Z 5);
     DecelTime := fill (F32.of_Z 5);
     MaxAxisLockRate := F32.ratio 1 2;
     MaxAccel := F32.of_Z 500 |}.

Definition lock_bus (sample : float) : bus :=
  {| ev_is_attitude := true;
     tickCount := 0;
     cameraStab := lock_settings;
     attitudeActual := fill F32.zero;
     accessoryVal := fun n => match n with O => Some sample | _ => None end |}.

(** The roll trim after each of [n] invocations of the input stage
    with the sample held and 10 ms between them, oldest first. *)
Fixpoint lock_trims (n : nat) (sample : float) (csd : CameraStab_data) : list float :=
  match n with
  | O => []
  | S k =>
    match process_input (lock_bus sample) (F32.of_Z 10) ROLL csd with
    | Some csd' => (inputs csd').[ROLL] :: lock_trims k sample csd'
    | None => []
    end
  end.

(** Every element is strictly below the next one. *)
Fixpoint ascending (l : list float) : bool :=
  match l with
  | x :: (y :: _) as rest => F32.lt x y && ascending rest
  | _ => true
  end.

(** The filter applied [n] times to a constant raw input. *)
Fixpoint lowpass_iter (n : nat) (rt dT raw filtered : float) : float :=
  match n with
  | O => filtered
  | S k => lowpass_iter k rt dT raw (lowpass rt dT filtered raw)
  end.

(** The module data after [n] invocations 10 ms apart, the first at
    tick [now], with the three angles held at [a]. *)
Fixpoint steady (n : nat) (now : Z) (a : float) (csd : CameraStab_data)
    : option CameraStab_data :=
  match n with
  | O => Some csd
  | S k =>
    match attitudeUpdated (bus_at now a) csd with
    | Some o => steady k (now + 10) a (data o)
    | None => None
    end
  end.

(** The settings above with a response time of 100 ms on every axis,
    and a bus with them. *)
Definition smooth_settings : CameraStabSettingsData :=
  {| Input := fill INPUT_NONE;
     InputRange := fill (F32.of_Z 20);
     InputRate := fill (F32.of_Z 50);
     StabilizationMode := fill STABILIZATIONMODE_ATTITUDE;
     OutputRange := fill (F32.of_Z 20);
     ResponseTime := fill (F32.of_Z 100);
     GimbalType := GIMBALTYPE_GENERIC;
     FeedForward := fill F32.zero;
     AccelTime := fill (F32.of_Z 5);
     DecelTime := fill (F32.of_Z 5);
     MaxAxisLockRate := F32.of_Z 1;
     MaxAccel := F32.of_Z 500 |}.

Definition smooth_bus (now : Z) (a : float) : bus :=
  {| ev_is_attitude := true;
     tickCount := now;
     cameraStab := smooth_settings;
     attitudeActual := fill a;
     accessoryVal := fun _ => None |}.


(** For [n] steps from [filtered] and from [exact], the float filter
    and the exact formula, with response time 100 and dT 10 towards 10.0,
    stay within [tol] of each other. *)
Fixpoint filter_tracks (n : nat) (tol : Q) (filtered : float) (exact : Q) : bool :=
  Qle_bool (Qabs (SF2Q filtered - exact)) tol &&
  match n with
  | O => true
  | S k =>
    filter_tracks k tol
      (lowpass (F32.of_Z 100) (F32.of_Z 10) filtered (F32.of_Z 10))
      (Spec.lowpass_exact 100 10 exact 10)
  end.

(** What an invocation from the initial data leaves behind when the
    three angles are 25 and ten ticks have passed. *)
Definition quiet_outcome : option outcome :=
  Eval vm_compute in attitudeUpdated (bus_at 10 (F32.of_Z 25)) (initial_data 0).

(** The same with the response time of 100 ms. *)
Definition smooth_outcome : option outcome :=
  Eval vm_compute in attitudeUpdated (smooth_bus 10 (F32.of_Z 25)) (initial_data 0).

End Examples.

(* ================================================================== *)
(** * Module start-up *)
(* ================================================================== *)

(** What [CameraStabInitialize] meets when it is called.
    Modelled from the spec: hwsettings.h, the build option
    MODULE_CameraStab_BUILTIN and the FreeRTOS allocator are not part of
    the sources; the spec gives the activation interface as a single
    boolean "module enabled" query at start-up. *)
Record startup : Type := {
  builtin : bool;          (* MODULE_CameraStab_BUILTIN is defined *)
  optionalModule : bool;   (* optionalModules[..._CAMERASTAB] == ..._ENABLED *)
  allocated : bool;        (* pvPortMalloc returns a block *)
  startTick : Z            (* xTaskGetTickCount() *)
}.

(** What the call leaves behind: the static pointer [csd] ([None] is the
    null pointer of static storage) and the period handed to
    [EventPeriodicCallbackCreate], if the callback was created. *)
Record statics : Type := {
  csd_pointer : option CameraStab_data;
  periodicCallback : option Z
}.

(** [int32_t CameraStabInitialize(void)] *)
Definition CameraStabInitialize (s : startup) : Z * statics :=
  let cameraStabEnabled :=
    if builtin s then true
    else if optionalModule s then true else false in
  if cameraStabEnabled then
    if allocated s then
      (0, {| csd_pointer := Some (initial_data (startTick s));
             periodicCallback := Some (SAMPLE_PERIOD_MS / portTICK_RATE_MS) |})
    else (-1, {| csd_pointer := None; periodicCallback := None |})
  else (-1, {| csd_pointer := None; periodicCallback := None |}).

(** [int32_t CameraStabStart(void)]: the module has no thread. *)
Definition CameraStabStart : Z := 0.

(* ================================================================== *)
(** * Notions used by the statements *)
(* ================================================================== *)

(** The part of the module data that belongs to one axis: its trim, its
    filter value and the three feed-forward values. *)
Definition axis_state (csd : CameraStab_data) (i : axis)
    : float * float * float * float * float :=
  ((inputs csd).[i], (attitudeFiltered csd).[i], (ffLastAttitude csd).[i],
   (ffLastAttitudeFiltered csd).[i], (ffFilterAccumulator csd).[i]).

(** A zero, a finite number or an infinity with the sign bit [s]. *)
Definition signed_number (s : bool) (x : spec_float) : Prop :=
  match x with
  | S754_zero s' | S754_infinity s' | S754_finite s' _ _ => s' = s
  | S754_nan => False
  end.

(** The settings and the bus make the input stage of the axis reach
    [PIOS_Assert(0)]: a sample is read and the stabilization mode is
    neither of the two options. *)
Definition input_halts (b : bus) (i : axis) : bool :=
  match (Input (cameraStab b)).[i] with
  | INPUT_NONE => false
  | INPUT_ACCESSORY instId =>
    match accessoryVal b instId with
    | None => false
    | Some _ =>
      match (StabilizationMode (cameraStab b)).[i] with
      | STABILIZATIONMODE_INVALID => true
      | _ => false
      end
    end
  end.

(** They make the feed-forward of the axis reach it: the gain is not
    zero and the gimbal type is none of the three options. *)
Definition feed_forward_halts (b : bus) (i : axis) : bool :=
  nonzero (FeedForward (cameraStab b)).[i] &&
  match GimbalType (cameraStab b) with
  | GIMBALTYPE_INVALID => true
  | _ => false
  end.

Definition axis_halts (b : bus) (i : axis) : bool :=
  input_halts b i || feed_forward_halts b i.

(** A sequence of invocations, oldest first: what each one leaves
    behind, or [None] when one of them halts. *)
Fixpoint updates (bs : list bus) (csd : CameraStab_data) : option (list outcome) :=
  match bs with
  | [] => Some []
  | b :: rest =>
    match attitudeUpdated b csd with
    | None => None
    | Some o =>
      match updates rest (data o) with
      | None => None
      | Some os => Some (o :: os)
      end
    end
  end.

(* ================================================================== *)
(** * Further sample runs *)
(* ================================================================== *)

Module Runs.

(** The bus of [Examples.bus_at] with a NaN as roll angle. *)
Definition nan_bus (now : Z) : bus :=
  {| ev_is_attitude := true;
     tickCount := now;
     cameraStab := Examples.settings;
     attitudeActual := Arr3 S754_nan (F32.of_Z 25) (F32.of_Z 25);
     accessoryVal := fun _ => None |}.

Definition nan_outcome : option outcome :=
  Eval vm_compute in attitudeUpdated (nan_bus 10) (initial_data 0).

(** The invocations that follow it, with every angle at 25 again. *)
Definition nan_followers : option (list outcome) :=
  Eval vm_compute in
    match attitudeUpdated (nan_bus 10) (initial_data 0) with
    | Some o => updates [Examples.bus_at 20 (F32.of_Z 25); Examples.bus_at 30 (F32.of_Z 25)]
                  (data o)
    | None => None
    end.

(** The settings of [Examples.settings] with a maximal acceleration of
    zero, and a bus with them. *)
Definition frozen_bus (now : Z) (a : float) : bus :=
  {| ev_is_attitude := true;
     tickCount := now;
     cameraStab :=
       {| Input := fill INPUT_NONE;
          InputRange := fill (F32.of_Z 20);
          InputRate := fill (F32.of_Z 50);
          StabilizationMode := fill STABILIZATIONMODE_ATTITUDE;
          OutputRange := fill (F32.of_Z 20);
          ResponseTime := fill F32.zero;
          GimbalType := GIMBALTYPE_GENERIC;
          FeedForward := fill (F32.of_Z 1);
          AccelTime := fill (F32.of_Z 5);
          DecelTime := fill (F32.of_Z 5);
          MaxAxisLockRate := F32.of_Z 1;
          MaxAccel := F32.zero |};
     attitudeActual := fill a;
     accessoryVal := fun _ => None |}.

(** Roll in axis-lock mode on accessory channel 0 with input rate 50,
    maximal axis-lock rate 1 and input range 20, the sample held at
    [sample]. *)
Definition lock20_bus (sample : float) : bus :=
  {| ev_is_attitude := true;
     tickCount := 10;
     cameraStab :=
       {| Input := Arr3 (INPUT_ACCESSORY 0) INPUT_NONE INPUT_NONE;
          InputRange := fill (F32.of_Z 20);
          InputRate := fill (F32.of_Z 50);
          StabilizationMode := fill STABILIZATIONMODE_AXISLOCK;
          OutputRange := fill (F32.of_Z 20);
          ResponseTime := fill F32.zero;
          GimbalType := GIMBALTYPE_GENERIC;
          FeedForward := fill F32.zero;
          AccelTime := fill (F32.of_Z 5);
          DecelTime := fill (F32.of_Z 5);
          MaxAxisLockRate := F32.of_Z 1;
          MaxAccel := F32.of_Z 500 |};
     attitudeActual := fill F32.zero;
     accessoryVal := fun n => match n with O => Some sample | _ => None end |}.

(** [FLT_MAX], the largest finite float: (2^24 - 1) * 2^104. *)
Definition flt_max : float := S754_finite false 16777215 104.

End Runs.

(* ================================================================== *)
(** * Facts about the comparison of floats *)
(* ================================================================== *)

Section Order.

Lemma SFcompare_antisym (x y : spec_float) :
  SFcompare x y = option_map CompOpp (SFcompare y x).
Proof.
  destruct x as [sx | sx | | sx mx ex], y as [sy | sy | | sy my ey];
    try destruct sx; try destruct sy; simpl; try reflexivity.
  - rewrite (Z.compare_antisym ex ey).
    destruct (ex ?= ey)%Z; simpl; try reflexivity.
    rewrite !Pos.compare_cont_spec; simpl.
    rewrite (Pos.compare_antisym mx my).
    destruct (mx ?= my)%positive; reflexivity.
  - rewrite (Z.compare_antisym ex ey).
    destruct (ex ?= ey)%Z; simpl; try reflexivity.
    rewrite !Pos.compare_cont_spec; simpl.
    rewrite (Pos.compare_antisym mx my).
    destruct (mx ?= my)%positive; reflexivity.
Qed.

Lemma SFcompare_refl (x : spec_float) :
  is_nan x = false -> SFcompare x x = Some Eq.
Proof.
  destruct x as [s | s | | s m e]; try destruct s; simpl;
    try reflexivity; try discriminate; intros _;
    rewrite Z.compare_refl, Pos.compare_cont_spec, Pos.compare_refl;
    reflexivity.
Qed.

Lemma SFcompare_not_nan (x y : spec_float) :
  is_nan x = false -> is_nan y = false -> SFcompare x y <> None.
Proof.
  destruct x as [sx | sx | | sx mx ex], y as [sy | sy | | sy my ey];
    simpl; congruence.
Qed.

Lemma SFleb_refl (x : spec_float) : is_nan x = false -> SFleb x x = true.
Proof. intros H. unfold SFleb. now rewrite SFcompare_refl. Qed.

(** On numbers the order is total: [x > y] fails exactly when [x <= y]. *)
Lemma SFltb_false_SFleb (x y : spec_float) :
  is_nan x = false -> is_nan y = false ->
  SFltb y x = false -> SFleb x y = true.
Proof.
  intros Hx Hy. unfold SFltb, SFleb.
  rewrite (SFcompare_antisym y x).
  generalize (SFcompare_not_nan x y Hx Hy).
  destruct (SFcompare x y) as [[ | | ] | ]; simpl; congruence.
Qed.

Lemma SFleb_SFltb_false (x y : spec_float) :
  SFleb x y = true -> SFltb y x = false.
Proof.
  unfold SFltb, SFleb. rewrite (SFcompare_antisym y x).
  destruct (SFcompare x y) as [[ | | ] | ]; simpl; congruence.
Qed.

Lemma SFleb_opp_self (l : spec_float) :
  SFleb (S754_zero false) l = true -> SFleb (SFopp l) l = true.
Proof.
  unfold SFleb.
  destruct l as [s | s | | s m e]; try destruct s; simpl;
    try congruence; now rewrite Z.compare_refl, Pos.compare_cont_refl.
Qed.

Lemma SFleb_nonneg_not_nan (l : spec_float) :
  SFleb (S754_zero false) l = true -> is_nan l = false.
Proof. unfold SFleb. destruct l; simpl; congruence. Qed.

Lemma is_nan_opp (x : spec_float) : is_nan (SFopp x) = is_nan x.
Proof. now destruct x. Qed.

(** [|v| <= l] puts [v] between [-l] and [l]. *)
Lemma SFleb_abs (v l : spec_float) :
  SFleb (SFabs v) l = true ->
  SFltb l v = false /\ SFltb v (SFopp l) = false.
Proof.
  unfold SFltb, SFleb.
  destruct v as [s | s | | s m e], l as [t | t | | t m' e'];
    try destruct s; try destruct t; simpl; try (split; congruence);
    rewrite ?(Z.compare_antisym e e'), ?Pos.compare_cont_spec;
    simpl; rewrite ?(Pos.compare_antisym m m');
    destruct (e ?= e')%Z; simpl; try (split; congruence);
    destruct (m ?= m')%positive; simpl; split; congruence.
Qed.

Lemma SFleb_trans (a b c : spec_float) :
  SFleb a b = true -> SFleb b c = true -> SFleb a c = true.
Proof.
  unfold SFleb, SFcompare.
  destruct a as [sa | sa | | sa ma ea], b as [sb | sb | | sb mb eb],
           c as [sc | sc | | sc mc ec];
    try destruct sa; try destruct sb; try destruct sc;
    try congruence; try reflexivity;
    rewrite ?Pos.compare_cont_spec; simpl;
    repeat match goal with
           | |- context [Z.compare ?x ?y] => destruct (Z.compare_spec x y)
           | |- context [Pos.compare ?x ?y] => destruct (Pos.compare_spec x y)
           end; simpl; intros; try congruence; try lia.
Qed.

Lemma SFltb_SFleb (a b : spec_float) : SFltb a b = true -> SFleb a b = true.
Proof.
  unfold SFltb, SFleb. now destruct (SFcompare a b) as [[ | | ] | ].
Qed.

(** [-l <= v <= l] gives [|v| <= l]. *)
Lemma SFleb_abs_intro (v l : spec_float) :
  SFleb (SFopp l) v = true -> SFleb v l = true -> SFleb (SFabs v) l = true.
Proof.
  unfold SFleb, SFcompare.
  destruct v as [s | s | | s m e], l as [t | t | | t m' e'];
    try destruct s; try destruct t; simpl; try congruence;
    rewrite ?Pos.compare_cont_spec; simpl;
    repeat match goal with
           | |- context [Z.compare ?x ?y] => destruct (Z.compare_spec x y)
           | |- context [Pos.compare ?x ?y] => destruct (Pos.compare_spec x y)
           end; simpl; intros; try congruence; try lia.
Qed.

Lemma SFltb_trans (a b c : spec_float) :
  SFltb a b = true -> SFltb b c = true -> SFltb a c = true.
Proof.
  unfold SFltb, SFcompare.
  destruct a as [sa | sa | | sa ma ea], b as [sb | sb | | sb mb eb],
           c as [sc | sc | | sc mc ec];
    try destruct sa; try destruct sb; try destruct sc;
    try congruence; try reflexivity;
    rewrite ?Pos.compare_cont_spec; simpl;
    repeat match goal with
           | |- context [Z.compare ?x ?y] => destruct (Z.compare_spec x y)
           | |- context [Pos.compare ?x ?y] => destruct (Pos.compare_spec x y)
           end; simpl; intros; try congruence; try lia.
Qed.

End Order.

(* ================================================================== *)
(** * The bounding utility *)
(* ================================================================== *)

Lemma bound_cases (v l : float) :
  (F32.gt v l = true /\ bound v l = l) \/
  (F32.gt v l = false /\ F32.lt v (F32.neg l) = true /\ bound v l = F32.neg l) \/
  (F32.gt v l = false /\ F32.lt v (F32.neg l) = false /\ bound v l = v).
Proof.
  unfold bound.
  destruct (F32.gt v l); [now left | right].
  destruct (F32.lt v (F32.neg l)); [now left | now right].
Qed.

(** The result of [bound] on a number lies between [-l] and [l] when
    [l >= 0]; the number may be an infinity. *)
Lemma bound_range (v l : float) :
  is_nan v = false -> F32.le F32.zero l = true ->
  F32.le (F32.neg l) (bound v l) = true /\ F32.le (bound v l) l = true.
Proof.
  intros Hv Hl. unfold F32.le, F32.neg, F32.zero in *.
  pose proof (SFleb_nonneg_not_nan l Hl) as Hn.
  assert (Hn' : is_nan (SFopp l) = false) by now rewrite is_nan_opp.
  destruct (bound_cases v l) as [[_ E] | [[_ [_ E]] | [G [L E]]]]; rewrite E.
  - split; [now apply SFleb_opp_self | now apply SFleb_refl].
  - split; [now apply SFleb_refl | now apply SFleb_opp_self].
  - unfold F32.gt, F32.lt, F32.neg in *. split.
    + now apply SFltb_false_SFleb.
    + now apply SFltb_false_SFleb.
Qed.

Lemma bound_identity (v l : float) :
  F32.le (SFabs v) l = true -> bound v l = v.
Proof.
  intros H. apply SFleb_abs in H. destruct H as [H1 H2].
  unfold bound, F32.gt, F32.lt, F32.neg. now rewrite H1, H2.
Qed.

Lemma is_finite_not_nan (x : spec_float) : is_finite x = true -> is_nan x = false.
Proof. now destruct x. Qed.

(** C10: [bound v l] lies in [[-l, l]] for every finite [v] and every
    [l >= 0], and is [v] itself whenever [|v| <= l]. *)
Theorem bound_clamps (v l : float) :
  is_finite v = true -> F32.le F32.zero l = true ->
  (F32.le (F32.neg l) (bound v l) = true /\ F32.le (bound v l) l = true) /\
  (F32.le (SFabs v) l = true -> bound v l = v).
Proof.
  intros Hv Hl. split.
  - apply bound_range; [now apply is_finite_not_nan | exact Hl].
  - apply bound_identity.
Qed.

(* ================================================================== *)
(** * Facts about rounding *)
(* ================================================================== *)

Section Rounding.
Variables prec emax : Z.
Hypothesis prec_pos : 0 < prec.

Abbreviation emin := (SpecFloat.emin prec emax).
Abbreviation fexp := (SpecFloat.fexp prec emax).

Lemma digits2_pos_bounds (m : positive) :
  2 ^ (Zpos (digits2_pos m) - 1) <= Zpos m < 2 ^ Zpos (digits2_pos m).
Proof.
  induction m as [m IH | m IH | ]; simpl digits2_pos.
  - rewrite Pos2Z.inj_succ.
    replace (Z.succ (Zpos (digits2_pos m)) - 1) with (Z.succ (Zpos (digits2_pos m) - 1)) by lia.
    rewrite !Z.pow_succ_r by lia. lia.
  - rewrite Pos2Z.inj_succ.
    replace (Z.succ (Zpos (digits2_pos m)) - 1) with (Z.succ (Zpos (digits2_pos m) - 1)) by lia.
    rewrite !Z.pow_succ_r by lia. lia.
  - simpl. lia.
Qed.

Lemma shr_1_m (mrs : shr_record) :
  0 <= shr_m mrs -> shr_m (shr_1 mrs) = shr_m mrs / 2.
Proof.
  destruct mrs as [m r s]; simpl. intros Hm.
  rewrite <- Z.div2_div.
  destruct m as [ | [p | p | ] | p]; try reflexivity; lia.
Qed.

Lemma iter_shr_1_m (p : positive) (mrs : shr_record) :
  0 <= shr_m mrs ->
  shr_m (iter_pos shr_1 p mrs) = shr_m mrs / 2 ^ Zpos p.
Proof.
  revert mrs. induction p as [p IH | p IH | ]; intros mrs Hm; simpl iter_pos.
  - assert (H1 : 0 <= shr_m (shr_1 mrs)).
    { rewrite shr_1_m by exact Hm. apply Z.div_pos; lia. }
    assert (H2 : 0 <= shr_m (iter_pos shr_1 p (shr_1 mrs))).
    { rewrite IH by exact H1. apply Z.div_pos; lia. }
    rewrite IH, IH, shr_1_m by assumption.
    rewrite !Z.div_div by lia.
    f_equal. rewrite (Pos2Z.inj_xI p).
    replace (2 * Zpos p + 1) with (1 + Zpos p + Zpos p) by lia.
    rewrite !Z.pow_add_r by lia. lia.
  - assert (H2 : 0 <= shr_m (iter_pos shr_1 p mrs)).
    { rewrite IH by exact Hm. apply Z.div_pos; lia. }
    rewrite IH, IH by assumption.
    rewrite !Z.div_div by lia.
    f_equal. rewrite (Pos2Z.inj_xO p).
    replace (2 * Zpos p) with (Zpos p + Zpos p) by lia.
    rewrite !Z.pow_add_r by lia. lia.
  - rewrite shr_1_m by exact Hm. reflexivity.
Qed.

Lemma shr_record_of_loc_m (m : Z) (l : location) :
  shr_m (shr_record_of_loc m l) = m.
Proof. destruct l as [ | [ | | ]]; reflexivity. Qed.

Lemma round_nearest_even_ge (m : Z) (l : location) :
  m <= round_nearest_even m l.
Proof.
  destruct l as [ | [ | | ]]; simpl; try lia.
  destruct (Z.even m); lia.
Qed.

(** The shift to the format's exponent keeps a mantissa non-negative. *)
Lemma shr_fexp_nonneg (m e : Z) (l : location) :
  0 <= m -> 0 <= shr_m (fst (shr_fexp prec emax m e l)).
Proof.
  intros Hm. unfold shr_fexp, shr.
  destruct (fexp (Zdigits2 m + e) - e) as [ | k | k]; simpl;
    rewrite ?iter_shr_1_m, shr_record_of_loc_m;
    rewrite ?shr_record_of_loc_m; try lia.
  apply Z.div_pos; lia.
Qed.

(** At or above the least exponent it keeps a positive mantissa
    positive. *)
Lemma shr_fexp_pos (m e : Z) (l : location) :
  0 < m -> emin <= e ->
  0 < shr_m (fst (shr_fexp prec emax m e l)) /\
  emin <= snd (shr_fexp prec emax m e l).
Proof.
  intros Hm He. unfold shr_fexp, shr.
  destruct m as [ | p | p]; try lia. simpl Zdigits2.
  pose proof (digits2_pos_bounds p) as Hd.
  remember (Zpos (digits2_pos p)) as d eqn:Ed.
  assert (Hk : fexp (d + e) - e <= 0 \/ fexp (d + e) - e = d - prec).
  { unfold SpecFloat.fexp. lia. }
  destruct (fexp (d + e) - e) as [ | k | k] eqn:Ek; simpl;
    rewrite ?shr_record_of_loc_m; try lia.
  rewrite iter_shr_1_m by (rewrite shr_record_of_loc_m; lia).
  rewrite shr_record_of_loc_m.
  destruct Hk as [Hk | Hk]; [lia | ].
  split; [ | lia].
  rewrite Hk.
  assert (Hp : 2 ^ (d - 1) = 2 ^ (prec - 1) * 2 ^ (d - prec)).
  { rewrite <- Z.pow_add_r by lia. f_equal. lia. }
  assert (H1 : 2 ^ (prec - 1) <= Zpos p / 2 ^ (d - prec)).
  { apply Z.div_le_lower_bound; [apply Z.pow_pos_nonneg; lia | ].
    rewrite Z.mul_comm, <- Hp. lia. }
  assert (0 < 2 ^ (prec - 1)) by (apply Z.pow_pos_nonneg; lia).
  lia.
Qed.

Lemma binary_round_aux_not_nan (sx : bool) (mx ex : Z) (lx : location) :
  0 <= mx -> is_nan (binary_round_aux prec emax sx mx ex lx) = false.
Proof.
  intros Hm. unfold binary_round_aux.
  pose proof (shr_fexp_nonneg mx ex lx Hm) as H1.
  destruct (shr_fexp prec emax mx ex lx) as [mrs' e']. simpl in H1.
  pose proof (round_nearest_even_ge (shr_m mrs') (loc_of_shr_record mrs')) as H2.
  pose proof (shr_fexp_nonneg (round_nearest_even (shr_m mrs') (loc_of_shr_record mrs'))
                e' loc_Exact ltac:(lia)) as H3.
  destruct (shr_fexp prec emax _ e' loc_Exact) as [mrs'' e'']. simpl in H3.
  destruct (shr_m mrs'') as [ | m | m]; try lia; try reflexivity.
  now destruct (e'' <=? emax - prec).
Qed.

Lemma binary_round_aux_nonzero (sx : bool) (mx ex : Z) (lx : location) :
  0 < mx -> emin <= ex ->
  signed_nonzero emin sx (binary_round_aux prec emax sx mx ex lx).
Proof.
  intros Hm He. unfold binary_round_aux.
  pose proof (shr_fexp_pos mx ex lx Hm He) as [H1 H1'].
  destruct (shr_fexp prec emax mx ex lx) as [mrs' e']. simpl in H1, H1'.
  pose proof (round_nearest_even_ge (shr_m mrs') (loc_of_shr_record mrs')) as H2.
  pose proof (shr_fexp_pos (round_nearest_even (shr_m mrs') (loc_of_shr_record mrs'))
                e' loc_Exact ltac:(lia) H1') as [H3 H3'].
  destruct (shr_fexp prec emax _ e' loc_Exact) as [mrs'' e'']. simpl in H3, H3'.
  destruct (shr_m mrs'') as [ | m | m]; try lia.
  destruct (e'' <=? emax - prec); simpl; auto.
Qed.

Lemma shl_align_snd (mx : positive) (ex ex' : Z) :
  snd (shl_align mx ex ex') = Z.min ex ex'.
Proof.
  unfold shl_align. destruct (ex' - ex) eqn:E; simpl; lia.
Qed.

Lemma fexp_ge_emin (e : Z) : emin <= fexp e.
Proof. unfold SpecFloat.fexp. lia. Qed.

Lemma binary_round_nonzero (sx : bool) (mx : positive) (ex : Z) :
  emin <= ex -> signed_nonzero emin sx (binary_round prec emax sx mx ex).
Proof.
  intros He. unfold binary_round.
  pose proof (shl_align_snd mx ex (fexp (Zpos (digits2_pos mx) + ex))) as Hs.
  pose proof (fexp_ge_emin (Zpos (digits2_pos mx) + ex)) as Hf.
  destruct (shl_align mx ex _) as [mz ez]. cbn [snd] in Hs.
  apply binary_round_aux_nonzero; lia.
Qed.

Lemma binary_round_not_nan (sx : bool) (mx : positive) (ex : Z) :
  is_nan (binary_round prec emax sx mx ex) = false.
Proof.
  unfold binary_round. destruct (shl_align mx ex _) as [mz ez].
  apply binary_round_aux_not_nan. lia.
Qed.

Lemma binary_normalize_not_nan (m e : Z) (s : bool) :
  is_nan (binary_normalize prec emax m e s) = false.
Proof.
  destruct m; simpl; auto using binary_round_not_nan.
Qed.

(** Sums, differences and products of finite numbers are numbers. *)
Lemma SFadd_not_nan (x y : spec_float) :
  is_finite x = true -> is_finite y = true ->
  is_nan (SFadd prec emax x y) = false.
Proof.
  destruct x as [sx | sx | | sx mx ex], y as [sy | sy | | sy my ey];
    try discriminate; intros _ _; simpl; try reflexivity.
  - now destruct sx, sy.
  - apply binary_normalize_not_nan.
Qed.

Lemma SFmul_not_nan (x y : spec_float) :
  is_finite x = true -> is_finite y = true ->
  is_nan (SFmul prec emax x y) = false.
Proof.
  destruct x as [sx | sx | | sx mx ex], y as [sy | sy | | sy my ey];
    try discriminate; intros _ _; simpl; try reflexivity.
  apply binary_round_aux_not_nan. lia.
Qed.

Lemma SFdiv_core_binary_nonneg (m1 m2 : positive) (e1 e2 : Z) :
  0 <= fst (fst (SFdiv_core_binary prec emax (Zpos m1) e1 (Zpos m2) e2)).
Proof.
  unfold SFdiv_core_binary.
  set (s := _ - _ - _).
  set (m' := match s with Z0 => Zpos m1 | Zpos _ => Z.shiftl (Zpos m1) s | Zneg _ => 0 end).
  assert (Hm' : 0 <= m').
  { subst m'. destruct s; try lia. apply Z.shiftl_nonneg. lia. }
  pose proof (Z_div_mod m' (Zpos m2) ltac:(lia)) as H.
  destruct (Z.div_eucl m' (Zpos m2)) as [q r]. simpl.
  destruct H as [H1 H2]. nia.
Qed.

(** The quotient of a number by a finite number other than zero is a
    number. *)
Lemma SFdiv_not_nan (x y : spec_float) :
  is_nan x = false -> is_finite y = true -> SFeqb y (S754_zero false) = false ->
  is_nan (SFdiv prec emax x y) = false.
Proof.
  destruct x as [sx | sx | | sx mx ex], y as [sy | sy | | sy my ey];
    try discriminate; intros _ _; unfold SFeqb; simpl; try reflexivity;
    try discriminate.
  intros _.
  pose proof (SFdiv_core_binary_nonneg mx my ex ey) as H.
  destruct (SFdiv_core_binary prec emax (Zpos mx) ex (Zpos my) ey) as [[mz ez] lz].
  simpl in H. now apply binary_round_aux_not_nan.
Qed.

(** Adding a positive number to a number that is not negative gives a
    positive number: the sum does not cancel and does not underflow. *)
Lemma SFadd_nonzero (x y : spec_float) :
  nonneg_number emin x -> signed_nonzero emin false y ->
  signed_nonzero emin false (SFadd prec emax x y).
Proof.
  destruct x as [sx | [ | ] | | [ | ] mx ex], y as [sy | [ | ] | | [ | ] my ey];
    simpl; try tauto; try (intros _ [E _]; discriminate); try discriminate.
  intros Hx [_ Hy].
  apply binary_round_nonzero. lia.
Qed.

Lemma valid_binary_nonneg (x : spec_float) :
  valid_binary prec emax x = true -> SFleb (S754_zero false) x = true ->
  nonneg_number emin x.
Proof.
  unfold SFleb.
  destruct x as [sx | [ | ] | | [ | ] mx ex]; simpl; try discriminate; try tauto.
  unfold bounded, canonical_mantissa. intros H _.
  apply andb_prop in H. destruct H as [H _]. apply Z.eqb_eq in H.
  rewrite <- H. apply fexp_ge_emin.
Qed.

Lemma signed_nonzero_gt (x : spec_float) :
  signed_nonzero emin false x -> SFltb (S754_zero false) x = true.
Proof.
  unfold SFltb.
  destruct x as [sx | sx | | sx mx ex]; simpl; try tauto.
  - now intros ->.
  - now intros [-> _].
Qed.

Lemma pos_iter_xO (m d : positive) :
  Zpos (Pos.iter xO m d) = Zpos m * 2 ^ Zpos d.
Proof.
  induction d as [ | d IH] using Pos.peano_ind.
  - simpl. lia.
  - rewrite Pos.iter_succ, Pos2Z.inj_xO, IH, Pos2Z.inj_succ, Z.pow_succ_r by lia. lia.
Qed.

Lemma digits2_pos_unique (m : positive) (d : Z) :
  2 ^ (d - 1) <= Zpos m < 2 ^ d -> Zpos (digits2_pos m) = d.
Proof.
  intros [H1 H2]. pose proof (digits2_pos_bounds m) as [H3 H4].
  remember (Zpos (digits2_pos m)) as d' eqn:E.
  assert (Hd' : 0 < d') by lia.
  assert (Hd : 0 < d).
  { destruct (Z.lt_ge_cases 0 d) as [Hlt0 | Hle]; [exact Hlt0 | ].
    assert (2 ^ d <= 2 ^ 0) by (apply Z.pow_le_mono_r; lia). simpl in *. lia. }
  destruct (Z.lt_trichotomy d d') as [Hlt | [Heq | Hgt]]; [ | now symmetry | ].
  - assert (2 ^ d <= 2 ^ (d' - 1)) by (apply Z.pow_le_mono_r; lia). lia.
  - assert (2 ^ d' <= 2 ^ (d - 1)) by (apply Z.pow_le_mono_r; lia). lia.
Qed.

Lemma digits2_pos_le (a b : positive) :
  Zpos a <= Zpos b -> Zpos (digits2_pos a) <= Zpos (digits2_pos b).
Proof.
  intros Hab. pose proof (digits2_pos_bounds a) as [Ha _].
  pose proof (digits2_pos_bounds b) as [_ Hb].
  destruct (Z.le_gt_cases (Zpos (digits2_pos a)) (Zpos (digits2_pos b))) as [Hle | Hgt];
    [exact Hle | ].
  assert (2 ^ Zpos (digits2_pos b) <= 2 ^ (Zpos (digits2_pos a) - 1))
    by (apply Z.pow_le_mono_r; lia).
  lia.
Qed.

(** A bound on the value bounds the number of digits. *)
Lemma digits2_pos_lt_pow (a : positive) (k : Z) :
  0 <= k -> Zpos a < 2 ^ k -> Zpos (digits2_pos a) <= k.
Proof.
  intros Hk Ha. pose proof (digits2_pos_bounds a) as [H1 _].
  destruct (Z.le_gt_cases (Zpos (digits2_pos a)) k) as [Hle | Hgt]; [exact Hle | ].
  assert (2 ^ k <= 2 ^ (Zpos (digits2_pos a) - 1)) by (apply Z.pow_le_mono_r; lia).
  lia.
Qed.

(** What [shr_fexp] returns on a positive mantissa: the exponent of the
    format and the mantissa divided accordingly. *)
Lemma shr_fexp_spec (m : positive) (e : Z) (l : location) :
  let k := Z.max 0 (fexp (Zpos (digits2_pos m) + e) - e) in
  shr_m (fst (shr_fexp prec emax (Zpos m) e l)) = Zpos m / 2 ^ k /\
  snd (shr_fexp prec emax (Zpos m) e l) = e + k.
Proof.
  cbv zeta. unfold shr_fexp, shr. simpl Zdigits2.
  destruct (fexp (Zpos (digits2_pos m) + e) - e) as [ | k | k] eqn:Ek.
  - simpl. rewrite shr_record_of_loc_m, Z.div_1_r. lia.
  - cbn [fst snd]. rewrite iter_shr_1_m by (rewrite shr_record_of_loc_m; lia).
    rewrite shr_record_of_loc_m. rewrite Z.max_r by lia. lia.
  - cbn [fst snd]. rewrite shr_record_of_loc_m, Z.max_l by lia.
    rewrite Z.div_1_r. lia.
Qed.


Lemma round_nearest_even_le (m : Z) (l : location) :
  round_nearest_even m l <= m + 1.
Proof.
  destruct l as [ | [ | | ]]; simpl; try lia.
  destruct (Z.even m); lia.
Qed.

Lemma shl_align_spec (m : positive) (e e' : Z) :
  Zpos (fst (shl_align m e e')) = Zpos m * 2 ^ (e - Z.min e e') /\
  snd (shl_align m e e') = Z.min e e'.
Proof.
  unfold shl_align. destruct (e' - e) as [ | d | d] eqn:E; cbn [fst snd].
  - rewrite Z.min_l by lia. rewrite Z.sub_diag. simpl. lia.
  - rewrite Z.min_l by lia. rewrite Z.sub_diag. simpl. lia.
  - rewrite Z.min_r by lia. rewrite pos_iter_xO.
    replace (e - e') with (Zpos d) by lia. lia.
Qed.

Lemma digits2_pos_shift (p q : positive) (k : Z) :
  0 <= k -> Zpos q = Zpos p * 2 ^ k ->
  Zpos (digits2_pos q) = Zpos (digits2_pos p) + k.
Proof.
  intros Hk E. apply digits2_pos_unique.
  pose proof (digits2_pos_bounds p) as [H1 H2].
  assert (H0 : 0 < 2 ^ k) by (apply Z.pow_pos_nonneg; lia).
  replace (Zpos (digits2_pos p) + k - 1) with ((Zpos (digits2_pos p) - 1) + k) by lia.
  rewrite !Z.pow_add_r by lia. rewrite E. nia.
Qed.

Lemma fexp_le (a b : Z) : a <= b -> fexp a <= fexp b.
Proof. unfold SpecFloat.fexp. lia. Qed.

(** The second shift of [binary_round_aux] moves a mantissa of at most
    [prec] digits not at all, and the mantissa [2 ^ prec] by one place. *)
Lemma second_shift (m2 : positive) (F : Z) :
  emin <= F -> Zpos m2 <= 2 ^ prec ->
  let k2 := Z.max 0 (fexp (Zpos (digits2_pos m2) + F) - F) in
  (Zpos m2 < 2 ^ prec -> k2 = 0) /\ (Zpos m2 = 2 ^ prec -> k2 = 1).
Proof.
  intros HF Hm. cbv zeta. split; intros H.
  - pose proof (digits2_pos_lt_pow m2 prec ltac:(lia) H).
    unfold SpecFloat.fexp. lia.
  - assert (Hd : Zpos (digits2_pos m2) = prec + 1).
    { apply digits2_pos_unique. rewrite H.
      replace (prec + 1 - 1) with prec by lia.
      rewrite Z.pow_add_r by lia. simpl (2 ^ 1).
      assert (0 < 2 ^ prec) by (apply Z.pow_pos_nonneg; lia). lia. }
    rewrite Hd. unfold SpecFloat.fexp. lia.
Qed.

(** The result of rounding the positive number [P * 2 ^ ez]. *)
Lemma binary_round_result (s : bool) (P : positive) (ez : Z) :
  emin <= ez ->
  let F := fexp (Zpos (digits2_pos P) + ez) in
  let mn := Z.min ez F in
  let m1 := (Zpos P * 2 ^ (ez - mn)) / 2 ^ (F - mn) in
  0 < m1 < 2 ^ prec /\
  exists m2 : positive,
    m1 <= Zpos m2 <= m1 + 1 /\
    let k2 := Z.max 0 (fexp (Zpos (digits2_pos m2) + F) - F) in
    exists m3 : positive,
      Zpos m3 = Zpos m2 / 2 ^ k2 /\
      binary_round prec emax s P ez =
        if F + k2 <=? emax - prec then S754_finite s m3 (F + k2)
        else S754_infinity s.
Proof.
  intros He. cbv zeta.
  set (F := fexp (Zpos (digits2_pos P) + ez)).
  set (mn := Z.min ez F).
  unfold binary_round. fold F.
  pose proof (shl_align_spec P ez F) as [Hmz Hez]. fold mn in Hmz, Hez.
  destruct (shl_align P ez F) as [mz ez']. cbn [fst snd] in Hmz, Hez. subst ez'.
  assert (HF : emin <= F) by apply fexp_ge_emin.
  assert (Hmn : emin <= mn) by (unfold mn; lia).
  assert (Hdz : Zpos (digits2_pos mz) + mn = Zpos (digits2_pos P) + ez).
  { rewrite (digits2_pos_shift P mz (ez - mn)); [lia | unfold mn; lia | exact Hmz]. }
  unfold binary_round_aux.
  pose proof (shr_fexp_spec mz mn loc_Exact) as [Hs1 Hs2].
  pose proof (shr_fexp_pos (Zpos mz) mn loc_Exact ltac:(lia) Hmn) as [Hp1 _].
  rewrite Hdz in Hs1, Hs2. fold F in Hs1, Hs2.
  destruct (shr_fexp prec emax (Zpos mz) mn loc_Exact) as [mrs' e'].
  cbn [fst snd] in Hs1, Hs2, Hp1.
  assert (He' : e' = F) by (unfold mn in *; lia). clear Hs2. subst e'.
  assert (Hk : Z.max 0 (F - mn) = F - mn) by (unfold mn; lia).
  rewrite Hk, Hmz in Hs1.
  set (m1 := Zpos P * 2 ^ (ez - mn) / 2 ^ (F - mn)) in *.
  assert (Hm1 : m1 < 2 ^ prec).
  { pose proof (digits2_pos_bounds P) as [_ HP].
    assert (HD : Zpos (digits2_pos P) + ez - prec <= F).
    { unfold F, SpecFloat.fexp. lia. }
    unfold m1. apply Z.div_lt_upper_bound; [apply Z.pow_pos_nonneg; unfold mn; lia | ].
    rewrite <- Z.pow_add_r by (unfold mn; lia).
    assert (H2 : Zpos P * 2 ^ (ez - mn) < 2 ^ Zpos (digits2_pos P) * 2 ^ (ez - mn)).
    { apply Z.mul_lt_mono_pos_r; [apply Z.pow_pos_nonneg; unfold mn; lia | exact HP]. }
    rewrite <- Z.pow_add_r in H2 by (unfold mn; lia).
    eapply Z.lt_le_trans; [exact H2 | ].
    apply Z.pow_le_mono_r; unfold mn; lia. }
  split; [lia | ].
  pose proof (round_nearest_even_ge (shr_m mrs') (loc_of_shr_record mrs')) as Hr1.
  pose proof (round_nearest_even_le (shr_m mrs') (loc_of_shr_record mrs')) as Hr2.
  destruct (round_nearest_even (shr_m mrs') (loc_of_shr_record mrs')) as [ | m2 | m2] eqn:Er;
    try lia.
  exists m2. split; [lia | ].
  pose proof (shr_fexp_spec m2 F loc_Exact) as [Ht1 Ht2].
  pose proof (shr_fexp_pos (Zpos m2) F loc_Exact ltac:(lia) HF) as [Hp2 _].
  destruct (shr_fexp prec emax (Zpos m2) F loc_Exact) as [mrs'' e''].
  cbn [fst snd] in Ht1, Ht2, Hp2. subst e''.
  destruct (shr_m mrs'') as [ | m3 | m3] eqn:E3; try lia.
  exists m3. split; [exact Ht1 | reflexivity].
Qed.

(** Rounding does not go below a number of the format. *)
Lemma binary_round_ge (mx : positive) (ex : Z) (P : positive) (ez : Z) :
  canonical_mantissa prec emax mx ex = true ->
  emin <= ez <= ex ->
  Zpos mx * 2 ^ (ex - ez) <= Zpos P ->
  SFleb (S754_finite false mx ex) (binary_round prec emax false P ez) = true.
Proof.
  intros Hc He HP. unfold canonical_mantissa in Hc. apply Z.eqb_eq in Hc.
  pose proof (binary_round_result false P ez ltac:(lia)) as H. cbv zeta in H.
  set (F := fexp (Zpos (digits2_pos P) + ez)) in *.
  destruct H as [Hm1 [m2 [Hm2 [m3 [Hm3 ->]]]]].
  set (k2 := Z.max 0 (fexp (Zpos (digits2_pos m2) + F) - F)) in *.
  assert (HFx : ex <= F).
  { rewrite <- Hc. apply fexp_le.
    assert (Hq : exists q, Zpos q = Zpos mx * 2 ^ (ex - ez)).
    { assert (0 < Zpos mx * 2 ^ (ex - ez)).
      { apply Z.mul_pos_pos; [lia | apply Z.pow_pos_nonneg; lia]. }
      destruct (Zpos mx * 2 ^ (ex - ez)) as [ | q | q]; try lia. now exists q. }
    destruct Hq as [q Hq].
    pose proof (digits2_pos_shift mx q (ex - ez) ltac:(lia) Hq) as Hdq.
    pose proof (digits2_pos_le q P ltac:(lia)). lia. }
  destruct (F + k2 <=? emax - prec); [ | reflexivity].
  unfold SFleb, SFcompare.
  destruct (Z.compare_spec ex (F + k2)) as [Heq | Hlt | Hgt]; try reflexivity.
  - assert (Hk0 : k2 = 0) by (unfold k2 in *; lia).
    assert (HF : F = ex) by lia.
    rewrite Hk0, Z.div_1_r in Hm3.
    assert (Hmx : Zpos mx <= (Zpos P * 2 ^ (ez - Z.min ez F)) / 2 ^ (F - Z.min ez F)).
    { rewrite Z.min_l by lia. rewrite Z.sub_diag, Z.mul_1_r, HF.
      apply Z.div_le_lower_bound; [apply Z.pow_pos_nonneg; lia | lia]. }
    rewrite Pos.compare_cont_spec. simpl.
    destruct (Pos.compare_spec mx m3); try reflexivity. lia.
  - unfold k2 in *. lia.
Qed.


Lemma canonical_lt_pow (mx : positive) (ex : Z) :
  canonical_mantissa prec emax mx ex = true -> Zpos mx < 2 ^ prec.
Proof.
  unfold canonical_mantissa. intros Hc. apply Z.eqb_eq in Hc.
  pose proof (digits2_pos_bounds mx) as [_ H].
  eapply Z.lt_le_trans; [exact H | ].
  apply Z.pow_le_mono_r; [lia | ]. unfold SpecFloat.fexp in Hc. lia.
Qed.

Lemma canonical_normal_ge (mx : positive) (ex : Z) :
  canonical_mantissa prec emax mx ex = true -> emin < ex ->
  2 ^ (prec - 1) <= Zpos mx.
Proof.
  unfold canonical_mantissa. intros Hc He. apply Z.eqb_eq in Hc.
  pose proof (digits2_pos_bounds mx) as [H _].
  assert (Hd : Zpos (digits2_pos mx) = prec) by (unfold SpecFloat.fexp in Hc; lia).
  now rewrite Hd in H.
Qed.

(** Rounding a magnitude below that of a number of the format does
    not go above it; stated for the negative numbers. *)
Lemma binary_round_neg_ge (mx : positive) (ex : Z) (P : positive) (ez : Z) :
  bounded prec emax mx ex = true ->
  emin <= ez <= ex ->
  Zpos P < Zpos mx * 2 ^ (ex - ez) ->
  SFleb (S754_finite true mx ex) (binary_round prec emax true P ez) = true.
Proof.
  intros Hb He HP. unfold bounded in Hb. apply andb_prop in Hb.
  destruct Hb as [Hc Hbd]. apply Z.leb_le in Hbd.
  pose proof (canonical_lt_pow mx ex Hc) as Hmx.
  pose proof (canonical_normal_ge mx ex Hc) as Hnorm.
  unfold canonical_mantissa in Hc. apply Z.eqb_eq in Hc.
  pose proof (binary_round_result true P ez ltac:(lia)) as H. cbv zeta in H.
  set (F := fexp (Zpos (digits2_pos P) + ez)) in *.
  destruct H as [Hm1 [m2 [Hm2 [m3 [Hm3 ->]]]]].
  pose proof (second_shift m2 F (fexp_ge_emin _) ltac:(lia)) as Hk.
  cbv zeta in Hk.
  set (k2 := Z.max 0 (fexp (Zpos (digits2_pos m2) + F) - F)) in *.
  destruct Hk as [Hk0 Hk1].
  assert (HFx : F <= ex).
  { rewrite <- Hc. apply fexp_le.
    assert (Hq : exists q, Zpos q = Zpos mx * 2 ^ (ex - ez)).
    { assert (0 < Zpos mx * 2 ^ (ex - ez)).
      { apply Z.mul_pos_pos; [lia | apply Z.pow_pos_nonneg; lia]. }
      destruct (Zpos mx * 2 ^ (ex - ez)) as [ | q | q]; try lia. now exists q. }
    destruct Hq as [q Hq].
    pose proof (digits2_pos_shift mx q (ex - ez) ltac:(lia) Hq) as Hdq.
    pose proof (digits2_pos_le P q ltac:(lia)). lia. }
  assert (Hcases : (k2 = 0 /\ Zpos m3 = Zpos m2 /\ Zpos m2 < 2 ^ prec) \/
                   (k2 = 1 /\ Zpos m3 = 2 ^ (prec - 1))).
  { destruct (Z.eq_dec (Zpos m2) (2 ^ prec)) as [E | NE].
    - right. split; [now apply Hk1 | ].
      rewrite Hm3, (Hk1 E), E.
      replace prec with (prec - 1 + 1) at 1 by lia.
      rewrite Z.pow_add_r by lia. now rewrite Z.div_mul by (simpl; lia).
    - left. assert (Hlt : Zpos m2 < 2 ^ prec) by lia.
      split; [now apply Hk0 | ].
      split; [ | exact Hlt]. rewrite Hm3, (Hk0 Hlt). apply Z.div_1_r. }
  assert (Hsmall : F = ex -> Zpos m2 <= Zpos mx).
  { intros HF.
    assert ((Zpos P * 2 ^ (ez - Z.min ez F)) / 2 ^ (F - Z.min ez F) < Zpos mx); [ | lia].
    rewrite Z.min_l by lia. rewrite Z.sub_diag, Z.mul_1_r, HF.
    apply Z.div_lt_upper_bound; [apply Z.pow_pos_nonneg; lia | lia]. }
  assert (Hfin : F + k2 <= emax - prec).
  { destruct Hcases as [[-> _] | [-> _]]; [lia | ].
    destruct (Z.eq_dec F ex) as [HF | HF]; [ | lia].
    specialize (Hsmall HF).
    assert (Zpos m2 < 2 ^ prec) by lia. specialize (Hk0 H). lia. }
  apply Z.leb_le in Hfin. rewrite Hfin.
  unfold SFleb, SFcompare.
  destruct (Z.compare_spec ex (F + k2)) as [Heq | Hlt | Hgt]; try reflexivity.
  - rewrite Pos.compare_cont_spec. simpl.
    assert (Hle : Zpos m3 <= Zpos mx).
    { destruct Hcases as [[K0 [E3 _]] | [K1 E3]].
      + rewrite E3. apply Hsmall. lia.
      + rewrite E3. apply Hnorm.
        pose proof (fexp_ge_emin (Zpos (digits2_pos P) + ez)). fold F in H. lia. }
    destruct (Pos.compare_spec mx m3); simpl; try reflexivity. lia.
  - destruct Hcases as [[K0 _] | [K1 _]]; [lia | ].
    assert (HF : F = ex) by lia. specialize (Hsmall HF).
    assert (Hl : Zpos m2 < 2 ^ prec) by lia. specialize (Hk0 Hl). lia.
Qed.

(** Adding a positive number to a finite number of the format gives a
    result at or above it. *)
Lemma SFadd_ge_left (x y : spec_float) :
  valid_binary prec emax x = true -> is_finite x = true ->
  signed_nonzero emin false y ->
  SFleb x (SFadd prec emax x y) = true.
Proof.
  destruct x as [sx | sx | | sx mx ex]; try discriminate;
    destruct y as [sy | [ | ] | | [ | ] my ey]; simpl;
    try tauto; try (intros _ _ [E _]; discriminate); try discriminate.
  intros Hb _ [_ Hy].
  assert (Hcx : canonical_mantissa prec emax mx ex = true).
  { unfold bounded in Hb. now apply andb_prop in Hb. }
  assert (Hex : emin <= ex).
  { unfold canonical_mantissa in Hcx. apply Z.eqb_eq in Hcx.
    rewrite <- Hcx. apply fexp_ge_emin. }
  change (IntDef.Z.min ex ey) with (Z.min ex ey).
  pose proof (shl_align_spec mx ex (Z.min ex ey)) as [Hx _].
  pose proof (shl_align_spec my ey (Z.min ex ey)) as [Hy' _].
  replace (Z.min ex (Z.min ex ey)) with (Z.min ex ey) in Hx by lia.
  replace (Z.min ey (Z.min ex ey)) with (Z.min ex ey) in Hy' by lia.
  set (px := fst (shl_align mx ex (Z.min ex ey))) in *.
  set (py := fst (shl_align my ey (Z.min ex ey))) in *.
  destruct sx; unfold cond_Zopp.
  - destruct (- Zpos px + Zpos py) as [ | p | p] eqn:EM; simpl.
    + reflexivity.
    + pose proof (binary_round_nonzero false p (Z.min ex ey) ltac:(lia)) as Hn.
      destruct (binary_round prec emax false p (Z.min ex ey)) as [s | s | | s m e];
        simpl in Hn; try tauto.
      * now subst s.
      * destruct Hn as [-> _]. reflexivity.
    + apply binary_round_neg_ge; [exact Hb | lia | lia].
  - change (Zpos px + Zpos py) with (Zpos (px + py)). simpl.
    apply binary_round_ge; [exact Hcx | lia | lia].
Qed.


Lemma signed_nonzero_weaken (a a' : Z) (s : bool) (x : spec_float) :
  a' <= a -> signed_nonzero a s x -> signed_nonzero a' s x.
Proof.
  intros Ha. destruct x as [sx | sx | | sx mx ex]; simpl; try tauto.
  intros [E He]. split; [exact E | lia].
Qed.

(** The exponent of a rounded number is at least that of the format at
    its magnitude. *)
Lemma binary_round_exponent (s : bool) (P : positive) (ez : Z) :
  emin <= ez ->
  signed_nonzero (fexp (Zpos (digits2_pos P) + ez)) s (binary_round prec emax s P ez).
Proof.
  intros He.
  pose proof (binary_round_result s P ez He) as H. cbv zeta in H.
  destruct H as [_ [m2 [_ [m3 [_ ->]]]]].
  destruct (_ <=? _); simpl; [ | reflexivity].
  split; [reflexivity | lia].
Qed.

(** Below the largest exponent the rounded number is finite. *)
Lemma binary_round_finite (s : bool) (P : positive) (ez : Z) :
  emin <= ez -> fexp (Zpos (digits2_pos P) + ez) + 1 <= emax - prec ->
  is_finite (binary_round prec emax s P ez) = true.
Proof.
  intros He Hf.
  pose proof (binary_round_result s P ez He) as H. cbv zeta in H.
  set (F := fexp (Zpos (digits2_pos P) + ez)) in *.
  destruct H as [Hm1 [m2 [Hm2 [m3 [_ ->]]]]].
  pose proof (second_shift m2 F (fexp_ge_emin _) ltac:(lia)) as Hk. cbv zeta in Hk.
  set (k2 := Z.max 0 (fexp (Zpos (digits2_pos m2) + F) - F)) in *.
  assert (Hk2 : k2 <= 1).
  { destruct Hk as [Hk0 Hk1].
    destruct (Z.eq_dec (Zpos m2) (2 ^ prec)) as [E | NE];
      [rewrite (Hk1 E); lia | rewrite Hk0; lia]. }
  assert (Hle : (F + k2 <=? emax - prec) = true) by (apply Z.leb_le; lia).
  now rewrite Hle.
Qed.

(** A product whose exponents add up to the least exponent or more
    does not underflow to zero. *)
Lemma SFmul_nonzero (e1 e2 : Z) (s1 s2 : bool) (x y : spec_float) :
  signed_nonzero e1 s1 x -> signed_nonzero e2 s2 y -> emin <= e1 + e2 ->
  signed_nonzero emin (xorb s1 s2) (SFmul prec emax x y).
Proof.
  destruct x as [sx | sx | | sx mx ex], y as [sy | sy | | sy my ey];
    simpl; try tauto.
  - now intros -> ->.
  - now intros -> [-> _].
  - now intros [-> _] ->.
  - intros [-> Hx] [-> Hy] He.
    apply binary_round_aux_nonzero; lia.
Qed.

Lemma SFmul_not_nan_r (x y : spec_float) :
  is_nan x = false -> is_finite y = true -> SFeqb y (S754_zero false) = false ->
  is_nan (SFmul prec emax x y) = false.
Proof.
  destruct x as [sx | sx | | sx mx ex], y as [sy | sy | | sy my ey];
    try discriminate; intros _ _; unfold SFeqb; simpl; try reflexivity;
    try discriminate.
  intros _. apply binary_round_aux_not_nan. lia.
Qed.

Lemma SFadd_not_nan_l (x y : spec_float) :
  is_finite x = true -> is_nan y = false ->
  is_nan (SFadd prec emax x y) = false.
Proof.
  destruct x as [sx | sx | | sx mx ex], y as [sy | sy | | sy my ey];
    try discriminate; intros _ _; simpl; try reflexivity.
  - now destruct sx, sy.
  - apply binary_normalize_not_nan.
Qed.

(** A number that needs no right shift is rounded to itself, with the
    mantissa shifted left to the exponent of the format. *)
Lemma binary_round_exact (s : bool) (m : positive) (e : Z) :
  let F := fexp (Zpos (digits2_pos m) + e) in
  F <= e -> F <= emax - prec ->
  binary_round prec emax s m e = S754_finite s (fst (shl_align m e F)) F.
Proof.
  cbv zeta. intros HF Hb.
  set (F := fexp (Zpos (digits2_pos m) + e)) in *.
  unfold binary_round. fold F.
  pose proof (shl_align_spec m e F) as [Hmz Hez].
  rewrite Z.min_r in Hmz, Hez by lia.
  destruct (shl_align m e F) as [mz ez']. cbn [fst snd] in *. subst ez'.
  assert (Hdz : Zpos (digits2_pos mz) + F = Zpos (digits2_pos m) + e).
  { rewrite (digits2_pos_shift m mz (e - F)); [lia | lia | exact Hmz]. }
  unfold binary_round_aux, shr_fexp. simpl Zdigits2.
  rewrite Hdz. fold F. rewrite Z.sub_diag. simpl shr. cbn [shr_m].
  simpl round_nearest_even. simpl Zdigits2. rewrite Hdz. fold F.
  rewrite Z.sub_diag. simpl.
  apply Z.leb_le in Hb. now rewrite Hb.
Qed.

Lemma digits2_pos_gt_pow (a : positive) (k : Z) :
  2 ^ k <= Zpos a -> k < Zpos (digits2_pos a).
Proof.
  intros Ha. pose proof (digits2_pos_bounds a) as [_ H2].
  destruct (Z.lt_ge_cases k (Zpos (digits2_pos a))) as [Hlt | Hge]; [exact Hlt | ].
  assert (2 ^ Zpos (digits2_pos a) <= 2 ^ k) by (apply Z.pow_le_mono_r; lia).
  lia.
Qed.

(** Rounding a mantissa of [prec] digits or more, above the least
    exponent: the result keeps [prec] digits. *)
Lemma binary_round_aux_normal (s : bool) (m : positive) (e : Z) (l : location) :
  prec <= Zpos (digits2_pos m) ->
  emin <= Zpos (digits2_pos m) + e - prec ->
  match binary_round_aux prec emax s (Zpos m) e l with
  | S754_finite s' m3 e3 =>
    s' = s /\ 2 ^ (prec - 1) <= Zpos m3 /\ Zpos (digits2_pos m) + e - prec <= e3
  | S754_infinity s' => s' = s
  | _ => False
  end.
Proof.
  intros Hd He. unfold binary_round_aux.
  pose proof (shr_fexp_spec m e l) as [Hs1 Hs2]. cbv zeta in Hs1, Hs2.
  pose proof (digits2_pos_bounds m) as [Lm Um].
  set (d := Zpos (digits2_pos m)) in *.
  assert (HF : fexp (d + e) = d + e - prec) by (unfold SpecFloat.fexp; lia).
  rewrite HF in Hs1, Hs2.
  replace (Z.max 0 (d + e - prec - e)) with (d - prec) in Hs1, Hs2 by lia.
  destruct (shr_fexp prec emax (Zpos m) e l) as [mrs' e']. cbn [fst snd] in Hs1, Hs2.
  subst e'.
  assert (Hp : 2 ^ (d - 1) = 2 ^ (prec - 1) * 2 ^ (d - prec)).
  { rewrite <- Z.pow_add_r by lia. f_equal. lia. }
  assert (Hq : 2 ^ d = 2 ^ prec * 2 ^ (d - prec)).
  { rewrite <- Z.pow_add_r by lia. f_equal. lia. }
  assert (H0 : 0 < 2 ^ (d - prec)) by (apply Z.pow_pos_nonneg; lia).
  assert (H1 : 2 ^ (prec - 1) <= shr_m mrs').
  { rewrite Hs1. apply Z.div_le_lower_bound; [exact H0 | ]. rewrite Z.mul_comm. lia. }
  assert (H2 : shr_m mrs' < 2 ^ prec).
  { rewrite Hs1. apply Z.div_lt_upper_bound; [exact H0 | ]. rewrite Z.mul_comm. lia. }
  assert (Hpp : 0 < 2 ^ (prec - 1)) by (apply Z.pow_pos_nonneg; lia).
  pose proof (round_nearest_even_ge (shr_m mrs') (loc_of_shr_record mrs')) as Hr1.
  pose proof (round_nearest_even_le (shr_m mrs') (loc_of_shr_record mrs')) as Hr2.
  destruct (round_nearest_even (shr_m mrs') (loc_of_shr_record mrs')) as [ | m2 | m2] eqn:Er;
    try lia.
  pose proof (shr_fexp_spec m2 (e + (d - prec)) loc_Exact) as [Ht1 Ht2].
  cbv zeta in Ht1, Ht2.
  pose proof (second_shift m2 (e + (d - prec)) ltac:(lia) ltac:(lia)) as [Hk0 Hk1].
  cbv zeta in Hk0, Hk1.
  set (k2 := Z.max 0 (fexp (Zpos (digits2_pos m2) + (e + (d - prec))) - (e + (d - prec)))) in *.
  destruct (shr_fexp prec emax (Zpos m2) (e + (d - prec)) loc_Exact) as [mrs'' e''].
  cbn [fst snd] in Ht1, Ht2. subst e''.
  assert (H3 : 2 ^ (prec - 1) <= shr_m mrs'' /\ 0 <= k2).
  { destruct (Z.eq_dec (Zpos m2) (2 ^ prec)) as [E | NE].
    - rewrite Ht1, (Hk1 E), E. split; [ | lia].
      replace prec with (prec - 1 + 1) at 2 by lia.
      rewrite Z.pow_add_r by lia. rewrite Z.div_mul by (simpl; lia). lia.
    - rewrite Ht1, Hk0 by lia. rewrite Z.div_1_r. lia. }
  destruct H3 as [H3 Hk2].
  destruct (shr_m mrs'') as [ | m3 | m3]; try lia.
  destruct (_ <=? _); [ | reflexivity].
  split; [reflexivity | split; [exact H3 | lia]].
Qed.

(** Rounding in the range of the normal numbers gives a mantissa of
    [prec] digits. *)
Lemma binary_round_normal (s : bool) (P : positive) (ez : Z) :
  emin <= Zpos (digits2_pos P) + ez - prec ->
  match binary_round prec emax s P ez with
  | S754_finite s' m3 e3 =>
    s' = s /\ 2 ^ (prec - 1) <= Zpos m3 /\ Zpos (digits2_pos P) + ez - prec <= e3
  | S754_infinity s' => s' = s
  | _ => False
  end.
Proof.
  intros He. unfold binary_round.
  set (F := fexp (Zpos (digits2_pos P) + ez)).
  assert (HF : F = Zpos (digits2_pos P) + ez - prec) by (unfold F, SpecFloat.fexp; lia).
  pose proof (shl_align_spec P ez F) as [Hmz Hez].
  destruct (shl_align P ez F) as [mz ez']. cbn [fst snd] in Hmz, Hez. subst ez'.
  assert (Hdz : Zpos (digits2_pos mz) + Z.min ez F = Zpos (digits2_pos P) + ez).
  { rewrite (digits2_pos_shift P mz (ez - Z.min ez F)); [lia | lia | exact Hmz]. }
  pose proof (binary_round_aux_normal s mz (Z.min ez F) loc_Exact ltac:(lia) ltac:(lia)) as H.
  destruct (binary_round_aux prec emax s (Zpos mz) (Z.min ez F) loc_Exact)
    as [s' | s' | | s' m3 e3]; try exact H.
  destruct H as [H1 [H2 H3]]. split; [exact H1 | split; [exact H2 | lia]].
Qed.

(** Rounding goes above a number of the format when the exact value is
    above it by a unit in its last place or more. *)
Lemma binary_round_gt (mx : positive) (ex : Z) (P : positive) (ez : Z) :
  canonical_mantissa prec emax mx ex = true ->
  emin <= ez <= ex ->
  Zpos mx * 2 ^ (ex - ez) + 2 ^ (ex - ez) <= Zpos P ->
  SFltb (S754_finite false mx ex) (binary_round prec emax false P ez) = true.
Proof.
  intros Hc He HP. unfold canonical_mantissa in Hc. apply Z.eqb_eq in Hc.
  assert (H2e : 0 < 2 ^ (ex - ez)) by (apply Z.pow_pos_nonneg; lia).
  pose proof (binary_round_result false P ez ltac:(lia)) as H. cbv zeta in H.
  set (F := fexp (Zpos (digits2_pos P) + ez)) in *.
  destruct H as [Hm1 [m2 [Hm2 [m3 [Hm3 ->]]]]].
  set (k2 := Z.max 0 (fexp (Zpos (digits2_pos m2) + F) - F)) in *.
  assert (HFx : ex <= F).
  { rewrite <- Hc. apply fexp_le.
    assert (Hq : exists q, Zpos q = Zpos mx * 2 ^ (ex - ez)).
    { assert (0 < Zpos mx * 2 ^ (ex - ez)) by (apply Z.mul_pos_pos; lia).
      destruct (Zpos mx * 2 ^ (ex - ez)) as [ | q | q]; try lia. now exists q. }
    destruct Hq as [q Hq].
    pose proof (digits2_pos_shift mx q (ex - ez) ltac:(lia) Hq) as Hdq.
    pose proof (digits2_pos_le q P ltac:(lia)). lia. }
  destruct (F + k2 <=? emax - prec); [ | reflexivity].
  unfold SFltb, SFcompare.
  destruct (Z.compare_spec ex (F + k2)) as [Heq | Hlt | Hgt]; try reflexivity.
  - assert (Hk0 : k2 = 0) by (unfold k2 in *; lia).
    assert (HF : F = ex) by lia.
    rewrite Hk0, Z.div_1_r in Hm3.
    assert (Hmx : Zpos mx + 1 <= (Zpos P * 2 ^ (ez - Z.min ez F)) / 2 ^ (F - Z.min ez F)).
    { rewrite Z.min_l by lia. rewrite Z.sub_diag, Z.mul_1_r, HF.
      apply Z.div_le_lower_bound; [exact H2e | lia]. }
    rewrite Pos.compare_cont_spec. simpl.
    destruct (Pos.compare_spec mx m3); try reflexivity; lia.
  - unfold k2 in *. lia.
Qed.

(** Rounding a magnitude that is two units in the last place or more
    below that of a number of the format stays below it; stated for the
    negative numbers. *)
Lemma binary_round_neg_gt (mx : positive) (ex : Z) (P : positive) (ez : Z) :
  bounded prec emax mx ex = true ->
  emin <= ez <= ex ->
  Zpos P + 2 * 2 ^ (ex - ez) <= Zpos mx * 2 ^ (ex - ez) ->
  SFltb (S754_finite true mx ex) (binary_round prec emax true P ez) = true.
Proof.
  intros Hb He HP. unfold bounded in Hb. apply andb_prop in Hb.
  destruct Hb as [Hc Hbd]. apply Z.leb_le in Hbd.
  assert (H2e : 0 < 2 ^ (ex - ez)) by (apply Z.pow_pos_nonneg; lia).
  pose proof (canonical_lt_pow mx ex Hc) as Hmx.
  unfold canonical_mantissa in Hc. apply Z.eqb_eq in Hc.
  pose proof (binary_round_result true P ez ltac:(lia)) as H. cbv zeta in H.
  set (F := fexp (Zpos (digits2_pos P) + ez)) in *.
  destruct H as [Hm1 [m2 [Hm2 [m3 [Hm3 ->]]]]].
  pose proof (second_shift m2 F (fexp_ge_emin _) ltac:(lia)) as Hk.
  cbv zeta in Hk.
  set (k2 := Z.max 0 (fexp (Zpos (digits2_pos m2) + F) - F)) in *.
  destruct Hk as [Hk0 Hk1].
  assert (HFx : F <= ex).
  { rewrite <- Hc. apply fexp_le.
    assert (Hq : exists q, Zpos q = Zpos mx * 2 ^ (ex - ez)).
    { assert (0 < Zpos mx * 2 ^ (ex - ez)) by (apply Z.mul_pos_pos; lia).
      destruct (Zpos mx * 2 ^ (ex - ez)) as [ | q | q]; try lia. now exists q. }
    destruct Hq as [q Hq].
    pose proof (digits2_pos_shift mx q (ex - ez) ltac:(lia) Hq) as Hdq.
    pose proof (digits2_pos_le P q ltac:(lia)). lia. }
  assert (HFe : emin <= F) by apply fexp_ge_emin.
  (* the mantissa before rounding, in units of 2 ^ F *)
  assert (Hunits : ((Zpos P * 2 ^ (ez - Z.min ez F)) / 2 ^ (F - Z.min ez F))
                     * 2 ^ (F - Z.min ez F)
                   <= Zpos P * 2 ^ (ez - Z.min ez F)).
  { rewrite Z.mul_comm. apply Z.mul_div_le. apply Z.pow_pos_nonneg; lia. }
  set (m1 := (Zpos P * 2 ^ (ez - Z.min ez F)) / 2 ^ (F - Z.min ez F)) in *.
  (* m1 * 2 ^ F <= P * 2 ^ ez <= (mx - 2) * 2 ^ ex, hence: *)
  assert (Hm1x : m1 <= (Zpos mx - 2) * 2 ^ (ex - F)).
  { assert (Hs : ex - ez = (ex - F) + (F - Z.min ez F) - (ez - Z.min ez F)) by lia.
    assert (Ha : 0 < 2 ^ (F - Z.min ez F)) by (apply Z.pow_pos_nonneg; lia).
    assert (Hb : 0 < 2 ^ (ez - Z.min ez F)) by (apply Z.pow_pos_nonneg; lia).
    assert (Hc' : 2 ^ (ex - ez) * 2 ^ (ez - Z.min ez F)
                  = 2 ^ (ex - F) * 2 ^ (F - Z.min ez F)).
    { rewrite <- !Z.pow_add_r by lia. f_equal. lia. }
    assert (Hd : Zpos P * 2 ^ (ez - Z.min ez F)
                 <= (Zpos mx - 2) * 2 ^ (ex - F) * 2 ^ (F - Z.min ez F)).
    { rewrite <- Z.mul_assoc, <- Hc', Z.mul_assoc.
      apply Z.mul_le_mono_nonneg_r; [lia | ]. lia. }
    apply Z.mul_le_mono_pos_r with (p := 2 ^ (F - Z.min ez F)); [exact Ha | ]. lia. }
  assert (Hcases : (k2 = 0 /\ Zpos m3 = Zpos m2 /\ Zpos m2 < 2 ^ prec) \/
                   (k2 = 1 /\ Zpos m3 = 2 ^ (prec - 1) /\ Zpos m2 = 2 ^ prec)).
  { destruct (Z.eq_dec (Zpos m2) (2 ^ prec)) as [E | NE].
    - right. split; [now apply Hk1 | ]. split; [ | exact E].
      rewrite Hm3, (Hk1 E), E.
      replace prec with (prec - 1 + 1) at 1 by lia.
      rewrite Z.pow_add_r by lia. now rewrite Z.div_mul by (simpl; lia).
    - left. assert (Hlt : Zpos m2 < 2 ^ prec) by lia.
      split; [now apply Hk0 | ].
      split; [ | exact Hlt]. rewrite Hm3, (Hk0 Hlt). apply Z.div_1_r. }
  assert (Hpow : 2 ^ prec = 2 * 2 ^ (prec - 1)).
  { replace prec with (prec - 1 + 1) at 1 by lia.
    rewrite Z.pow_add_r by lia. simpl (2 ^ 1). lia. }
  destruct (Z.eq_dec F ex) as [HF | HF].
  - (* same exponent: the mantissa is smaller *)
    rewrite HF, Z.sub_diag, Z.mul_1_r in Hm1x.
    destruct Hcases as [[K0 [E3 _]] | [K1 [_ E2]]]; [ | lia].
    rewrite K0, Z.add_0_r, HF.
    assert (Hfin : (ex <=? emax - prec) = true) by now apply Z.leb_le.
    rewrite Hfin. unfold SFltb, SFcompare.
    rewrite Z.compare_refl, Pos.compare_cont_spec. simpl.
    destruct (Pos.compare_spec mx m3); simpl; try reflexivity; lia.
  - destruct Hcases as [[K0 _] | [K1 [E3 E2]]].
    + rewrite K0, Z.add_0_r.
      assert (Hfin : (F <=? emax - prec) = true) by (apply Z.leb_le; lia).
      rewrite Hfin. unfold SFltb, SFcompare.
      destruct (Z.compare_spec ex F); try reflexivity; lia.
    + rewrite K1.
      assert (Hfin : (F + 1 <=? emax - prec) = true) by (apply Z.leb_le; lia).
      rewrite Hfin. unfold SFltb, SFcompare.
      destruct (Z.compare_spec ex (F + 1)) as [Heq | Hlt | Hgt]; try reflexivity; [ | lia].
      (* one exponent below: 2 ^ prec - 1 <= m1 <= 2 * (mx - 2) *)
      replace (ex - F) with 1 in Hm1x by lia. simpl (2 ^ 1) in Hm1x.
      rewrite Pos.compare_cont_spec. simpl.
      destruct (Pos.compare_spec mx m3); simpl; try reflexivity; lia.
Qed.

(** Adding a positive number of two units in the last place of [x] or
    more gives a result strictly above [x]. *)
Lemma SFadd_gt_left (x y : spec_float) (k : Z) :
  valid_binary prec emax x = true -> is_finite x = true ->
  normal_above prec k y -> emin <= k ->
  match x with S754_finite _ _ ex => ex + 2 - prec <= k | _ => True end ->
  SFltb x (SFadd prec emax x y) = true.
Proof.
  intros Hb Hf Hn Hk Hex.
  destruct x as [sx | sx | | sx mx ex]; try discriminate Hf;
    destruct y as [sy | [ | ] | | [ | ] my ey]; try (now destruct Hn).
  destruct Hn as [Hmy Hy]. simpl in Hb. simpl.
  assert (Hcx : canonical_mantissa prec emax mx ex = true).
  { unfold bounded in Hb. now apply andb_prop in Hb. }
  assert (Hexm : emin <= ex).
  { unfold canonical_mantissa in Hcx. apply Z.eqb_eq in Hcx.
    rewrite <- Hcx. apply fexp_ge_emin. }
  change (IntDef.Z.min ex ey) with (Z.min ex ey).
  pose proof (shl_align_spec mx ex (Z.min ex ey)) as [Hx _].
  pose proof (shl_align_spec my ey (Z.min ex ey)) as [Hy' _].
  replace (Z.min ex (Z.min ex ey)) with (Z.min ex ey) in Hx by lia.
  replace (Z.min ey (Z.min ex ey)) with (Z.min ex ey) in Hy' by lia.
  set (ez := Z.min ex ey) in *.
  set (px := fst (shl_align mx ex ez)) in *.
  set (py := fst (shl_align my ey ez)) in *.
  assert (H2e : 0 < 2 ^ (ex - ez)) by (apply Z.pow_pos_nonneg; unfold ez; lia).
  (* the addend is two units in the last place of x or more *)
  assert (Hpy : 2 * 2 ^ (ex - ez) <= Zpos py).
  { rewrite Hy'.
    assert (H1 : 2 ^ (prec - 1) * 2 ^ (ey - ez) <= Zpos my * 2 ^ (ey - ez)).
    { apply Z.mul_le_mono_nonneg_r; [apply Z.pow_nonneg; lia | exact Hmy]. }
    rewrite <- Z.pow_add_r in H1 by (unfold ez; lia).
    assert (H2 : 2 ^ (ex - ez + 1) <= 2 ^ (prec - 1 + (ey - ez))).
    { apply Z.pow_le_mono_r; unfold ez; lia. }
    rewrite Z.pow_add_r in H2 by (unfold ez; lia). simpl (2 ^ 1) in H2. lia. }
  destruct sx; unfold cond_Zopp.
  + destruct (- Zpos px + Zpos py) as [ | p | p] eqn:EM; simpl.
    * reflexivity.
    * pose proof (binary_round_nonzero false p ez ltac:(unfold ez; lia)) as Hn.
      destruct (binary_round prec emax false p ez) as [s | s | | s m e];
        simpl in Hn; try tauto.
      -- now subst s.
      -- destruct Hn as [-> _]. reflexivity.
    * apply binary_round_neg_gt; [exact Hb | unfold ez; lia | lia].
  + change (Zpos px + Zpos py) with (Zpos (px + py)). simpl.
    apply binary_round_gt; [exact Hcx | unfold ez; lia | ].
    rewrite Pos2Z.inj_add. lia.
Qed.

Lemma normal_above_signed_nonzero (k : Z) (x : spec_float) :
  normal_above prec k x -> signed_nonzero k false x.
Proof.
  destruct x as [s | [ | ] | | [ | ] m e]; simpl; try tauto; try reflexivity.
Qed.

(** The product of two such numbers is one again. *)
Lemma SFmul_normal (x y : spec_float) (kx ky : Z) :
  normal_above prec kx x -> normal_above prec ky y ->
  emin <= prec - 1 + kx + ky ->
  normal_above prec (prec - 1 + kx + ky) (SFmul prec emax x y).
Proof.
  intros Hx Hy Hk.
  destruct x as [sx | [ | ] | | [ | ] mx ex]; try (now destruct Hx);
    destruct y as [sy | [ | ] | | [ | ] my ey]; try (now destruct Hy);
    try exact I.
  destruct Hx as [Hmx Hex], Hy as [Hmy Hey]. simpl SFmul.
  assert (Hp : 2 ^ (prec - 1 + (prec - 1)) <= Zpos (mx * my)).
  { rewrite Z.pow_add_r, Pos2Z.inj_mul by lia.
    apply Z.mul_le_mono_nonneg; try assumption; apply Z.pow_nonneg; lia. }
  pose proof (digits2_pos_gt_pow (mx * my) _ Hp) as Hd.
  assert (Hd1 : prec <= Zpos (digits2_pos (mx * my))) by lia.
  assert (Hd2 : emin <= Zpos (digits2_pos (mx * my)) + (ex + ey) - prec) by lia.
  pose proof (binary_round_aux_normal false (mx * my) (ex + ey) loc_Exact Hd1 Hd2) as H.
  destruct (binary_round_aux prec emax false (Zpos (mx * my)) (ex + ey) loc_Exact)
    as [s | s | | s m e]; try (now destruct H).
  - now subst s.
  - destruct H as [-> [H1 H2]]. split; [exact H1 | lia].
Qed.

End Rounding.

(* ================================================================== *)
(** * Binary32 instances *)
(* ================================================================== *)

Lemma F32_add_not_nan (x y : float) :
  is_finite x = true -> is_finite y = true -> is_nan (F32.add x y) = false.
Proof. apply SFadd_not_nan. Qed.

Lemma F32_mul_not_nan (x y : float) :
  is_finite x = true -> is_finite y = true -> is_nan (F32.mul x y) = false.
Proof. apply SFmul_not_nan. Qed.

Lemma F32_div_not_nan (x y : float) :
  is_nan x = false -> is_finite y = true -> SFeqb y F32.zero = false ->
  is_nan (F32.div x y) = false.
Proof. apply SFdiv_not_nan. Qed.

(* ================================================================== *)
(** * Promotion to double *)
(* ================================================================== *)

Lemma bounded32_facts (m : positive) (e : Z) :
  bounded F32.prec F32.emax m e = true ->
  Z.max (Zpos (digits2_pos m) + e - 24) (-149) = e /\ e <= 104.
Proof.
  unfold bounded, canonical_mantissa. intros H. apply andb_prop in H.
  destruct H as [H1 H2]. apply Z.eqb_eq in H1. apply Z.leb_le in H2.
  split; [exact H1 | exact H2].
Qed.

(** The promotion of a finite float: the same number with a 53-bit
    mantissa. *)
Lemma of_float_finite (s : bool) (m : positive) (e : Z) :
  bounded F32.prec F32.emax m e = true ->
  let F := Zpos (digits2_pos m) + e - 53 in
  F64.of_float (S754_finite s m e) = S754_finite s (fst (shl_align m e F)) F.
Proof.
  intros Hb. cbv zeta. apply bounded32_facts in Hb. destruct Hb as [Hc He].
  assert (HF : SpecFloat.fexp F64.prec F64.emax (Zpos (digits2_pos m) + e)
               = Zpos (digits2_pos m) + e - 53).
  { unfold SpecFloat.fexp, SpecFloat.emin, F64.prec, F64.emax. lia. }
  unfold F64.of_float.
  destruct s; simpl cond_Zopp; unfold binary_normalize;
    rewrite (binary_round_exact F64.prec F64.emax); rewrite ?HF;
    try reflexivity; unfold F64.prec, F64.emax; lia.
Qed.

Lemma widen_compare (m1 m2 : positive) (e1 e2 : Z) :
  bounded F32.prec F32.emax m1 e1 = true ->
  bounded F32.prec F32.emax m2 e2 = true ->
  let F1 := Zpos (digits2_pos m1) + e1 - 53 in
  let F2 := Zpos (digits2_pos m2) + e2 - 53 in
  match F1 ?= F2 with
  | Lt => Lt
  | Gt => Gt
  | Eq => Pos.compare_cont Eq (fst (shl_align m1 e1 F1)) (fst (shl_align m2 e2 F2))
  end =
  match e1 ?= e2 with
  | Lt => Lt
  | Gt => Gt
  | Eq => Pos.compare_cont Eq m1 m2
  end.
Proof.
  intros H1 H2. cbv zeta.
  apply bounded32_facts in H1, H2. destruct H1 as [C1 B1], H2 as [C2 B2].
  pose proof (digits2_pos_bounds m1) as [L1 U1].
  pose proof (digits2_pos_bounds m2) as [L2 U2].
  set (d1 := Zpos (digits2_pos m1)) in *.
  set (d2 := Zpos (digits2_pos m2)) in *.
  assert (Hd1 : 0 < d1) by (unfold d1; lia).
  assert (Hd2 : 0 < d2) by (unfold d2; lia).
  pose proof (shl_align_spec m1 e1 (d1 + e1 - 53)) as [S1 _].
  pose proof (shl_align_spec m2 e2 (d2 + e2 - 53)) as [S2 _].
  rewrite Z.min_r in S1, S2 by lia.
  replace (e1 - (d1 + e1 - 53)) with (53 - d1) in S1 by lia.
  replace (e2 - (d2 + e2 - 53)) with (53 - d2) in S2 by lia.
  change (Pos.compare_cont Eq) with Pos.compare.
  rewrite !Pos2Z.inj_compare, S1, S2.
  destruct (Z.compare_spec e1 e2) as [Ee | Ee | Ee].
  - subst e2.
    destruct (Z.compare_spec d1 d2) as [Ed | Ed | Ed].
    + replace (d1 + e1 - 53 ?= d2 + e1 - 53) with Eq by (symmetry; apply Z.compare_eq_iff; lia).
      rewrite Ed. symmetry. apply Zmult_compare_compat_r.
      apply Z.lt_gt. apply Z.pow_pos_nonneg; lia.
    + replace (d1 + e1 - 53 ?= d2 + e1 - 53) with Lt by (symmetry; apply Z.compare_lt_iff; lia).
      symmetry. apply Z.compare_lt_iff.
      assert (2 ^ d1 <= 2 ^ (d2 - 1)) by (apply Z.pow_le_mono_r; lia). lia.
    + replace (d1 + e1 - 53 ?= d2 + e1 - 53) with Gt by (symmetry; apply Z.compare_gt_iff; lia).
      symmetry. apply Z.compare_gt_iff.
      assert (2 ^ d2 <= 2 ^ (d1 - 1)) by (apply Z.pow_le_mono_r; lia). lia.
  - replace (d1 + e1 - 53 ?= d2 + e2 - 53) with Lt by (symmetry; apply Z.compare_lt_iff; lia).
    reflexivity.
  - replace (d1 + e1 - 53 ?= d2 + e2 - 53) with Gt by (symmetry; apply Z.compare_gt_iff; lia).
    reflexivity.
Qed.

(** Promotion to double keeps the order of floats. *)
Lemma of_float_compare (x y : float) :
  F32.valid x = true -> F32.valid y = true ->
  SFcompare (F64.of_float x) (F64.of_float y) = SFcompare x y.
Proof.
  destruct x as [sx | sx | | sx mx ex], y as [sy | sy | | sy my ey];
    try reflexivity; unfold F32.valid, valid_binary; intros Hx Hy;
    rewrite ?of_float_finite by assumption; try reflexivity.
  pose proof (widen_compare mx my ex ey Hx Hy) as H. cbv zeta in H.
  unfold SFcompare. destruct sx, sy; try reflexivity.
  - f_equal. revert H.
    generalize (Zpos (digits2_pos mx) + ex - 53 ?= Zpos (digits2_pos my) + ey - 53).
    generalize (Pos.compare_cont Eq
                  (fst (shl_align mx ex (Zpos (digits2_pos mx) + ex - 53)))
                  (fst (shl_align my ey (Zpos (digits2_pos my) + ey - 53)))).
    generalize (ex ?= ey). generalize (Pos.compare_cont Eq mx my).
    intros [ | | ] [ | | ] [ | | ] [ | | ]; simpl; congruence.
  - f_equal. exact H.
Qed.

Lemma of_float_abs (x : float) :
  F32.valid x = true -> SFabs (F64.of_float x) = F64.of_float (SFabs x).
Proof.
  destruct x as [s | s | | s m e]; try reflexivity.
  unfold F32.valid, valid_binary. intros H.
  simpl SFabs at 2. now rewrite !of_float_finite by assumption.
Qed.

(** The test [fabs(x) > y] on floats, computed in double, is the
    comparison of the floats themselves. *)
Lemma fabs_gt_float (x y : float) :
  F32.valid x = true -> F32.valid y = true ->
  fabs_gt x y = F32.gt (SFabs x) y.
Proof.
  intros Hx Hy. unfold fabs_gt, F64.gt, F64.fabs, F32.gt, SFltb.
  rewrite of_float_abs by exact Hx.
  rewrite of_float_compare; [reflexivity | exact Hy | ].
  now destruct x.
Qed.

(* ================================================================== *)
(** * The module data fields each stage writes *)
(* ================================================================== *)

Lemma get_set_same {A} (v : arr3 A) (i : axis) (x : A) : (set v i x).[i] = x.
Proof. now destruct i. Qed.

Lemma get_set_other {A} (v : arr3 A) (i j : axis) (x : A) :
  i <> j -> (set v i x).[j] = v.[j].
Proof. destruct i, j; simpl; congruence. Qed.

Lemma filter_attitude_inputs b dT i attitude csd :
  inputs (snd (filter_attitude b dT i attitude csd)) = inputs csd.
Proof. reflexivity. Qed.

Lemma applyFeedForward_inputs b i dT attitude csd a' csd' :
  applyFeedForward b i dT attitude csd = Some (a', csd') ->
  inputs csd' = inputs csd.
Proof.
  unfold applyFeedForward.
  destruct (gimbalTypeCorrection b i); [ | discriminate].
  destruct (ff_accumulate _ _ _ _ _ _ _ _) as [att acc].
  intros H. inversion H. reflexivity.
Qed.

Lemma feed_forward_inputs b dT i attitude csd a' csd' :
  feed_forward b dT i attitude csd = Some (a', csd') ->
  inputs csd' = inputs csd.
Proof.
  unfold feed_forward. destruct (nonzero _).
  - apply applyFeedForward_inputs.
  - intros H. now inversion H.
Qed.

(** The stages after [process_input] leave [inputs] alone. *)
Lemma process_axis_inputs b dT i csd csd' out :
  process_axis b dT i csd = Some (csd', out) ->
  exists csd1, process_input b dT i csd = Some csd1 /\ inputs csd' = inputs csd1.
Proof.
  unfold process_axis.
  destruct (process_input b dT i csd) as [csd1 | ]; [ | discriminate].
  intros H. exists csd1. split; [reflexivity | ].
  destruct (filter_attitude b dT i _ csd1) as [a1 csd2] eqn:Ef.
  assert (E2 : inputs csd2 = inputs csd1).
  { change csd2 with (snd (a1, csd2)). rewrite <- Ef. apply filter_attitude_inputs. }
  destruct (feed_forward b dT i a1 csd2) as [[a2 csd3] | ] eqn:Eff; [ | discriminate].
  apply feed_forward_inputs in Eff.
  injection H as <- _. congruence.
Qed.

(** [process_input] for axis [i] writes no element of [inputs] but the
    [i]-th. *)
Lemma process_input_other b dT i j csd csd1 :
  process_input b dT i csd = Some csd1 -> i <> j ->
  (inputs csd1).[j] = (inputs csd).[j].
Proof.
  unfold process_input. intros H Hij.
  destruct ((Input (cameraStab b)).[i]); [ | now injection H as <-].
  destruct (accessoryVal b instId); [ | now injection H as <-].
  destruct ((StabilizationMode (cameraStab b)).[i]); [ | | discriminate].
  - injection H as <-. simpl. now apply get_set_other.
  - destruct (fabs_gt _ _); injection H as <-; [ | reflexivity].
    simpl. now apply get_set_other.
Qed.

Lemma process_input_unavailable b dT i csd :
  trim_unavailable b i -> process_input b dT i csd = Some csd.
Proof.
  unfold trim_unavailable, process_input.
  destruct ((Input (cameraStab b)).[i]); [ | reflexivity].
  now intros ->.
Qed.

Lemma axis_eq_dec (i j : axis) : {i = j} + {i <> j}.
Proof. decide equality. Qed.

Lemma process_axes_hold b dT i axes :
  trim_unavailable b i ->
  forall csd done o,
    process_axes b dT axes csd done = Some o ->
    (inputs (data o)).[i] = (inputs csd).[i].
Proof.
  intros Hu. induction axes as [ | j rest IH]; intros csd done o H; simpl in H.
  - now inversion H.
  - destruct (process_axis b dT j csd) as [[csd' out] | ] eqn:Ej; [ | discriminate].
    apply IH in H. rewrite H.
    apply process_axis_inputs in Ej. destruct Ej as [csd1 [E1 E2]].
    rewrite E2.
    destruct (axis_eq_dec j i) as [-> | Hne].
    + rewrite process_input_unavailable in E1 by exact Hu. now inversion E1.
    + now apply (process_input_other b dT j i csd csd1).
Qed.

(** C8: on an invocation where the input source of an axis is None, or
    the lookup of its accessory channel fails, reading the input halts
    nothing and changes nothing, and the trim value of that axis after
    the invocation is its value before. *)
Theorem trim_held_when_unavailable (b : bus) (i : axis) :
  trim_unavailable b i ->
  (forall dT csd, process_input b dT i csd = Some csd) /\
  (forall csd o, attitudeUpdated b csd = Some o ->
                 (inputs (data o)).[i] = (inputs csd).[i]).
Proof.
  intros Hu. split.
  - intros dT csd. now apply process_input_unavailable.
  - intros csd o. unfold attitudeUpdated.
    destruct (negb (ev_is_attitude b)).
    + intros H. now inversion H.
    + intros H. now apply (process_axes_hold b _ i _ Hu) in H.
Qed.

(* ================================================================== *)
(** * The time delta *)
(* ================================================================== *)

Lemma F32_emin : emin F32.prec F32.emax = -149.
Proof. reflexivity. Qed.

Lemma of_Z_exponent (n : Z) : 0 < n -> signed_nonzero (-23) false (F32.of_Z n).
Proof.
  intros Hn. destruct n as [ | p | p]; try lia.
  unfold F32.of_Z, binary_normalize.
  eapply signed_nonzero_weaken;
    [ | apply (binary_round_exponent F32.prec F32.emax eq_refl false p 0);
        rewrite F32_emin; lia].
  unfold fexp, F32.prec. lia.
Qed.

Lemma of_Z_finite (n : Z) : 0 < n < 2 ^ 32 -> is_finite (F32.of_Z n) = true.
Proof.
  intros Hn. destruct n as [ | p | p]; try lia.
  unfold F32.of_Z, binary_normalize.
  apply (binary_round_finite F32.prec F32.emax eq_refl); [rewrite F32_emin; lia | ].
  pose proof (digits2_pos_lt_pow p 32 ltac:(lia) ltac:(lia)) as Hd.
  unfold fexp, emin, F32.prec, F32.emax. lia.
Qed.

Lemma elapsed_ms_cases (now last : Z) :
  0 <= now < 2 ^ 32 -> 0 <= last < 2 ^ 32 ->
  elapsed_ms now last =
    if (last <? now)%Z then F32.of_Z (now - last) else F32.of_Z 10.
Proof.
  intros Hn Hl. unfold elapsed_ms, portTICK_RATE_MS, portTickType_modulus, SAMPLE_PERIOD_MS.
  rewrite Z.gtb_ltb.
  destruct (last <? now)%Z eqn:E; [ | reflexivity].
  apply Z.ltb_lt in E. rewrite Z.mul_1_r, Z.mod_small by lia. reflexivity.
Qed.

Lemma elapsed_ms_exponent (now last : Z) :
  0 <= now < 2 ^ 32 -> 0 <= last < 2 ^ 32 ->
  signed_nonzero (-23) false (elapsed_ms now last).
Proof.
  intros Hn Hl. rewrite elapsed_ms_cases by assumption.
  destruct (last <? now)%Z eqn:E.
  - apply Z.ltb_lt in E. apply of_Z_exponent. lia.
  - apply of_Z_exponent. lia.
Qed.

Lemma elapsed_ms_finite (now last : Z) :
  0 <= now < 2 ^ 32 -> 0 <= last < 2 ^ 32 ->
  is_finite (elapsed_ms now last) = true.
Proof.
  intros Hn Hl. rewrite elapsed_ms_cases by assumption.
  destruct (last <? now)%Z eqn:E.
  - apply Z.ltb_lt in E. apply of_Z_finite. lia.
  - reflexivity.
Qed.

(** C7: the time delta is the tick difference converted to float when
    the clock has advanced and the nominal 10 ms otherwise, also when
    the clock reads the stored value again; it is finite and strictly
    positive, and so is never a zero divisor in the feed-forward decay;
    the divisor [rt + dT] of the low-pass filter is strictly positive
    for every response time [rt >= 0]. *)
Theorem elapsed_ms_positive (now last : Z) :
  0 <= now < 2 ^ 32 -> 0 <= last < 2 ^ 32 ->
  elapsed_ms now last =
    (if (last <? now)%Z then F32.of_Z (now - last) else F32.of_Z 10) /\
  elapsed_ms now now = F32.of_Z 10 /\
  is_finite (elapsed_ms now last) = true /\
  F32.gt (elapsed_ms now last) F32.zero = true /\
  (forall rt, F32.valid rt = true -> F32.le F32.zero rt = true ->
              F32.gt (F32.add rt (elapsed_ms now last)) F32.zero = true).
Proof.
  intros Hn Hl.
  assert (Hpos : signed_nonzero (-149) false (elapsed_ms now last)).
  { apply signed_nonzero_weaken with (a := -23); [lia | ].
    now apply elapsed_ms_exponent. }
  split; [now apply elapsed_ms_cases | ].
  split; [rewrite elapsed_ms_cases, Z.ltb_irrefl by assumption; reflexivity | ].
  split; [now apply elapsed_ms_finite | ].
  split.
  - unfold F32.gt, F32.zero. now apply (signed_nonzero_gt F32.prec F32.emax).
  - intros rt Hv Hr. unfold F32.gt, F32.zero, F32.add.
    apply (signed_nonzero_gt F32.prec F32.emax).
    apply SFadd_nonzero; [reflexivity | | exact Hpos].
    now apply valid_binary_nonneg.
Qed.

(* ================================================================== *)
(** * The output mapper *)
(* ================================================================== *)

Lemma output_of_range (attitude trim range : float) :
  is_finite attitude = true -> is_finite trim = true ->
  is_finite range = true -> nonzero range = true ->
  F32.le (F32.neg F32.one) (output_of attitude trim range) = true /\
  F32.le (output_of attitude trim range) F32.one = true.
Proof.
  intros Ha Ht Hr Hz. unfold output_of.
  apply bound_range; [ | reflexivity].
  apply F32_div_not_nan; [now apply F32_add_not_nan | exact Hr | ].
  unfold nonzero in Hz. now apply negb_true_iff in Hz.
Qed.

(** Whatever the operands are, the mapping gives no number or a value
    between -1 and 1. *)
Lemma output_of_unit (attitude input range : float) :
  is_nan (output_of attitude input range) = true \/
  (F32.le (F32.neg F32.one) (output_of attitude input range) = true /\
   F32.le (output_of attitude input range) F32.one = true).
Proof.
  unfold output_of.
  destruct (is_nan (F32.div (F32.add attitude input) range)) eqn:E.
  - left. destruct (F32.div (F32.add attitude input) range); try discriminate E.
    reflexivity.
  - right. now apply bound_range.
Qed.

Lemma process_axes_commands b dT axes :
  forall csd done o,
    process_axes b dT axes csd done = Some o ->
    map fst (commands o) = map fst done ++ axes.
Proof.
  induction axes as [ | i rest IH]; intros csd done o H; simpl in H.
  - inversion H. simpl. now rewrite app_nil_r.
  - destruct (process_axis b dT i csd) as [[csd' out] | ]; [ | discriminate].
    apply IH in H. rewrite H, map_app, <- app_assoc. reflexivity.
Qed.

Lemma process_axis_output b dT i csd csd' out :
  process_axis b dT i csd = Some (csd', out) ->
  exists attitude,
    out = output_of attitude (inputs csd').[i] (OutputRange (cameraStab b)).[i].
Proof.
  unfold process_axis.
  destruct (process_input b dT i csd) as [csd1 | ]; [ | discriminate].
  destruct (filter_attitude b dT i _ csd1) as [a1 csd2].
  destruct (feed_forward b dT i a1 csd2) as [[a2 csd3] | ]; [ | discriminate].
  intros H. inversion H. now exists a2.
Qed.

(** The axes processed later leave the trim of an axis alone. *)
Lemma process_axes_inputs_other b dT i axes :
  ~ In i axes ->
  forall csd done o,
    process_axes b dT axes csd done = Some o ->
    (inputs (data o)).[i] = (inputs csd).[i].
Proof.
  induction axes as [ | j rest IH]; intros Hi csd done o H; simpl in H.
  - now inversion H.
  - destruct (process_axis b dT j csd) as [[csd' out] | ] eqn:Ej; [ | discriminate].
    apply IH in H; [ | intros Hin; apply Hi; now right].
    rewrite H. apply process_axis_inputs in Ej. destruct Ej as [csd1 [E1 E2]].
    rewrite E2. apply (process_input_other b dT j i csd csd1 E1).
    intros ->. apply Hi. now left.
Qed.

(** Every command written is the output mapping of some attitude and
    the trim the axis has at the end of the invocation. *)
Lemma process_axes_outputs b dT axes :
  NoDup axes ->
  forall csd done o,
    process_axes b dT axes csd done = Some o ->
    forall i out,
      In (i, out) (commands o) ->
      In (i, out) done \/
      exists attitude,
        out = output_of attitude (inputs (data o)).[i] (OutputRange (cameraStab b)).[i].
Proof.
  induction axes as [ | j rest IH]; intros Hnd csd done o H i out Hin; simpl in H.
  - inversion H. subst. now left.
  - destruct (process_axis b dT j csd) as [[csd' outj] | ] eqn:Ej; [ | discriminate].
    inversion Hnd as [ | ? ? Hj Hrest]. subst.
    destruct (IH Hrest _ _ _ H i out Hin) as [Hd | Hex]; [ | now right].
    apply in_app_or in Hd. destruct Hd as [Hd | [Hd | []]]; [now left | ].
    inversion Hd. subst. right.
    apply process_axis_output in Ej. destruct Ej as [attitude ->].
    exists attitude. f_equal.
    symmetry. now apply (process_axes_inputs_other b dT i rest Hj _ _ _ H).
Qed.

(** C1: the command of an axis is
    [bound((compensated attitude + trim) / OutputRange, 1.0)], where the
    compensated attitude is what the filter and feed-forward stages
    return and the trim is [inputs[i]] after the input stage, which is
    also its value at the end of the invocation; one command is written
    per axis, in the order roll, pitch, yaw. Every command written is
    either no number or lies in [-1, 1]; it lies in [-1, 1] when the
    compensated attitude, the trim and the range are finite and the
    range is not zero. A range that is not zero does not suffice: the
    compensated attitude may be no number although every setting and
    every angle is finite. For range 50, attitude 25 and trim 25 the
    command is exactly 1. *)
Theorem output_command :
  (forall b dT i csd csd1 a1 csd2 a2 csd3,
     process_input b dT i csd = Some csd1 ->
     filter_attitude b dT i (attitudeActual b).[i] csd1 = (a1, csd2) ->
     feed_forward b dT i a1 csd2 = Some (a2, csd3) ->
     process_axis b dT i csd =
       Some (csd3,
             bound (F32.div (F32.add a2 (inputs csd1).[i])
                            (OutputRange (cameraStab b)).[i]) F32.one)) /\
  (forall b csd o,
     ev_is_attitude b = true -> attitudeUpdated b csd = Some o ->
     map fst (commands o) = [ROLL; PITCH; YAW] /\
     forall i out,
       In (i, out) (commands o) ->
       exists attitude,
         out = bound (F32.div (F32.add attitude (inputs (data o)).[i])
                              (OutputRange (cameraStab b)).[i]) F32.one /\
         (is_nan out = true \/
          (F32.le (F32.neg F32.one) out = true /\ F32.le out F32.one = true)) /\
         (is_finite attitude = true -> is_finite (inputs (data o)).[i] = true ->
          is_finite (OutputRange (cameraStab b)).[i] = true ->
          nonzero (OutputRange (cameraStab b)).[i] = true ->
          F32.le (F32.neg F32.one) out = true /\ F32.le out F32.one = true)) /\
  (forall attitude trim range,
     is_finite attitude = true -> is_finite trim = true ->
     is_finite range = true -> nonzero range = true ->
     F32.le (F32.neg F32.one) (output_of attitude trim range) = true /\
     F32.le (output_of attitude trim range) F32.one = true) /\
  output_of (F32.of_Z 25) (F32.of_Z 25) (F32.of_Z 50) = F32.one.
Proof.
  split; [ | split; [ | split]].
  - intros b dT i csd csd1 a1 csd2 a2 csd3 H1 H2 H3.
    unfold process_axis. rewrite H1, H2, H3.
    apply feed_forward_inputs in H3.
    assert (E2 : inputs csd2 = inputs csd1).
    { change csd2 with (snd (a1, csd2)). rewrite <- H2. apply filter_attitude_inputs. }
    unfold output_of. now rewrite H3, E2.
  - intros b csd o Hev. unfold attitudeUpdated. rewrite Hev. simpl negb. cbv iota.
    intros H. split; [now apply process_axes_commands in H | ].
    intros i out Hin.
    assert (Hnd : NoDup [ROLL; PITCH; YAW]).
    { repeat constructor; simpl; intuition discriminate. }
    destruct (process_axes_outputs b _ _ Hnd _ _ _ H i out Hin) as [[] | [attitude ->]].
    exists attitude. split; [reflexivity | ].
    split; [apply output_of_unit | apply output_of_range].
  - apply output_of_range.
  - reflexivity.
Qed.

(** With the settings of [Examples.settings] (output range 20, response
    time 0, feed-forward gain 1, time constants 5, maximal acceleration
    500), 10 ms after start-up, and a roll angle of [FLT_MAX]: every
    setting and every angle is finite and the output range is not zero.
    The filter's product [dT * attitude] overflows to an infinity, the
    feed-forward accumulator takes it up and its decay computes
    [inf - inf]; the compensated attitude is no number, and so is the
    command written for the roll axis, which is therefore not in
    [-1, 1]. *)
Lemma output_command_not_a_number :
  let b := Examples.bus_at 10 Runs.flt_max in
  let cs := cameraStab b in
  exists o,
    finite32 (attitudeActual b).[ROLL] = true /\
    finite32 (OutputRange cs).[ROLL] = true /\
    nonzero (OutputRange cs).[ROLL] = true /\
    finite32 (ResponseTime cs).[ROLL] = true /\
    finite32 (FeedForward cs).[ROLL] = true /\
    finite32 (AccelTime cs).[ROLL] = true /\
    finite32 (DecelTime cs).[ROLL] = true /\
    finite32 (MaxAccel cs) = true /\
    attitudeUpdated b (initial_data 0) = Some o /\
    In (ROLL, S754_nan) (commands o) /\
    F32.le (F32.neg F32.one) S754_nan = false /\
    F32.le S754_nan F32.one = false /\
    ~ (forall out, In (ROLL, out) (commands o) ->
         F32.le (F32.neg F32.one) out = true /\ F32.le out F32.one = true).
Proof.
  cbv zeta. eexists.
  repeat (split; [vm_compute; reflexivity | ]).
  split; [left; reflexivity | ].
  split; [reflexivity | split; [reflexivity | ]].
  intros H. destruct (H S754_nan) as [H1 _]; [left; reflexivity | discriminate H1].
Qed.

(* ================================================================== *)
(** * The feed-forward compensator *)
(* ================================================================== *)

Lemma SFcompare_Eq_finite (x : spec_float) (s : bool) (m : positive) (e : Z) :
  SFcompare x (S754_finite s m e) = Some Eq -> x = S754_finite s m e.
Proof.
  destruct x as [sx | sx | | sx mx ex]; try destruct sx; destruct s;
    simpl; try discriminate;
    destruct (Z.compare_spec ex e) as [-> | | ]; try discriminate;
    rewrite Pos.compare_cont_spec; simpl;
    destruct (Pos.compare_spec mx m) as [-> | | ]; simpl; try discriminate;
    reflexivity.
Qed.

(** The code's [if (filter < 1.0f) filter = 1.0f] is [max(1, filter)]
    on numbers. *)
Lemma clamp_filter_max (filter : float) :
  is_nan filter = false ->
  (if F32.lt filter F32.one then F32.one else filter) = Spec.max F32.one filter.
Proof.
  intros Hn. unfold Spec.max, F32.lt, SFltb.
  rewrite (SFcompare_antisym F32.one filter).
  pose proof (SFcompare_not_nan filter F32.one Hn eq_refl) as Hc.
  destruct (SFcompare filter F32.one) as [[ | | ] | ] eqn:E; simpl; try congruence.
  now apply SFcompare_Eq_finite in E.
Qed.

Lemma gt_zero_nonzero (x : float) :
  F32.gt x F32.zero = true -> SFeqb x F32.zero = false.
Proof.
  unfold F32.gt, SFltb, SFeqb. rewrite (SFcompare_antisym x F32.zero).
  destruct (SFcompare F32.zero x) as [[ | | ] | ]; simpl; congruence.
Qed.

Lemma ff_accumulate_spec (dT attitude last gain correction accel decel acc0 : float) :
  is_finite dT = true -> F32.gt dT F32.zero = true ->
  is_finite accel = true -> is_finite decel = true ->
  let acc1 := Spec.accumulate acc0 attitude last gain correction in
  let acc2 := Spec.decay acc1 (Spec.timeConstant acc1 accel decel) dT in
  ff_accumulate dT attitude last gain correction accel decel acc0 =
    (F32.add (F32.add attitude acc1) acc2, acc2).
Proof.
  intros HdT Hpos Ha Hd. cbv zeta.
  unfold ff_accumulate, Spec.decay, Spec.timeConstant, Spec.accumulate.
  rewrite clamp_filter_max; [reflexivity | ].
  apply F32_div_not_nan; [ | exact HdT | now apply gt_zero_nonzero].
  apply is_finite_not_nan.
  match goal with |- is_finite (if ?c then _ else _) = true => destruct c end;
    assumption.
Qed.

(** C3: with a positive time delta, feed-forward updates in this order:
    the accumulator takes [(attitude - ffLastAttitude) * gain *
    correction]; [ffLastAttitude] becomes the attitude passed in; the
    accumulator is added to the working attitude; the accumulator decays
    by [accumulator / max(1, timeConstant / dT)], with the acceleration
    time when it is positive and the deceleration time otherwise; the
    decayed accumulator is stored and added to the working attitude a
    second time. The acceleration limit then applies to that sum. *)
Theorem feed_forward_order (b : bus) (index : axis) (dT attitude : float)
    (csd : CameraStab_data) :
  is_finite dT = true -> F32.gt dT F32.zero = true ->
  is_finite (AccelTime (cameraStab b)).[index] = true ->
  is_finite (DecelTime (cameraStab b)).[index] = true ->
  forall correction, gimbalTypeCorrection b index = Some correction ->
  let acc1 := Spec.accumulate (ffFilterAccumulator csd).[index] attitude
                (ffLastAttitude csd).[index] (FeedForward (cameraStab b)).[index]
                correction in
  let working1 := F32.add attitude acc1 in
  let acc2 := Spec.decay acc1
                (Spec.timeConstant acc1 (AccelTime (cameraStab b)).[index]
                   (DecelTime (cameraStab b)).[index]) dT in
  let working2 := F32.add working1 acc2 in
  exists attitude' csd',
    applyFeedForward b index dT attitude csd = Some (attitude', csd') /\
    (ffLastAttitude csd').[index] = attitude /\
    (ffFilterAccumulator csd').[index] = acc2 /\
    attitude' = ff_limit dT (MaxAccel (cameraStab b))
                  (ffLastAttitudeFiltered csd).[index] working2.
Proof.
  intros HdT Hpos Ha Hd correction Hc. cbv zeta.
  unfold applyFeedForward. rewrite Hc.
  rewrite ff_accumulate_spec by assumption. cbv zeta.
  eexists. eexists. split; [reflexivity | ].
  simpl. rewrite !get_set_same. auto.
Qed.



(* ================================================================== *)
(** * The trim aggregator in axis-lock mode *)
(* ================================================================== *)

Lemma process_input_axislock b dT i csd instId sample :
  (Input (cameraStab b)).[i] = INPUT_ACCESSORY instId ->
  accessoryVal b instId = Some sample ->
  (StabilizationMode (cameraStab b)).[i] = STABILIZATIONMODE_AXISLOCK ->
  process_input b dT i csd =
    if fabs_gt (F32.mul sample (InputRate (cameraStab b)).[i]) (MaxAxisLockRate (cameraStab b))
    then Some (set_inputs csd i
                 (bound (F32.add (inputs csd).[i]
                           (F32.mul (F32.mul (F32.mul sample (InputRate (cameraStab b)).[i])
                                       F32.milli) dT))
                        (InputRange (cameraStab b)).[i]))
    else Some csd.
Proof.
  intros HI HA HM. unfold process_input. now rewrite HI, HA, HM.
Qed.

(** The integration step of a number below the range towards it: the
    trim does not decrease and stays at or below the range. *)
Lemma integrate_up (trim inc range : float) :
  finite32 trim = true -> signed_nonzero (-149) false inc ->
  F32.le trim range = true -> F32.le F32.zero range = true ->
  F32.le trim (bound (F32.add trim inc) range) = true /\
  F32.le (bound (F32.add trim inc) range) range = true.
Proof.
  intros Ht Hi Hr H0. unfold finite32 in Ht. apply andb_prop in Ht.
  destruct Ht as [Hf Hv].
  assert (Hge : SFleb trim (F32.add trim inc) = true).
  { apply (SFadd_ge_left F32.prec F32.emax eq_refl); assumption. }
  assert (Hnn : is_nan (F32.add trim inc) = false).
  { apply SFadd_not_nan_l; [exact Hf | ]. now destruct inc. }
  split; [ | now apply bound_range].
  unfold F32.le.
  destruct (bound_cases (F32.add trim inc) range) as [[_ E] | [[_ [L E]] | [_ [_ E]]]];
    rewrite E.
  - exact Hr.
  - apply SFleb_trans with (b := F32.add trim inc); [exact Hge | ].
    now apply SFltb_SFleb.
  - exact Hge.
Qed.


Lemma of_Z_normal (n : Z) : 0 < n -> normal_above F32.prec (-23) (F32.of_Z n).
Proof.
  intros Hn. destruct n as [ | p | p]; try lia.
  unfold F32.of_Z, binary_normalize.
  pose proof (digits2_pos_bounds p) as [_ Hd].
  assert (H1 : 1 <= Zpos (digits2_pos p)) by lia.
  pose proof (binary_round_normal F32.prec F32.emax eq_refl false p 0) as H.
  rewrite F32_emin in H. unfold F32.prec in H at 1. specialize (H ltac:(lia)).
  destruct (binary_round F32.prec F32.emax false p 0) as [s | s | | s m e];
    try (now destruct H).
  - now subst s.
  - destruct H as [-> [H2 H3]]. split; [exact H2 | unfold F32.prec in H3; lia].
Qed.

Lemma elapsed_ms_normal (now last : Z) :
  0 <= now < 2 ^ 32 -> 0 <= last < 2 ^ 32 ->
  normal_above F32.prec (-23) (elapsed_ms now last).
Proof.
  intros Hn Hl. rewrite elapsed_ms_cases by assumption.
  destruct (last <? now)%Z eqn:E.
  - apply Z.ltb_lt in E. apply of_Z_normal. lia.
  - apply of_Z_normal. lia.
Qed.

(** A float of magnitude below 4096 has an exponent of -12 or less. *)
Lemma below_4096_exponent (x : float) :
  F32.valid x = true -> F32.lt (SFabs x) (F32.of_Z 4096) = true ->
  match x with S754_finite _ _ ex => ex <= -12 | _ => True end.
Proof.
  destruct x as [s | s | | s m e]; try (intros; exact I).
  unfold F32.valid, valid_binary, bounded, canonical_mantissa, F32.lt.
  intros Hb. apply andb_prop in Hb. destruct Hb as [Hc _]. apply Z.eqb_eq in Hc.
  change (F32.of_Z 4096) with (S754_finite false 8388608 (-11)).
  unfold SFltb, SFabs, SFcompare.
  pose proof (digits2_pos_bounds m) as [Hd1 Hd2].
  destruct (Z.compare_spec e (-11)) as [E | E | E]; try discriminate; [ | lia].
  rewrite Pos.compare_cont_spec. simpl.
  destruct (Pos.compare_spec m 8388608) as [E' | E' | E']; try discriminate.
  intros _. exfalso.
  assert (Hdm : Zpos (digits2_pos m) <= 23).
  { apply digits2_pos_lt_pow; [lia | ]. change (2 ^ 23) with 8388608. lia. }
  unfold fexp, emin, F32.prec, F32.emax in Hc. lia.
Qed.

(** The integration step towards the range, strict form: a step with a
    mantissa of 24 bits at the exponent -34 or above moves a trim of
    magnitude below 4096 strictly upwards unless the range stops it. *)
Lemma integrate_up_strict (trim inc range : float) :
  finite32 trim = true -> normal_above F32.prec (-34) inc ->
  F32.lt (SFabs trim) (F32.of_Z 4096) = true ->
  F32.gt (F32.add trim inc) range = false ->
  F32.lt trim (bound (F32.add trim inc) range) = true.
Proof.
  intros Ht Hi H4 Hr. unfold finite32 in Ht. apply andb_prop in Ht.
  destruct Ht as [Hf Hv].
  assert (Hgt : SFltb trim (F32.add trim inc) = true).
  { apply (SFadd_gt_left F32.prec F32.emax eq_refl trim inc (-34));
      try assumption; [rewrite F32_emin; lia | ].
    pose proof (below_4096_exponent trim Hv H4) as He.
    destruct trim; try exact I. unfold F32.prec. lia. }
  unfold F32.lt.
  destruct (bound_cases (F32.add trim inc) range) as [[G _] | [[_ [L E]] | [_ [_ E]]]].
  - congruence.
  - rewrite E. apply SFltb_trans with (b := F32.add trim inc); assumption.
  - rewrite E. exact Hgt.
Qed.

(** The step of the 0.8 sample at input rate 1.0 over the time delta. *)
Lemma lock_step_normal (now last : Z) :
  0 <= now < 2 ^ 32 -> 0 <= last < 2 ^ 32 ->
  normal_above F32.prec (-34)
    (F32.mul (F32.mul (F32.mul (F32.ratio 8 10) F32.one) F32.milli)
       (elapsed_ms now last)).
Proof.
  intros Hn Hl.
  change (F32.mul (F32.mul (F32.ratio 8 10) F32.one) F32.milli)
    with (S754_finite false 13743896 (-34)).
  apply (SFmul_normal F32.prec F32.emax eq_refl
           (S754_finite false 13743896 (-34)) (elapsed_ms now last) (-34) (-23)).
  - split; [vm_compute; discriminate | lia].
  - now apply elapsed_ms_normal.
  - rewrite F32_emin. unfold F32.prec. lia.
Qed.

(** C6: in axis-lock mode, with rate = sample * InputRate: when
    [|rate| > MaxAxisLockRate] (the test is made in double and agrees with
    the comparison of the floats) the trim becomes
    [bound(trim + rate * 0.001f * dT, InputRange)] and so has magnitude at
    most [InputRange]; otherwise the module data are unchanged. With
    input rate 1.0 and maximal rate 0.5, a sample of 0.3 changes nothing
    on any invocation; a sample of 0.8 integrates on every invocation,
    the trim never decreases and stays at or below the range, and takes
    the value of the range as soon as the sum exceeds it; while the sum
    does not exceed the range, a trim of magnitude below 4096 strictly
    increases (the step is at least 2 ^ -11, two units in the last place
    of such a trim). From a trim of 0 with range 1 and 10 ms between
    invocations the trim strictly increases on each of the first 125
    invocations, reaches the range on the 125th and stays there. *)
Theorem axis_lock_trim :
  (forall (b : bus) (i : axis) (instId : nat) (sample : float),
  (Input (cameraStab b)).[i] = INPUT_ACCESSORY instId ->
  accessoryVal b instId = Some sample ->
  (StabilizationMode (cameraStab b)).[i] = STABILIZATIONMODE_AXISLOCK ->
  let rate := F32.mul sample (InputRate (cameraStab b)).[i] in
  let range := (InputRange (cameraStab b)).[i] in
  let limit := MaxAxisLockRate (cameraStab b) in
  (forall dT csd, fabs_gt rate limit = true ->
     process_input b dT i csd =
       Some (set_inputs csd i
               (bound (F32.add (inputs csd).[i] (F32.mul (F32.mul rate F32.milli) dT))
                      range))) /\
  (forall dT csd csd', fabs_gt rate limit = true ->
     is_finite sample = true -> is_finite (InputRate (cameraStab b)).[i] = true ->
     is_finite dT = true -> F32.gt dT F32.zero = true ->
     is_finite (inputs csd).[i] = true -> F32.le F32.zero range = true ->
     process_input b dT i csd = Some csd' ->
     F32.le (SFabs (inputs csd').[i]) range = true) /\
  (forall dT csd, fabs_gt rate limit = false -> process_input b dT i csd = Some csd) /\
  (F32.valid rate = true -> F32.valid limit = true ->
   fabs_gt rate limit = F32.gt (SFabs rate) limit) /\
  ((InputRate (cameraStab b)).[i] = F32.one -> limit = F32.ratio 1 2 ->
   (sample = F32.ratio 3 10 -> forall dT csd, process_input b dT i csd = Some csd) /\
   (sample = F32.ratio 8 10 ->
    forall now last csd,
      (0 <= now < 2 ^ 32)%Z -> (0 <= last < 2 ^ 32)%Z ->
      let dT := elapsed_ms now last in
      let trim := (inputs csd).[i] in
      let sum := F32.add trim (F32.mul (F32.mul rate F32.milli) dT) in
      process_input b dT i csd = Some (set_inputs csd i (bound sum range)) /\
      (finite32 trim = true -> F32.le trim range = true ->
       F32.le F32.zero range = true ->
       F32.le trim (bound sum range) = true /\
       F32.le (bound sum range) range = true /\
       (F32.gt sum range = true -> bound sum range = range) /\
       (F32.lt (SFabs trim) (F32.of_Z 4096) = true -> F32.gt sum range = false ->
        F32.lt trim (bound sum range) = true))))) /\
  (let trims := Examples.lock_trims 130 (F32.ratio 8 10) (initial_data 0) in
   Examples.ascending (firstn 125 trims) = true /\
   skipn 124 trims = repeat (F32.of_Z 1) 6 /\
   Examples.lock_trims 130 (F32.ratio 3 10) (initial_data 0) = repeat F32.zero 130).
Proof.
  split; [ | cbv zeta; repeat split; vm_compute; reflexivity].
  intros b i instId sample HI HA HM. cbv zeta.
  pose proof (fun dT csd => process_input_axislock b dT i csd instId sample HI HA HM) as HP.
  split; [ | split; [ | split; [ | split; [apply fabs_gt_float | ]]]].
  - intros dT csd Hgt. now rewrite HP, Hgt.
  - intros dT csd csd' Hgt Hs Hr HdT Hpos Ht H0. rewrite HP, Hgt.
    intros H. inversion H. simpl. rewrite get_set_same.
    assert (Hnn : is_nan (F32.add (inputs csd).[i]
                   (F32.mul (F32.mul (F32.mul sample (InputRate (cameraStab b)).[i])
                               F32.milli) dT)) = false).
    { apply SFadd_not_nan_l; [exact Ht | ].
      apply SFmul_not_nan_r; [ | exact HdT | now apply gt_zero_nonzero].
      apply SFmul_not_nan_r; [ | reflexivity | reflexivity].
      now apply F32_mul_not_nan. }
    destruct (bound_range _ _ Hnn H0) as [B1 B2].
    now apply SFleb_abs_intro.
  - intros dT csd Hle. now rewrite HP, Hle.
  - intros HR HL. rewrite HR, HL in *. split.
    + intros ->. intros dT csd. rewrite HP. reflexivity.
    + intros ->. intros now last csd Hn Hl. cbv zeta. split.
      * rewrite HP. reflexivity.
      * intros Ht Hr H0.
        assert (Hi : signed_nonzero (-149) false
                       (F32.mul (F32.mul (F32.mul (F32.ratio 8 10) F32.one) F32.milli)
                          (elapsed_ms now last))).
        { change (F32.mul (F32.mul (F32.ratio 8 10) F32.one) F32.milli)
            with (S754_finite false 13743896 (-34)).
          change false with (xorb false false).
          apply (SFmul_nonzero F32.prec F32.emax eq_refl (-34) (-23));
            [simpl; split; [reflexivity | lia] | now apply elapsed_ms_exponent
             | rewrite F32_emin; lia]. }
        destruct (integrate_up _ _ _ Ht Hi Hr H0) as [M1 M2].
        split; [exact M1 | split; [exact M2 | split]].
        -- intros Hgt. unfold bound. now rewrite Hgt.
        -- intros H4 Hle. apply integrate_up_strict; try assumption.
           now apply lock_step_normal.
Qed.

(* ================================================================== *)
(** * The acceleration limit *)
(* ================================================================== *)

Lemma ff_limit_cases (dT maxAccel last working : float) :
  let maxDelta := F32.mul (F32.mul maxAccel F32.milli) dT in
  let delta := F32.sub working last in
  (fabs_gt delta maxDelta = true /\ F32.gt delta F32.zero = true /\
   ff_limit dT maxAccel last working = F32.add last maxDelta) \/
  (fabs_gt delta maxDelta = true /\ F32.gt delta F32.zero = false /\
   ff_limit dT maxAccel last working = F32.add last (F32.neg maxDelta)) \/
  (fabs_gt delta maxDelta = false /\ ff_limit dT maxAccel last working = working).
Proof.
  cbv zeta. unfold ff_limit.
  destruct (fabs_gt _ _); [ | now right; right].
  destruct (F32.gt _ F32.zero); [now left | now right; left].
Qed.

(** C2, as the code has it: the value stored in [ffLastAttitudeFiltered]
    is the attitude returned, which is the sum [last + maxDelta] or
    [last + (-maxDelta)] rounded to single precision when
    [|working - last| > maxDelta], and the working attitude otherwise,
    with [maxDelta = MaxAccel * 0.001f * dT]; the test is made in double
    and agrees with the comparison of the floats. *)
Theorem accel_limit_steps (b : bus) (index : axis) (dT attitude : float)
    (csd : CameraStab_data) (correction : float) :
  gimbalTypeCorrection b index = Some correction ->
  let last := (ffLastAttitudeFiltered csd).[index] in
  let maxDelta := F32.mul (F32.mul (MaxAccel (cameraStab b)) F32.milli) dT in
  let working :=
    fst (ff_accumulate dT attitude (ffLastAttitude csd).[index]
           (FeedForward (cameraStab b)).[index] correction
           (AccelTime (cameraStab b)).[index] (DecelTime (cameraStab b)).[index]
           (ffFilterAccumulator csd).[index]) in
  let delta := F32.sub working last in
  exists attitude' csd',
    applyFeedForward b index dT attitude csd = Some (attitude', csd') /\
    (ffLastAttitudeFiltered csd').[index] = attitude' /\
    ((fabs_gt delta maxDelta = true /\ F32.gt delta F32.zero = true /\
      attitude' = F32.add last maxDelta) \/
     (fabs_gt delta maxDelta = true /\ F32.gt delta F32.zero = false /\
      attitude' = F32.add last (F32.neg maxDelta)) \/
     (fabs_gt delta maxDelta = false /\ attitude' = working)) /\
    (F32.valid delta = true -> F32.valid maxDelta = true ->
     fabs_gt delta maxDelta = F32.gt (SFabs delta) maxDelta).
Proof.
  intros Hc. cbv zeta. unfold applyFeedForward. rewrite Hc.
  destruct (ff_accumulate _ _ _ _ _ _ _ _) as [working acc].
  eexists. eexists. split; [reflexivity | ].
  split; [simpl; now rewrite get_set_same | ].
  split; [apply ff_limit_cases | apply fabs_gt_float].
Qed.

(** From the initial data, with a maximal acceleration of 500 and
    invocations 10 ms apart, the roll attitude is held at 125.0000229
    (16384003 * 2^-17) for 26 invocations and then jumps to 140. The
    limited attitude has reached 125.0000229; the jump stores
    130.0000305 (8519682 * 2^-16): the sum 125.0000229 + 5 is not a float
    and rounds up, so the stored value has moved by 5.0000076, more than
    [maxDelta = 5], and the limiter's own test applied to the stored
    change reports it as too large. *)
Lemma accel_limit_exceeded :
  let held := S754_finite false 16384003 (-17) in
  exists csd o,
    Examples.steady 26 10 held (initial_data 0) = Some csd /\
    attitudeUpdated (Examples.bus_at 270 (F32.of_Z 140)) csd = Some o /\
    let dT := elapsed_ms 270 (lastSysTime csd) in
    let maxDelta := F32.mul (F32.mul (MaxAccel Examples.settings) F32.milli) dT in
    let before := (ffLastAttitudeFiltered csd).[ROLL] in
    let after := (ffLastAttitudeFiltered (data o)).[ROLL] in
    F32.gt dT F32.zero = true /\
    nonzero (FeedForward Examples.settings).[ROLL] = true /\
    maxDelta = F32.of_Z 5 /\
    before = held /\
    after = S754_finite false 8519682 (-16) /\
    fabs_gt (F32.sub after before) maxDelta = true /\
    ~ (Qabs (SF2Q after - SF2Q before) <= SF2Q maxDelta)%Q.
Proof.
  cbv zeta. eexists. eexists.
  split; [vm_compute; reflexivity | ].
  split; [vm_compute; reflexivity | ].
  repeat (split; [vm_compute; reflexivity | ]).
  vm_compute. intros H. apply H. reflexivity.
Qed.

(* ================================================================== *)
(** * The attitude filter *)
(* ================================================================== *)

(** With a response time of zero, a finite filtered value and dT > 0 the
    filter computes the product [dT * raw] divided by [dT] again, each
    operation rounded; a zero when the product is a zero. *)
Lemma lowpass_zero_response (dT filtered raw : float) :
  is_finite filtered = true -> is_finite dT = true -> F32.gt dT F32.zero = true ->
  (is_zero (F32.mul dT raw) = false ->
   lowpass F32.zero dT filtered raw = F32.div (F32.mul dT raw) dT) /\
  (is_zero (F32.mul dT raw) = true ->
   is_zero (lowpass F32.zero dT filtered raw) = true).
Proof.
  intros Hf HdT Hpos. unfold lowpass.
  assert (Hz : exists s, F32.mul F32.zero filtered = S754_zero s).
  { destruct filtered as [s | s | | s m e]; try discriminate; simpl; eauto. }
  destruct Hz as [s ->].
  assert (Hd : F32.add F32.zero dT = dT).
  { destruct dT as [sd | sd | | sd md ed]; try discriminate; reflexivity. }
  rewrite Hd. split; intros Hy.
  - destruct (F32.mul dT raw) as [sy | sy | | sy my ey]; try discriminate; reflexivity.
  - destruct (F32.mul dT raw) as [sy | sy | | sy my ey]; try discriminate.
    destruct dT as [sd | sd | | sd md ed]; try discriminate.
    now destruct s, sy.
Qed.

Lemma process_input_attitudeFiltered b dT i csd csd1 :
  process_input b dT i csd = Some csd1 -> attitudeFiltered csd1 = attitudeFiltered csd.
Proof.
  unfold process_input.
  destruct ((Input (cameraStab b)).[i]); [ | now intros H; inversion H].
  destruct (accessoryVal b instId); [ | now intros H; inversion H].
  destruct ((StabilizationMode (cameraStab b)).[i]); [ | | discriminate].
  - intros H. now inversion H.
  - destruct (fabs_gt _ _); intros H; now inversion H.
Qed.

Lemma feed_forward_attitudeFiltered b dT i attitude csd a' csd' :
  feed_forward b dT i attitude csd = Some (a', csd') ->
  attitudeFiltered csd' = attitudeFiltered csd.
Proof.
  unfold feed_forward, applyFeedForward. destruct (nonzero _).
  - destruct (gimbalTypeCorrection b i); [ | discriminate].
    destruct (ff_accumulate _ _ _ _ _ _ _ _) as [att acc].
    intros H. now inversion H.
  - intros H. now inversion H.
Qed.

(** One axis of the loop writes the filter value of that axis into
    [attitudeFiltered] and nothing else. *)
Lemma process_axis_attitudeFiltered b dT i csd csd' out :
  process_axis b dT i csd = Some (csd', out) ->
  attitudeFiltered csd' =
    set (attitudeFiltered csd) i
      (lowpass (ResponseTime (cameraStab b)).[i] dT (attitudeFiltered csd).[i]
         (attitudeActual b).[i]).
Proof.
  unfold process_axis.
  destruct (process_input b dT i csd) as [csd1 | ] eqn:E1; [ | discriminate].
  apply process_input_attitudeFiltered in E1.
  unfold filter_attitude.
  destruct (feed_forward _ _ _ _ _) as [[a2 csd3] | ] eqn:E3; [ | discriminate].
  apply feed_forward_attitudeFiltered in E3.
  intros H. inversion H. subst. rewrite E3. simpl. now rewrite E1.
Qed.

Lemma attitudeUpdated_attitudeFiltered b csd o i :
  ev_is_attitude b = true -> attitudeUpdated b csd = Some o ->
  (attitudeFiltered (data o)).[i] =
    lowpass (ResponseTime (cameraStab b)).[i]
      (elapsed_ms (tickCount b) (lastSysTime csd))
      (attitudeFiltered csd).[i] (attitudeActual b).[i].
Proof.
  intros Hev. unfold attitudeUpdated. rewrite Hev. simpl negb. cbv iota.
  set (dT := elapsed_ms (tickCount b) (lastSysTime csd)).
  simpl process_axes.
  destruct (process_axis b dT ROLL _) as [[c1 o1] | ] eqn:E1; [ | discriminate].
  destruct (process_axis b dT PITCH c1) as [[c2 o2] | ] eqn:E2; [ | discriminate].
  destruct (process_axis b dT YAW c2) as [[c3 o3] | ] eqn:E3; [ | discriminate].
  apply process_axis_attitudeFiltered in E1, E2, E3.
  intros H. inversion H. simpl. rewrite E3, E2, E1.
  destruct i; reflexivity.
Qed.

(** The filter formula: on every invocation the filter stores the
    single-precision value of [(rt * filtered + dT * raw) / (rt + dT)] in
    [attitudeFiltered] and passes the same value to the following
    stages; at the end of the invocation [attitudeFiltered] of the axis
    holds that value, with dT the time delta of the invocation. The
    guard of line 204 tests the array, so this is what runs for every
    response time, zero included. *)
Lemma attitude_filter_step (b : bus) (i : axis) :
  let rt := (ResponseTime (cameraStab b)).[i] in
  let raw := (attitudeActual b).[i] in
  (forall dT csd csd1,
     process_input b dT i csd = Some csd1 ->
     let a := F32.div (F32.add (F32.mul rt (attitudeFiltered csd1).[i]) (F32.mul dT raw))
                      (F32.add rt dT) in
     filter_attitude b dT i raw csd1 = (a, set_attitudeFiltered csd1 i a) /\
     (attitudeFiltered (set_attitudeFiltered csd1 i a)).[i] = a /\
     process_axis b dT i csd =
       match feed_forward b dT i a (set_attitudeFiltered csd1 i a) with
       | Some (attitude, csd2) =>
         Some (csd2, output_of attitude (inputs csd2).[i] (OutputRange (cameraStab b)).[i])
       | None => None
       end) /\
  (forall csd o,
     ev_is_attitude b = true -> attitudeUpdated b csd = Some o ->
     let dT := elapsed_ms (tickCount b) (lastSysTime csd) in
     (attitudeFiltered (data o)).[i] =
       F32.div (F32.add (F32.mul rt (attitudeFiltered csd).[i]) (F32.mul dT raw))
               (F32.add rt dT)).
Proof.
  cbv zeta. split.
  - intros dT csd csd1 H1. split; [reflexivity | ].
    split; [simpl; now rewrite get_set_same | ].
    unfold process_axis. rewrite H1. reflexivity.
  - intros csd o Hev H. now apply attitudeUpdated_attitudeFiltered.
Qed.

(** With a response time of zero and dT = 10 the filter returns the
    sample 10.0, and a neighbour of the sample 1.81. *)
Lemma lowpass_zero_response_samples :
  lowpass F32.zero (F32.of_Z 10) F32.zero (F32.of_Z 10) = F32.of_Z 10 /\
  lowpass F32.zero (F32.of_Z 10) F32.zero (F32.ratio 181 100) =
    S754_finite false 15183379 (-23).
Proof. split; reflexivity. Qed.

(** C5: with a response time of zero the filter is to pass the raw
    sample through unchanged. The guard of line 204,
    [if (cameraStab.ResponseTime)], tests the array and not the element
    [ResponseTime[i]] (the guard of the feed-forward, line 211, tests
    [FeedForward[i]]), so the formula runs also for a response time of
    zero, rounding each operation. From the data after start-up, 10 ms
    after the last invocation, the raw roll sample 1.81
    (15183380 * 2^-23) comes out of the filter, and is stored in
    [attitudeFiltered], as 15183379 * 2^-23: [10 * 1.81f] is not a float,
    and the rounded product divided by 10 rounds to the neighbour of the
    sample. *)
Lemma filter_zero_response_alters_sample :
  let raw := F32.ratio 181 100 in
  let b := Examples.bus_at 10 raw in
  let csd := initial_data 0 in
  let dT := elapsed_ms (tickCount b) (lastSysTime csd) in
  F32.gt dT F32.zero = true /\
  (ResponseTime (cameraStab b)).[ROLL] = F32.zero /\
  finite32 raw = true /\
  raw = S754_finite false 15183380 (-23) /\
  fst (filter_attitude b dT ROLL (attitudeActual b).[ROLL] csd)
    = S754_finite false 15183379 (-23) /\
  (attitudeFiltered (snd (filter_attitude b dT ROLL (attitudeActual b).[ROLL] csd))).[ROLL]
    = S754_finite false 15183379 (-23) /\
  fst (filter_attitude b dT ROLL (attitudeActual b).[ROLL] csd) <> raw /\
  (attitudeFiltered (snd (filter_attitude b dT ROLL (attitudeActual b).[ROLL] csd))).[ROLL]
    <> raw.
Proof.
  cbv zeta. repeat (split; [vm_compute; reflexivity | ]).
  split; vm_compute; discriminate.
Qed.

Lemma lowpass_exact_contracts (rt dT filtered raw : Q) :
  (0 < rt)%Q -> (0 < dT)%Q ->
  (Spec.lowpass_exact rt dT filtered raw - raw == rt / (rt + dT) * (filtered - raw))%Q /\
  (0 < rt / (rt + dT))%Q /\ (rt / (rt + dT) < 1)%Q.
Proof.
  intros Hrt HdT.
  assert (Hs : (0 < rt + dT)%Q) by lra.
  split; [ | split].
  - unfold Spec.lowpass_exact. field. lra.
  - apply Qlt_shift_div_l; lra.
  - apply Qlt_shift_div_r; lra.
Qed.

Lemma lowpass_iter_add (n m : nat) (rt dT raw filtered : float) :
  Examples.lowpass_iter (n + m) rt dT raw filtered =
  Examples.lowpass_iter m rt dT raw (Examples.lowpass_iter n rt dT raw filtered).
Proof.
  revert filtered. induction n as [ | n IH]; intros filtered; simpl; auto.
Qed.

Lemma lowpass_iter_fixed (n : nat) (rt dT raw x : float) :
  lowpass rt dT x raw = x -> Examples.lowpass_iter n rt dT raw x = x.
Proof.
  intros Hx. induction n as [ | n IH]; simpl; [reflexivity | ].
  now rewrite Hx.
Qed.

(** Fifty steps of the filter from 0 towards 10.0, with response time
    100 and dT 10, end at 9.9148, not within 0.001 of 10.0. *)
Lemma filter_fifty_steps_short :
  let filtered :=
    Examples.lowpass_iter 50 (F32.of_Z 100) (F32.of_Z 10) (F32.of_Z 10) F32.zero in
  filtered = S754_finite false 10396435 (-20) /\
  ~ (Qabs (SF2Q filtered - 10) <= 1 # 1000)%Q.
Proof.
  cbv zeta. split; [vm_compute; reflexivity | ].
  vm_compute. intros H. apply H. reflexivity.
Qed.

(** C9, as the code and the arithmetic have it: in exact arithmetic one
    step of the filter formula multiplies the distance to a constant raw
    input by rt / (rt + dT), a factor strictly between 0 and 1. The
    single-precision filter run from 0 towards 10.0 with response time
    100 and dT 10 stays within 2^-16 of the exact iteration for the first
    200 steps; it is within 0.1 but not within 0.001 of 10.0 after 50
    steps, within 0.001 from step 97 on and not at step 96, and from step
    144 on it rests at 10485748 * 2^-20, twelve units in the last place
    below 10.0. *)
Theorem attitude_filter_contraction :
  (forall rt dT filtered raw : Q,
     (0 < rt)%Q -> (0 < dT)%Q ->
     (Spec.lowpass_exact rt dT filtered raw - raw
        == rt / (rt + dT) * (filtered - raw))%Q /\
     (0 < rt / (rt + dT))%Q /\ (rt / (rt + dT) < 1)%Q) /\
  (let run n :=
     Examples.lowpass_iter n (F32.of_Z 100) (F32.of_Z 10) (F32.of_Z 10) F32.zero in
   Examples.filter_tracks 200 (1 # 65536) F32.zero 0 = true /\
   (Qabs (SF2Q (run 50%nat) - 10) <= 1 # 10)%Q /\
   ~ (Qabs (SF2Q (run 50%nat) - 10) <= 1 # 1000)%Q /\
   ~ (Qabs (SF2Q (run 96%nat) - 10) <= 1 # 1000)%Q /\
   forallb (fun n => Qle_bool (Qabs (SF2Q (run n) - 10)) (1 # 1000)) (seq 97 47)
     = true /\
   (forall n, (144 <= n)%nat -> run n = S754_finite false 10485748 (-20)) /\
   (Qabs (SF2Q (S754_finite false 10485748 (-20)) - 10) <= 1 # 1000)%Q).
Proof.
  split; [exact lowpass_exact_contracts | ].
  cbv zeta.
  split; [vm_compute; reflexivity | ].
  split; [vm_compute; discriminate | ].
  split; [vm_compute; intros H; apply H; reflexivity | ].
  split; [vm_compute; intros H; apply H; reflexivity | ].
  split; [vm_compute; reflexivity | ].
  split; [ | vm_compute; discriminate].
  intros n Hn. replace n with (144 + (n - 144))%nat by lia.
  rewrite lowpass_iter_add.
  replace (Examples.lowpass_iter 144 (F32.of_Z 100) (F32.of_Z 10) (F32.of_Z 10) F32.zero)
    with (S754_finite false 10485748 (-20)) by (vm_compute; reflexivity).
  apply lowpass_iter_fixed. vm_compute. reflexivity.
Qed.

(* ================================================================== *)
(** * The theorems at sample inputs *)
(* ================================================================== *)

Lemma bound_clamps_half :
  (F32.le (F32.neg F32.one) (bound (F32.ratio 1 2) F32.one) = true /\
   F32.le (bound (F32.ratio 1 2) F32.one) F32.one = true) /\
  bound (F32.ratio 1 2) F32.one = F32.ratio 1 2.
Proof.
  destruct (bound_clamps (F32.ratio 1 2) F32.one) as [H1 H2];
    [vm_compute; reflexivity | vm_compute; reflexivity | ].
  split; [exact H1 | apply H2; vm_compute; reflexivity].
Defined.

Lemma output_command_sample :
  (exists csd' output,
     process_axis (Examples.bus_at 10 (F32.of_Z 25)) (F32.of_Z 10) ROLL (initial_data 0)
       = Some (csd', output)) /\
  F32.le (F32.neg F32.one)
    (output_of (F32.of_Z 25) (F32.of_Z 25) (F32.of_Z 50)) = true /\
  F32.le (output_of (F32.of_Z 25) (F32.of_Z 25) (F32.of_Z 50)) F32.one = true.
Proof.
  destruct output_command as [H1 [_ [H3 _]]]. split.
  - eexists. eexists. eapply H1; reflexivity.
  - apply H3; vm_compute; reflexivity.
Defined.

Lemma accel_limit_steps_sample :
  exists attitude' csd',
    applyFeedForward (Examples.bus_at 10 (F32.of_Z 140)) ROLL (F32.of_Z 10) (F32.of_Z 140)
      (initial_data 0) = Some (attitude', csd') /\
    (ffLastAttitudeFiltered csd').[ROLL] = attitude'.
Proof.
  destruct (accel_limit_steps (Examples.bus_at 10 (F32.of_Z 140)) ROLL (F32.of_Z 10)
              (F32.of_Z 140) (initial_data 0) F32.one)
    as [a [c [H1 [H2 _]]]]; [vm_compute; reflexivity | ].
  exists a, c. split; assumption.
Defined.

Lemma feed_forward_order_sample :
  exists attitude' csd',
    applyFeedForward (Examples.bus_at 10 (F32.of_Z 5)) ROLL (F32.of_Z 10) (F32.of_Z 5)
      (initial_data 0) = Some (attitude', csd') /\
    (ffLastAttitude csd').[ROLL] = F32.of_Z 5.
Proof.
  destruct (feed_forward_order (Examples.bus_at 10 (F32.of_Z 5)) ROLL (F32.of_Z 10)
              (F32.of_Z 5) (initial_data 0))
    with (correction := F32.one) as [a [c [H1 [H2 _]]]];
    try (vm_compute; reflexivity).
  exists a, c. split; assumption.
Defined.


Lemma attitude_filter_step_sample :
  exists o,
    attitudeUpdated (Examples.smooth_bus 10 (F32.of_Z 25)) (initial_data 0) = Some o /\
    (attitudeFiltered (data o)).[ROLL] =
      F32.div (F32.add (F32.mul (F32.of_Z 100) F32.zero)
                 (F32.mul (elapsed_ms 10 0) (F32.of_Z 25)))
              (F32.add (F32.of_Z 100) (elapsed_ms 10 0)).
Proof.
  destruct (attitude_filter_step (Examples.smooth_bus 10 (F32.of_Z 25)) ROLL) as [_ H].
  assert (E : attitudeUpdated (Examples.smooth_bus 10 (F32.of_Z 25)) (initial_data 0)
              = Examples.smooth_outcome) by (vm_compute; reflexivity).
  unfold Examples.smooth_outcome in E.
  eexists. split; [exact E | ].
  apply (H _ _ eq_refl E).
Defined.

Lemma axis_lock_trim_sample :
  process_input (Examples.lock_bus (F32.ratio 8 10)) (elapsed_ms 10 0) ROLL (initial_data 0)
    = Some (set_inputs (initial_data 0) ROLL
              (bound (F32.add F32.zero
                        (F32.mul (F32.mul (F32.mul (F32.ratio 8 10) F32.one) F32.milli)
                           (elapsed_ms 10 0)))
                     (F32.of_Z 1))).
Proof.
  destruct axis_lock_trim as [H _].
  destruct (H (Examples.lock_bus (F32.ratio 8 10)) ROLL 0%nat (F32.ratio 8 10)
              eq_refl eq_refl eq_refl) as [_ [_ [_ [_ H4]]]].
  destruct (H4 eq_refl eq_refl) as [_ H8].
  destruct (H8 eq_refl 10 0 (initial_data 0)) as [E _]; [lia | lia | ].
  exact E.
Defined.

Lemma elapsed_ms_positive_sample :
  elapsed_ms 25 10 = F32.of_Z 15 /\ F32.gt (elapsed_ms 25 10) F32.zero = true.
Proof.
  destruct (elapsed_ms_positive 25 10) as [H1 [_ [_ [H3 _]]]]; try lia.
  split; [exact H1 | exact H3].
Defined.

Lemma trim_held_sample :
  exists o,
    attitudeUpdated (Examples.bus_at 10 (F32.of_Z 25)) (initial_data 0) = Some o /\
    (inputs (data o)).[ROLL] = (inputs (initial_data 0)).[ROLL].
Proof.
  destruct (trim_held_when_unavailable (Examples.bus_at 10 (F32.of_Z 25)) ROLL) as [_ H];
    [exact I | ].
  assert (E : attitudeUpdated (Examples.bus_at 10 (F32.of_Z 25)) (initial_data 0)
              = Examples.quiet_outcome) by (vm_compute; reflexivity).
  unfold Examples.quiet_outcome in E.
  eexists. split; [exact E | ].
  apply (H _ _ E).
Defined.

Lemma attitude_filter_contraction_sample :
  (Spec.lowpass_exact 100 10 0 10 - 10 == 100 / (100 + 10) * (0 - 10))%Q.
Proof.
  destruct attitude_filter_contraction as [H _].
  destruct (H 100%Q 10%Q 0%Q 10%Q) as [E _]; [reflexivity | reflexivity | exact E].
Defined.

(* ================================================================== *)
(** * The axes of one invocation *)
(* ================================================================== *)

Lemma axis_state_eq csd csd' i :
  axis_state csd i = axis_state csd' i <->
  (inputs csd).[i] = (inputs csd').[i] /\
  (attitudeFiltered csd).[i] = (attitudeFiltered csd').[i] /\
  (ffLastAttitude csd).[i] = (ffLastAttitude csd').[i] /\
  (ffLastAttitudeFiltered csd).[i] = (ffLastAttitudeFiltered csd').[i] /\
  (ffFilterAccumulator csd).[i] = (ffFilterAccumulator csd').[i].
Proof.
  unfold axis_state. split.
  - intros H. injection H as H1 H2 H3 H4 H5. auto.
  - intros [-> [-> [-> [-> ->]]]]. reflexivity.
Qed.

Lemma process_input_frame b dT i j csd csd1 :
  process_input b dT i csd = Some csd1 -> i <> j ->
  axis_state csd1 j = axis_state csd j /\ lastSysTime csd1 = lastSysTime csd.
Proof.
  unfold process_input. intros H Hij.
  destruct ((Input (cameraStab b)).[i]); [ | now injection H as <-].
  destruct (accessoryVal b instId); [ | now injection H as <-].
  destruct ((StabilizationMode (cameraStab b)).[i]); [ | | discriminate].
  - injection H as <-. unfold axis_state. simpl. now rewrite get_set_other.
  - destruct (fabs_gt _ _); injection H as <-; [ | now split].
    unfold axis_state. simpl. now rewrite get_set_other.
Qed.

Lemma feed_forward_frame b dT i j attitude csd a' csd' :
  feed_forward b dT i attitude csd = Some (a', csd') -> i <> j ->
  axis_state csd' j = axis_state csd j /\ lastSysTime csd' = lastSysTime csd.
Proof.
  unfold feed_forward, applyFeedForward. intros H Hij.
  destruct (nonzero _); [ | now injection H as _ <-].
  destruct (gimbalTypeCorrection b i); [ | discriminate].
  destruct (ff_accumulate _ _ _ _ _ _ _ _) as [att acc].
  injection H as _ <-. unfold axis_state. simpl.
  now rewrite !get_set_other.
Qed.

(** One iteration of the loop writes the data of its own axis only, and
    not the time stamp. *)
Lemma process_axis_frame b dT i j csd csd' out :
  process_axis b dT i csd = Some (csd', out) -> i <> j ->
  axis_state csd' j = axis_state csd j /\ lastSysTime csd' = lastSysTime csd.
Proof.
  unfold process_axis. intros H Hij.
  destruct (process_input b dT i csd) as [csd1 | ] eqn:E1; [ | discriminate].
  apply process_input_frame with (j := j) in E1; [ | exact Hij].
  unfold filter_attitude in H.
  destruct (feed_forward _ _ _ _ _) as [[a2 csd3] | ] eqn:E3; [ | discriminate].
  apply feed_forward_frame with (j := j) in E3; [ | exact Hij].
  injection H as <- _. destruct E1 as [E1 T1], E3 as [E3 T3].
  split; [ | now rewrite T3].
  rewrite E3, <- E1. unfold axis_state. simpl. now rewrite get_set_other.
Qed.

Lemma process_axis_lastSysTime b dT i csd csd' out :
  process_axis b dT i csd = Some (csd', out) -> lastSysTime csd' = lastSysTime csd.
Proof.
  intros H. destruct i.
  - now apply (process_axis_frame b dT ROLL PITCH csd csd' out H).
  - now apply (process_axis_frame b dT PITCH ROLL csd csd' out H).
  - now apply (process_axis_frame b dT YAW ROLL csd csd' out H).
Qed.

(** What one iteration computes for its axis depends on the data of
    that axis only. *)
Ltac axis_fields :=
  cbn [set_inputs set_attitudeFiltered set_ffLastAttitude set_ffFilterAccumulator
       set_ffLastAttitudeFiltered inputs attitudeFiltered ffLastAttitude
       ffLastAttitudeFiltered ffFilterAccumulator].

Lemma process_axis_local b dT i csd1 csd2 :
  axis_state csd1 i = axis_state csd2 i ->
  match process_axis b dT i csd1, process_axis b dT i csd2 with
  | Some (c1, o1), Some (c2, o2) => axis_state c1 i = axis_state c2 i /\ o1 = o2
  | None, None => True
  | _, _ => False
  end.
Proof.
  intros H. apply axis_state_eq in H. destruct H as [H1 [H2 [H3 [H4 H5]]]].
  assert (Hff : forall c1 c2 : CameraStab_data,
            (inputs c1).[i] = (inputs c2).[i] ->
            attitudeFiltered c1 = attitudeFiltered csd1 ->
            attitudeFiltered c2 = attitudeFiltered csd2 ->
            ffLastAttitude c1 = ffLastAttitude csd1 ->
            ffLastAttitude c2 = ffLastAttitude csd2 ->
            ffLastAttitudeFiltered c1 = ffLastAttitudeFiltered csd1 ->
            ffLastAttitudeFiltered c2 = ffLastAttitudeFiltered csd2 ->
            ffFilterAccumulator c1 = ffFilterAccumulator csd1 ->
            ffFilterAccumulator c2 = ffFilterAccumulator csd2 ->
            match
              (let '(a, c) := filter_attitude b dT i (attitudeActual b).[i] c1 in
               match feed_forward b dT i a c with
               | Some (a', c') =>
                 Some (c', output_of a' (inputs c').[i] (OutputRange (cameraStab b)).[i])
               | None => None
               end),
              (let '(a, c) := filter_attitude b dT i (attitudeActual b).[i] c2 in
               match feed_forward b dT i a c with
               | Some (a', c') =>
                 Some (c', output_of a' (inputs c').[i] (OutputRange (cameraStab b)).[i])
               | None => None
               end)
            with
            | Some (c1', o1), Some (c2', o2) => axis_state c1' i = axis_state c2' i /\ o1 = o2
            | None, None => True
            | _, _ => False
            end).
  { intros c1 c2 E1 F1 F2 L1 L2 LF1 LF2 A1 A2.
    unfold filter_attitude, feed_forward, applyFeedForward.
    destruct (nonzero _).
    - destruct (gimbalTypeCorrection b i); [ | exact I].
      axis_fields. rewrite F1, F2, L1, L2, LF1, LF2, A1, A2, H2, H3, H4, H5.
      destruct (ff_accumulate _ _ _ _ _ _ _ _) as [att acc].
      unfold axis_state; simpl; rewrite !get_set_same. now rewrite E1.
    - unfold axis_state; simpl; rewrite !get_set_same.
      now rewrite E1, F1, F2, L1, L2, LF1, LF2, A1, A2, H2, H3, H4, H5. }
  unfold process_axis, process_input.
  destruct ((Input (cameraStab b)).[i]) as [instId | ]; [ | now apply Hff].
  destruct (accessoryVal b instId) as [sample | ]; [ | now apply Hff].
  destruct ((StabilizationMode (cameraStab b)).[i]); [ | | exact I].
  - apply Hff; try reflexivity. simpl. now rewrite !get_set_same.
  - rewrite H1. destruct (fabs_gt _ _); [ | now apply Hff].
    apply Hff; try reflexivity. simpl. now rewrite !get_set_same.
Qed.

(** The axes processed later leave the data of an axis alone. *)
Lemma process_axes_frame b dT i axes :
  ~ In i axes ->
  forall csd done o,
    process_axes b dT axes csd done = Some o ->
    axis_state (data o) i = axis_state csd i /\ lastSysTime (data o) = lastSysTime csd.
Proof.
  induction axes as [ | j rest IH]; intros Hi csd done o H; simpl in H.
  - now inversion H.
  - destruct (process_axis b dT j csd) as [[csd' out] | ] eqn:Ej; [ | discriminate].
    apply IH in H; [ | intros Hin; apply Hi; now right].
    destruct H as [H T].
    apply process_axis_frame with (j := i) in Ej; [ | intros ->; apply Hi; now left].
    destruct Ej as [Ej Tj]. split; congruence.
Qed.

Lemma process_axes_lastSysTime b dT axes :
  forall csd done o,
    process_axes b dT axes csd done = Some o -> lastSysTime (data o) = lastSysTime csd.
Proof.
  induction axes as [ | j rest IH]; intros csd done o H; simpl in H.
  - now inversion H.
  - destruct (process_axis b dT j csd) as [[csd' out] | ] eqn:Ej; [ | discriminate].
    apply IH in H. apply process_axis_lastSysTime in Ej. congruence.
Qed.

Lemma process_axes_done b dT axes :
  forall csd done o,
    process_axes b dT axes csd done = Some o ->
    exists more, commands o = done ++ more /\ map fst more = axes.
Proof.
  induction axes as [ | j rest IH]; intros csd done o H; simpl in H.
  - inversion H. exists []. simpl. now rewrite app_nil_r.
  - destruct (process_axis b dT j csd) as [[csd' out] | ]; [ | discriminate].
    apply IH in H. destruct H as [more [E M]].
    exists ((j, out) :: more). rewrite E, <- app_assoc. simpl. now rewrite M.
Qed.

(** The loop over a list of distinct axes: the command of an axis and
    its data at the end are those of its own iteration, started from the
    data the axis had at the beginning. *)
Lemma process_axes_axis b dT i axes :
  NoDup axes -> In i axes ->
  forall csd done o,
    process_axes b dT axes csd done = Some o ->
    exists c c' out,
      axis_state c i = axis_state csd i /\ lastSysTime c = lastSysTime csd /\
      process_axis b dT i c = Some (c', out) /\
      axis_state (data o) i = axis_state c' i /\
      In (i, out) (commands o) /\
      (forall out', In (i, out') (commands o) -> In (i, out') done \/ out' = out).
Proof.
  induction axes as [ | j rest IH]; intros Hnd Hin csd done o H; [destruct Hin | ].
  simpl in H. inversion Hnd as [ | ? ? Hj Hrest]. subst.
  destruct (process_axis b dT j csd) as [[csd' outj] | ] eqn:Ej; [ | discriminate].
  destruct (axis_eq_dec j i) as [-> | Hne].
  - exists csd, csd', outj.
    pose proof (process_axes_frame b dT i rest Hj _ _ _ H) as [Hf _].
    pose proof (process_axes_done b dT rest _ _ _ H) as [more [E M]].
    repeat split; try assumption; try reflexivity.
    + rewrite E. apply in_or_app. left. apply in_or_app. right. now left.
    + intros out' Hin'. rewrite E in Hin'.
      apply in_app_or in Hin'. destruct Hin' as [Hin' | Hin'].
      * apply in_app_or in Hin'. destruct Hin' as [Hin' | [Hin' | []]]; [now left | ].
        right. congruence.
      * exfalso. apply Hj. rewrite <- M.
        change i with (fst (i, out')). now apply in_map.
  - destruct Hin as [-> | Hin]; [congruence | ].
    destruct (IH Hrest Hin _ _ _ H) as [c [c' [out [A [T [P [F [I1 I2]]]]]]]].
    pose proof (process_axis_frame b dT j i _ _ _ Ej Hne) as [Fj Tj].
    exists c, c', out. repeat split; try assumption; try congruence.
    intros out' Hin'. destruct (I2 out' Hin') as [Hd | ->]; [ | now right].
    apply in_app_or in Hd. destruct Hd as [Hd | [Hd | []]]; [now left | congruence].
Qed.

(** One invocation, axis by axis. *)
Lemma attitudeUpdated_axis b csd o i :
  ev_is_attitude b = true -> attitudeUpdated b csd = Some o ->
  exists c c' out,
    axis_state c i = axis_state csd i /\
    process_axis b (elapsed_ms (tickCount b) (lastSysTime csd)) i c = Some (c', out) /\
    axis_state (data o) i = axis_state c' i /\
    In (i, out) (commands o) /\
    (forall out', In (i, out') (commands o) -> out' = out).
Proof.
  intros Hev. unfold attitudeUpdated. rewrite Hev. simpl negb. cbv iota. intros H.
  assert (Hnd : NoDup [ROLL; PITCH; YAW]).
  { repeat constructor; simpl; intuition discriminate. }
  assert (Hin : In i [ROLL; PITCH; YAW]) by (destruct i; simpl; auto).
  destruct (process_axes_axis b _ i _ Hnd Hin _ _ _ H)
    as [c [c' [out [A [_ [P [F [I1 I2]]]]]]]].
  exists c, c', out. repeat split; try assumption.
  intros out' Hin'. now destruct (I2 out' Hin') as [[] | ->].
Qed.

(* ================================================================== *)
(** * When an invocation halts *)
(* ================================================================== *)

Lemma process_axis_halts b dT i csd :
  process_axis b dT i csd = None <-> axis_halts b i = true.
Proof.
  unfold process_axis, process_input, filter_attitude, feed_forward, applyFeedForward,
    axis_halts, input_halts, feed_forward_halts, gimbalTypeCorrection.
  destruct ((Input (cameraStab b)).[i]) as [instId | ];
    [destruct (accessoryVal b instId) as [sample | ];
       [destruct ((StabilizationMode (cameraStab b)).[i]);
          [ | destruct (fabs_gt _ _) | ] | ] | ];
    simpl orb;
    try (split; [reflexivity | reflexivity]);
    destruct (nonzero _); simpl andb;
    try (split; discriminate);
    destruct (GimbalType (cameraStab b));
    try (split; [reflexivity | reflexivity]);
    try (destruct i; split; discriminate);
    try (destruct (ff_accumulate _ _ _ _ _ _ _ _); split; discriminate).
Qed.

Lemma process_axes_halts b dT axes :
  forall csd done,
    process_axes b dT axes csd done = None <-> existsb (axis_halts b) axes = true.
Proof.
  induction axes as [ | j rest IH]; intros csd done; simpl.
  - split; discriminate.
  - destruct (process_axis b dT j csd) as [[csd' out] | ] eqn:Ej.
    + assert (Hj : axis_halts b j = false).
      { destruct (axis_halts b j) eqn:E; [ | reflexivity].
        apply (process_axis_halts b dT j csd) in E. congruence. }
      rewrite Hj. simpl. apply IH.
    + apply process_axis_halts in Ej. rewrite Ej. simpl. split; reflexivity.
Qed.

(** Whether an invocation halts is decided by the event and the
    settings alone. *)
Lemma attitudeUpdated_halts (b : bus) (csd : CameraStab_data) :
  attitudeUpdated b csd = None <->
  ev_is_attitude b && (axis_halts b ROLL || axis_halts b PITCH || axis_halts b YAW) = true.
Proof.
  unfold attitudeUpdated. destruct (ev_is_attitude b); simpl negb; cbv iota.
  - rewrite process_axes_halts. simpl. rewrite orb_false_r, orb_assoc. reflexivity.
  - simpl. split; discriminate.
Qed.

(** X1: an invocation halts exactly when the event is the attitude
    object and, for one of the axes, either a sample is read for the
    axis (an input channel is configured and its instance is available)
    with a stabilization mode that is neither Attitude nor AxisLock, or
    the feed-forward gain of the axis is not zero with a gimbal type that
    is none of the three options. The data of the module, the attitude
    and the clock play no part; in particular an invalid stabilization
    mode is not noticed while the axis has no input channel or the
    channel is not available, nor an invalid gimbal type while
    every feed-forward gain is zero. *)
Theorem attitudeUpdated_halts_iff (b : bus) (csd : CameraStab_data) :
  attitudeUpdated b csd = None <->
  ev_is_attitude b && (axis_halts b ROLL || axis_halts b PITCH || axis_halts b YAW) = true.
Proof. apply attitudeUpdated_halts. Qed.

(* ================================================================== *)
(** * The axes are independent *)
(* ================================================================== *)

(** X2: what an invocation does to an axis depends on the data of that
    axis only (and on the time stamp): from two module states that agree
    on the time stamp and on the trim, the filter value and the three
    feed-forward values of axis [i], the same bus gives the same command
    for [i] and the same five values afterwards, whatever the data of the
    other two axes are; and if it completes from one it completes from
    the other. *)
Theorem axes_do_not_interfere (b : bus) (csd csd' : CameraStab_data) (o : outcome)
    (i : axis) :
  lastSysTime csd = lastSysTime csd' ->
  axis_state csd i = axis_state csd' i ->
  attitudeUpdated b csd = Some o ->
  exists o',
    attitudeUpdated b csd' = Some o' /\
    axis_state (data o') i = axis_state (data o) i /\
    (forall out, In (i, out) (commands o') <-> In (i, out) (commands o)).
Proof.
  intros HT HS H.
  destruct (attitudeUpdated b csd') as [o' | ] eqn:H'.
  2:{ apply attitudeUpdated_halts in H'.
      apply (attitudeUpdated_halts b csd) in H'. congruence. }
  exists o'. split; [reflexivity | ].
  destruct (ev_is_attitude b) eqn:Hev.
  - destruct (attitudeUpdated_axis b csd o i Hev H) as [c [c1 [out [A [P [F [I1 I2]]]]]]].
    destruct (attitudeUpdated_axis b csd' o' i Hev H') as [d [d1 [out' [A' [P' [F' [I1' I2']]]]]]].
    assert (Hcd : axis_state c i = axis_state d i) by congruence.
    pose proof (process_axis_local b (elapsed_ms (tickCount b) (lastSysTime csd)) i c d Hcd)
      as HL.
    rewrite P in HL. rewrite <- HT in P'. rewrite P' in HL. destruct HL as [HL ->].
    split; [congruence | ].
    intros x. split; intros Hx.
    + apply I2' in Hx. now subst x.
    + apply I2 in Hx. now subst x.
  - unfold attitudeUpdated in H, H'. rewrite Hev in H, H'. simpl in H, H'.
    inversion H. inversion H'. simpl. split; [now symmetry | tauto].
Qed.

Lemma axes_do_not_interfere_sample :
  exists o o',
    attitudeUpdated (Examples.bus_at 10 (F32.of_Z 25)) (initial_data 0) = Some o /\
    attitudeUpdated (Examples.bus_at 10 (F32.of_Z 25))
      (set_inputs (initial_data 0) PITCH (F32.of_Z 7)) = Some o' /\
    axis_state (data o') ROLL = axis_state (data o) ROLL.
Proof.
  assert (E : attitudeUpdated (Examples.bus_at 10 (F32.of_Z 25)) (initial_data 0)
              = Examples.quiet_outcome) by (vm_compute; reflexivity).
  destruct Examples.quiet_outcome as [o | ] eqn:Q; [ | discriminate Q].
  destruct (axes_do_not_interfere (Examples.bus_at 10 (F32.of_Z 25)) (initial_data 0)
              (set_inputs (initial_data 0) PITCH (F32.of_Z 7)) o ROLL
              eq_refl eq_refl E) as [o' [E' [H _]]].
  exists o, o'. split; [exact E | split; [exact E' | exact H]].
Defined.

(* ================================================================== *)
(** * The time stamp *)
(* ================================================================== *)

(** X3: the time stamp follows the attitude events only. An event of
    another object leaves the module data as they are and writes no
    command; a completed invocation on an attitude event stores the tick
    count it read. So the time delta of an invocation is measured from
    the previous attitude event: when two attitude events at the ticks
    [t1] and [t2] follow each other, with or without an event of another
    object between them, the filter of the second one runs with
    [dT = t2 - t1] if [t1 < t2] and with the nominal 10 otherwise. *)
Theorem time_stamp_follows_attitude_events :
  (forall b csd, ev_is_attitude b = false ->
     attitudeUpdated b csd = Some {| data := csd; commands := [] |}) /\
  (forall b csd o, ev_is_attitude b = true -> attitudeUpdated b csd = Some o ->
     lastSysTime (data o) = tickCount b) /\
  (forall b1 b' b2 csd o1 o2 os i,
     ev_is_attitude b1 = true -> ev_is_attitude b' = false -> ev_is_attitude b2 = true ->
     0 <= tickCount b1 < 2 ^ 32 -> 0 <= tickCount b2 < 2 ^ 32 ->
     attitudeUpdated b1 csd = Some o1 ->
     (updates [b2] (data o1) = Some os \/ updates [b'; b2] (data o1) = Some os) ->
     last os o1 = o2 ->
     (attitudeFiltered (data o2)).[i] =
       lowpass (ResponseTime (cameraStab b2)).[i]
         (if (tickCount b1 <? tickCount b2)%Z
          then F32.of_Z (tickCount b2 - tickCount b1) else F32.of_Z 10)
         (attitudeFiltered (data o1)).[i] (attitudeActual b2).[i]).
Proof.
  assert (H1 : forall b csd, ev_is_attitude b = false ->
                 attitudeUpdated b csd = Some {| data := csd; commands := [] |}).
  { intros b csd Hev. unfold attitudeUpdated. now rewrite Hev. }
  assert (H2 : forall b csd o, ev_is_attitude b = true -> attitudeUpdated b csd = Some o ->
                 lastSysTime (data o) = tickCount b).
  { intros b csd o Hev. unfold attitudeUpdated. rewrite Hev. simpl negb. cbv iota.
    intros H. now apply process_axes_lastSysTime in H. }
  split; [exact H1 | split; [exact H2 | ]].
  intros b1 b' b2 csd o1 o2 os i Hev1 Hev' Hev2 Ht1 Ht2 E1 Hos Hlast.
  assert (E2 : attitudeUpdated b2 (data o1) = Some o2).
  { destruct Hos as [Hos | Hos]; simpl in Hos.
    - destruct (attitudeUpdated b2 (data o1)) as [o | ]; [ | discriminate].
      injection Hos as <-. simpl in Hlast. now subst o.
    - rewrite (H1 b' (data o1) Hev') in Hos. simpl in Hos.
      destruct (attitudeUpdated b2 (data o1)) as [o | ]; [ | discriminate].
      injection Hos as <-. simpl in Hlast. now subst o. }
  rewrite (attitudeUpdated_attitudeFiltered b2 (data o1) o2 i Hev2 E2).
  rewrite (H2 b1 csd o1 Hev1 E1).
  now rewrite elapsed_ms_cases.
Qed.

Lemma time_stamp_sample :
  attitudeUpdated
    {| ev_is_attitude := false; tickCount := 99; cameraStab := Examples.settings;
       attitudeActual := fill F32.zero; accessoryVal := fun _ => None |}
    (initial_data 0) = Some {| data := initial_data 0; commands := [] |}.
Proof.
  destruct time_stamp_follows_attitude_events as [H _].
  apply H. reflexivity.
Defined.

(* ================================================================== *)
(** * Start-up *)
(* ================================================================== *)

Lemma process_axis_unconfigured b dT i csd :
  (Input (cameraStab b)).[i] = INPUT_NONE ->
  nonzero (FeedForward (cameraStab b)).[i] = false ->
  process_axis b dT i csd =
    let a := lowpass (ResponseTime (cameraStab b)).[i] dT (attitudeFiltered csd).[i]
               (attitudeActual b).[i] in
    Some (set_attitudeFiltered csd i a,
          output_of a (inputs csd).[i] (OutputRange (cameraStab b)).[i]).
Proof.
  intros HI HF. unfold process_axis, process_input, filter_attitude, feed_forward.
  now rewrite HI, HF.
Qed.

Lemma first_update (t0 : Z) b o i :
  ev_is_attitude b = true -> attitudeUpdated b (initial_data t0) = Some o ->
  (Input (cameraStab b)).[i] = INPUT_NONE ->
  nonzero (FeedForward (cameraStab b)).[i] = false ->
  let f := lowpass (ResponseTime (cameraStab b)).[i]
             (elapsed_ms (tickCount b) t0) F32.zero (attitudeActual b).[i] in
  (attitudeFiltered (data o)).[i] = f /\
  In (i, bound (F32.div (F32.add f F32.zero) (OutputRange (cameraStab b)).[i]) F32.one)
     (commands o).
Proof.
  intros Hev E HI HF. cbv zeta.
  destruct (attitudeUpdated_axis b _ o i Hev E) as [c [c' [out [A [P [F [I1 _]]]]]]].
  rewrite (process_axis_unconfigured b _ i c HI HF) in P. cbv zeta in P.
  injection P as <- <-.
  apply axis_state_eq in A. destruct A as [A1 [A2 _]].
  apply axis_state_eq in F. destruct F as [_ [F2 _]].
  simpl in F2. rewrite get_set_same in F2.
  rewrite A1, A2 in I1. rewrite A2 in F2.
  replace (inputs (initial_data t0)).[i] with F32.zero in I1 by (destruct i; reflexivity).
  replace (attitudeFiltered (initial_data t0)).[i] with F32.zero in I1, F2
    by (destruct i; reflexivity).
  split; [exact F2 | exact I1].
Qed.

(** X4: [CameraStabInitialize] returns 0 when the module is enabled
    (built in, or switched on in the optional modules) and the allocation
    succeeds, and -1 otherwise. With 0 the module data are all zero with
    the time stamp of the call, and the update callback is created with a
    period of 10 ticks; with -1 the pointer is null and no callback is
    created, so the callback never runs without its data. The first
    attitude event after a successful start, with no input channel and
    no feed-forward gain on an axis, commands
    [bound(f / OutputRange, 1)] for it, where [f] is the filter's first
    step from zero over the time since the start. *)
Theorem startup_then_first_update (s : startup) :
  let rc := fst (CameraStabInitialize s) in
  let st := snd (CameraStabInitialize s) in
  (rc = 0 \/ rc = -1) /\
  (rc = 0 <-> (builtin s || optionalModule s) && allocated s = true) /\
  (rc = 0 ->
   csd_pointer st = Some (initial_data (startTick s)) /\ periodicCallback st = Some 10) /\
  (rc = -1 -> csd_pointer st = None /\ periodicCallback st = None) /\
  (periodicCallback st <> None -> csd_pointer st <> None) /\
  (forall csd b o i,
     csd_pointer st = Some csd ->
     ev_is_attitude b = true -> attitudeUpdated b csd = Some o ->
     (Input (cameraStab b)).[i] = INPUT_NONE ->
     nonzero (FeedForward (cameraStab b)).[i] = false ->
     let f := lowpass (ResponseTime (cameraStab b)).[i]
                (elapsed_ms (tickCount b) (startTick s)) F32.zero (attitudeActual b).[i] in
     (attitudeFiltered (data o)).[i] = f /\
     In (i, bound (F32.div (F32.add f F32.zero) (OutputRange (cameraStab b)).[i]) F32.one)
        (commands o)).
Proof.
  cbv zeta. unfold CameraStabInitialize.
  destruct (builtin s), (optionalModule s), (allocated s); cbn [fst snd orb andb csd_pointer periodicCallback];
    repeat match goal with |- _ /\ _ => split end;
    try (now left); try (now right); try reflexivity; try discriminate;
    try (intros; reflexivity); try (intros; discriminate); try tauto;
    try (intros csd b o i H; injection H as <-; apply first_update).
  all: split; discriminate.
Qed.

Lemma startup_sample :
  fst (CameraStabInitialize
         {| builtin := false; optionalModule := true; allocated := true; startTick := 7 |}) = 0 /\
  csd_pointer (snd (CameraStabInitialize
         {| builtin := false; optionalModule := true; allocated := true; startTick := 7 |}))
    = Some (initial_data 7).
Proof.
  pose proof (startup_then_first_update
         {| builtin := false; optionalModule := true; allocated := true; startTick := 7 |})
    as [_ [H1 [H2 _]]].
  split; [apply H1; reflexivity | apply H2; apply H1; reflexivity].
Defined.

(* ================================================================== *)
(** * A NaN attitude sample *)
(* ================================================================== *)

Lemma lowpass_nan (rt dT filtered attitude : float) :
  filtered = S754_nan \/ attitude = S754_nan ->
  lowpass rt dT filtered attitude = S754_nan.
Proof.
  unfold lowpass. intros [-> | ->].
  - replace (F32.mul rt S754_nan) with S754_nan by now destruct rt.
    reflexivity.
  - replace (F32.mul dT S754_nan) with S754_nan by now destruct dT.
    now destruct (F32.mul rt filtered).
Qed.

Lemma fabs_gt_nan (y : float) : fabs_gt S754_nan y = false.
Proof.
  unfold fabs_gt, F64.gt, SFltb. simpl. now destruct (F64.of_float y).
Qed.

Lemma output_of_nan (input range : float) : output_of S754_nan input range = S754_nan.
Proof. reflexivity. Qed.

Lemma feed_forward_nan b dT i csd a' csd' :
  feed_forward b dT i S754_nan csd = Some (a', csd') -> a' = S754_nan.
Proof.
  unfold feed_forward, applyFeedForward, ff_accumulate, ff_limit.
  destruct (nonzero _); [ | now intros H; injection H as <- _].
  destruct (gimbalTypeCorrection b i) as [corr | ]; [ | discriminate].
  intros H. injection H as <- _.
  replace (F32.sub S754_nan (ffLastAttitude csd).[i]) with S754_nan by reflexivity.
  replace (F32.mul S754_nan (FeedForward (cameraStab b)).[i]) with S754_nan by reflexivity.
  replace (F32.mul S754_nan corr) with S754_nan by reflexivity.
  replace (F32.add (ffFilterAccumulator csd).[i] S754_nan) with S754_nan
    by now destruct ((ffFilterAccumulator csd).[i]).
  cbn. now rewrite fabs_gt_nan.
Qed.

Lemma process_axis_nan b dT i c c' out :
  (attitudeFiltered c).[i] = S754_nan \/ (attitudeActual b).[i] = S754_nan ->
  process_axis b dT i c = Some (c', out) ->
  (attitudeFiltered c').[i] = S754_nan /\ out = S754_nan.
Proof.
  intros Hn H.
  pose proof (process_axis_attitudeFiltered b dT i c c' out H) as Ef.
  split; [rewrite Ef, get_set_same; now apply lowpass_nan | ].
  unfold process_axis in H.
  destruct (process_input b dT i c) as [c1 | ] eqn:E1; [ | discriminate].
  apply process_input_attitudeFiltered in E1.
  unfold filter_attitude in H. rewrite E1 in H.
  rewrite (lowpass_nan _ dT _ _ Hn) in H.
  destruct (feed_forward _ _ _ _ _) as [[a2 c3] | ] eqn:E3; [ | discriminate].
  apply feed_forward_nan in E3. subst a2. now injection H as _ <-.
Qed.

Lemma attitudeUpdated_nan b csd o i :
  (attitudeFiltered csd).[i] = S754_nan \/
  (ev_is_attitude b = true /\ (attitudeActual b).[i] = S754_nan) ->
  attitudeUpdated b csd = Some o ->
  (attitudeFiltered (data o)).[i] = S754_nan /\
  (forall out, In (i, out) (commands o) -> out = S754_nan).
Proof.
  intros Hn H. destruct (ev_is_attitude b) eqn:Hev.
  - destruct (attitudeUpdated_axis b csd o i Hev H) as [c [c' [out [A [P [F [_ I2]]]]]]].
    apply axis_state_eq in A. destruct A as [_ [A2 _]].
    apply axis_state_eq in F. destruct F as [_ [F2 _]].
    assert (Hc : (attitudeFiltered c).[i] = S754_nan \/ (attitudeActual b).[i] = S754_nan).
    { destruct Hn as [Hn | [_ Hn]]; [left; congruence | now right]. }
    destruct (process_axis_nan b _ i c c' out Hc P) as [N1 N2].
    split; [congruence | ]. intros out' Hin. rewrite (I2 out' Hin). exact N2.
  - destruct Hn as [Hn | [Hn _]]; [ | discriminate].
    unfold attitudeUpdated in H. rewrite Hev in H. simpl in H. injection H as <-.
    split; [exact Hn | intros out []].
Qed.

(** X5: a NaN is never flushed from the attitude filter. Once the
    attitude sample of an axis is NaN on one attitude event, the filter
    value of that axis is NaN after that invocation and after every
    later one, and every command written for the axis from then on is
    NaN, whatever the settings, the later samples and the time deltas
    are: neither the filter, nor the feed-forward with its acceleration
    limit, nor [bound] replaces it. *)
Theorem nan_sample_is_never_flushed (b : bus) (bs : list bus) (csd : CameraStab_data)
    (o : outcome) (os : list outcome) (i : axis) :
  ev_is_attitude b = true -> (attitudeActual b).[i] = S754_nan ->
  attitudeUpdated b csd = Some o -> updates bs (data o) = Some os ->
  Forall (fun o' => (attitudeFiltered (data o')).[i] = S754_nan /\
                    forall out, In (i, out) (commands o') -> out = S754_nan)
         (o :: os).
Proof.
  intros Hev Hn H Hos.
  pose proof (attitudeUpdated_nan b csd o i (or_intror (conj Hev Hn)) H) as Ho.
  constructor; [exact Ho | ].
  destruct Ho as [Hf _]. clear H Hev Hn b csd.
  revert o os Hf Hos. induction bs as [ | b rest IH]; intros o os Hf Hos; simpl in Hos.
  - injection Hos as <-. constructor.
  - destruct (attitudeUpdated b (data o)) as [o1 | ] eqn:E1; [ | discriminate].
    destruct (updates rest (data o1)) as [os1 | ] eqn:E2; [ | discriminate].
    injection Hos as <-.
    pose proof (attitudeUpdated_nan b (data o) o1 i (or_introl Hf) E1) as Ho1.
    constructor; [exact Ho1 | ].
    destruct Ho1 as [Hf1 _]. now apply (IH o1).
Qed.

Lemma nan_sample_run :
  exists o os,
    attitudeUpdated (Runs.nan_bus 10) (initial_data 0) = Some o /\
    updates [Examples.bus_at 20 (F32.of_Z 25); Examples.bus_at 30 (F32.of_Z 25)] (data o)
      = Some os /\
    length os = 2%nat /\
    Forall (fun o' => (attitudeFiltered (data o')).[ROLL] = S754_nan /\
                      forall out, In (ROLL, out) (commands o') -> out = S754_nan)
           (o :: os).
Proof.
  assert (E1 : attitudeUpdated (Runs.nan_bus 10) (initial_data 0) = Runs.nan_outcome)
    by (vm_compute; reflexivity).
  destruct Runs.nan_outcome as [o | ] eqn:Q1; [ | discriminate Q1].
  assert (E2 : updates [Examples.bus_at 20 (F32.of_Z 25); Examples.bus_at 30 (F32.of_Z 25)]
                 (data o) = Runs.nan_followers).
  { injection Q1 as <-. vm_compute. reflexivity. }
  destruct Runs.nan_followers as [os | ] eqn:Q2; [ | discriminate Q2].
  exists o, os. split; [exact E1 | split; [exact E2 | split]].
  - injection Q2 as <-. reflexivity.
  - exact (nan_sample_is_never_flushed (Runs.nan_bus 10) _ (initial_data 0) o os ROLL
             eq_refl eq_refl E1 E2).
Defined.

(* ================================================================== *)
(** * More on the bounding utility *)
(* ================================================================== *)

Section MoreOrder.

Ltac order_cases :=
  rewrite ?Pos.compare_cont_spec; simpl;
  repeat match goal with
         | |- context [Z.compare ?x ?y] => destruct (Z.compare_spec x y)
         | |- context [Pos.compare ?x ?y] => destruct (Pos.compare_spec x y)
         end; simpl; intros; try congruence; try lia.

Lemma SFltb_irrefl (x : spec_float) : SFltb x x = false.
Proof.
  unfold SFltb. destruct (is_nan x) eqn:E.
  - now destruct x.
  - now rewrite SFcompare_refl.
Qed.

Lemma SFopp_involutive (x : spec_float) : SFopp (SFopp x) = x.
Proof. destruct x as [s | s | | s m e]; simpl; now rewrite ?negb_involutive. Qed.

Lemma SFcompare_opp (a b : spec_float) :
  SFcompare (SFopp a) (SFopp b) = SFcompare b a.
Proof.
  destruct a as [sa | sa | | sa ma ea], b as [sb | sb | | sb mb eb];
    try destruct sa; try destruct sb; simpl; try reflexivity;
    rewrite (Z.compare_antisym ea eb);
    destruct (ea ?= eb)%Z; simpl; try reflexivity;
    rewrite !Pos.compare_cont_spec; simpl;
    rewrite (Pos.compare_antisym ma mb);
    destruct (ma ?= mb)%positive; reflexivity.
Qed.

Lemma SFltb_opp (a b : spec_float) : SFltb (SFopp a) (SFopp b) = SFltb b a.
Proof. unfold SFltb. now rewrite SFcompare_opp. Qed.

Lemma SFleb_opp (a b : spec_float) : SFleb (SFopp a) (SFopp b) = SFleb b a.
Proof. unfold SFleb. now rewrite SFcompare_opp. Qed.

Lemma SFltb_SFleb_trans (a b c : spec_float) :
  SFltb a b = true -> SFleb b c = true -> SFltb a c = true.
Proof.
  unfold SFltb, SFleb, SFcompare.
  destruct a as [sa | sa | | sa ma ea], b as [sb | sb | | sb mb eb],
           c as [sc | sc | | sc mc ec];
    try destruct sa; try destruct sb; try destruct sc;
    try congruence; try reflexivity; order_cases.
Qed.

Lemma SFleb_SFltb_trans (a b c : spec_float) :
  SFleb a b = true -> SFltb b c = true -> SFltb a c = true.
Proof.
  unfold SFltb, SFleb, SFcompare.
  destruct a as [sa | sa | | sa ma ea], b as [sb | sb | | sb mb eb],
           c as [sc | sc | | sc mc ec];
    try destruct sa; try destruct sb; try destruct sc;
    try congruence; try reflexivity; order_cases.
Qed.

Lemma SFleb_not_nan_l (a b : spec_float) : SFleb a b = true -> is_nan a = false.
Proof. unfold SFleb. now destruct a, b. Qed.

Lemma SFleb_not_nan_r (a b : spec_float) : SFleb a b = true -> is_nan b = false.
Proof. unfold SFleb. destruct a, b; simpl; congruence. Qed.

Lemma SFltb_not_nan_l (a b : spec_float) : SFltb a b = true -> is_nan a = false.
Proof. unfold SFltb. now destruct a, b. Qed.

Lemma SFltb_not_nan_r (a b : spec_float) : SFltb a b = true -> is_nan b = false.
Proof. unfold SFltb. destruct a, b; simpl; congruence. Qed.

(** A limit that is not negative is not below its negation. *)
Lemma nonneg_limit (l : spec_float) :
  SFleb (S754_zero false) l = true -> SFltb l (SFopp l) = false.
Proof. intros H. apply SFleb_SFltb_false. now apply SFleb_opp_self. Qed.

End MoreOrder.

(** X6: [bound] is idempotent for a limit that is not negative:
    bounding a bounded value again changes nothing, whatever the value
    is. *)
Theorem bound_idempotent (v l : float) :
  F32.le F32.zero l = true -> bound (bound v l) l = bound v l.
Proof.
  intros Hl. unfold F32.le, F32.zero in Hl.
  pose proof (nonneg_limit l Hl) as Hn.
  destruct (bound_cases v l) as [[_ E] | [[_ [_ E]] | [G [L E]]]]; rewrite E.
  - unfold bound, F32.gt, F32.lt, F32.neg. now rewrite SFltb_irrefl, Hn.
  - unfold bound, F32.gt, F32.lt, F32.neg. now rewrite Hn, SFltb_irrefl.
  - unfold bound. now rewrite G, L.
Qed.

Lemma bound_idempotent_sample :
  bound (bound (F32.of_Z 30) (F32.of_Z 20)) (F32.of_Z 20) = bound (F32.of_Z 30) (F32.of_Z 20).
Proof. apply bound_idempotent. reflexivity. Defined.

Lemma bound_opp (v l : float) :
  F32.le F32.zero l = true -> bound (F32.neg v) l = F32.neg (bound v l).
Proof.
  intros Hl. unfold F32.le, F32.zero in Hl.
  pose proof (nonneg_limit l Hl) as Hn.
  unfold bound, F32.gt, F32.lt, F32.neg.
  rewrite <- (SFopp_involutive l) at 1. rewrite SFltb_opp, SFltb_opp.
  destruct (SFltb l v) eqn:G, (SFltb v (SFopp l)) eqn:L;
    try reflexivity; try now rewrite SFopp_involutive.
  exfalso.
  assert (H : SFltb l (SFopp l) = true) by now apply SFltb_trans with (b := v).
  congruence.
Qed.

(** X7: [bound] is an odd function of the value for a limit that is
    not negative: negating the value negates the result, signed zeros
    included. *)
Theorem bound_odd (v l : float) :
  F32.le F32.zero l = true -> bound (F32.neg v) l = F32.neg (bound v l).
Proof. apply bound_opp. Qed.

Lemma bound_odd_sample :
  bound (F32.neg (F32.of_Z 30)) (F32.of_Z 20) = F32.neg (bound (F32.of_Z 30) (F32.of_Z 20)).
Proof. apply bound_odd. reflexivity. Defined.

(** X8: [bound] is monotone in the value for a limit that is not
    negative: of two numbers the larger one does not get the smaller
    result. *)
Theorem bound_monotone (v w l : float) :
  F32.le F32.zero l = true -> F32.le v w = true ->
  F32.le (bound v l) (bound w l) = true.
Proof.
  intros Hl Hvw. unfold F32.le, F32.zero in *.
  pose proof (SFleb_nonneg_not_nan l Hl) as Hnl.
  pose proof (SFleb_not_nan_l v w Hvw) as Hnv.
  pose proof (SFleb_not_nan_r v w Hvw) as Hnw.
  assert (Hnl' : is_nan (SFopp l) = false) by now rewrite is_nan_opp.
  pose proof (SFleb_opp_self l Hl) as Hll.
  destruct (bound_cases v l) as [[Gv Ev] | [[Gv [Lv Ev]] | [Gv [Lv Ev]]]];
    destruct (bound_cases w l) as [[Gw Ew] | [[Gw [Lw Ew]] | [Gw [Lw Ew]]]];
    rewrite Ev, Ew; unfold F32.gt, F32.lt, F32.neg in *.
  - now apply SFleb_refl.
  - pose proof (SFltb_SFleb_trans l v w Gv Hvw). congruence.
  - pose proof (SFltb_SFleb_trans l v w Gv Hvw). congruence.
  - exact Hll.
  - now apply SFleb_refl.
  - now apply SFltb_false_SFleb.
  - now apply SFltb_false_SFleb.
  - pose proof (SFleb_SFltb_trans v w (SFopp l) Hvw Lw). congruence.
  - exact Hvw.
Qed.

Lemma bound_monotone_sample :
  F32.le (bound (F32.of_Z 5) (F32.of_Z 20)) (bound (F32.of_Z 30) (F32.of_Z 20)) = true.
Proof. apply bound_monotone; reflexivity. Defined.

(** X9: with a negative limit [bound] never returns the value: a number
    above the limit comes out as the limit, and a number at or below it
    as the negation of the limit, so the result always has the magnitude
    of the limit. *)
Theorem bound_negative_limit (v l : float) :
  F32.lt l F32.zero = true -> is_nan v = false ->
  (F32.gt v l = true -> bound v l = l) /\
  (F32.le v l = true -> bound v l = F32.neg l) /\
  (bound v l = l \/ bound v l = F32.neg l) /\
  bound v l <> v.
Proof.
  intros Hl Hv. unfold F32.lt, F32.gt, F32.le, F32.zero, F32.neg in *.
  pose proof (SFltb_not_nan_l _ _ Hl) as Hnl.
  assert (Hopp : SFltb l (SFopp l) = true).
  { destruct l as [s | [ | ] | | [ | ] m e]; try discriminate; reflexivity. }
  assert (H1 : SFltb l v = true -> bound v l = l).
  { intros G. unfold bound, F32.gt. now rewrite G. }
  assert (H2 : SFleb v l = true -> bound v l = SFopp l).
  { intros L. unfold bound, F32.gt, F32.lt, F32.neg.
    rewrite (SFleb_SFltb_false v l L).
    now rewrite (SFleb_SFltb_trans v l (SFopp l) L Hopp). }
  split; [exact H1 | split; [exact H2 | ]].
  destruct (SFltb l v) eqn:G.
  - split; [left; now apply H1 | ].
    rewrite (H1 eq_refl). intros ->. rewrite SFltb_irrefl in G. discriminate.
  - pose proof (SFltb_false_SFleb v l Hv Hnl G) as L.
    split; [right; now apply H2 | ].
    rewrite (H2 L). intros E.
    pose proof (SFleb_SFltb_trans v l (SFopp l) L Hopp) as H.
    rewrite <- E in H. rewrite SFltb_irrefl in H. discriminate.
Qed.

Lemma bound_negative_limit_sample :
  bound (F32.of_Z 3) (F32.neg (F32.of_Z 20)) = F32.neg (F32.of_Z 20).
Proof.
  destruct (bound_negative_limit (F32.of_Z 3) (F32.neg (F32.of_Z 20))) as [H _];
    [reflexivity | reflexivity | ].
  apply H. reflexivity.
Defined.

(* ================================================================== *)
(** * The output mapper at its edges *)
(* ================================================================== *)

(** X10: with an output range of zero the command is no number when the
    sum of attitude and trim is zero (or no number itself), and is a full
    deflection otherwise: +1 when the sum and the zero of the range have
    the same sign, -1 when they differ. *)
Theorem output_with_zero_range (attitude input range : float) :
  is_zero range = true ->
  let sum := F32.add attitude input in
  (is_zero sum = true \/ is_nan sum = true ->
   output_of attitude input range = S754_nan) /\
  (F32.gt sum F32.zero = true ->
   output_of attitude input range =
     match range with S754_zero false => F32.one | _ => F32.neg F32.one end) /\
  (F32.lt sum F32.zero = true ->
   output_of attitude input range =
     match range with S754_zero false => F32.neg F32.one | _ => F32.one end).
Proof.
  intros Hr. cbv zeta. unfold output_of.
  destruct range as [sr | sr | | sr mr er]; try discriminate.
  destruct (F32.add attitude input) as [s | s | | s m e];
    (split; [intros [H | H] | split; intros H]);
    try discriminate H; try reflexivity;
    destruct s, sr; try reflexivity; discriminate H.
Qed.

Lemma output_with_zero_range_sample :
  output_of (F32.of_Z 3) (F32.of_Z 2) F32.zero = F32.one /\
  output_of (F32.of_Z 3) (F32.neg (F32.of_Z 3)) F32.zero = S754_nan.
Proof.
  destruct (output_with_zero_range (F32.of_Z 3) (F32.of_Z 2) F32.zero eq_refl)
    as [_ [H _]].
  destruct (output_with_zero_range (F32.of_Z 3) (F32.neg (F32.of_Z 3)) F32.zero eq_refl)
    as [H' _].
  split; [apply H; reflexivity | apply H'; left; reflexivity].
Defined.

(* ================================================================== *)
(** * The command and the data left behind *)
(* ================================================================== *)

Lemma process_axis_command b dT i c c' out :
  process_axis b dT i c = Some (c', out) ->
  out = output_of
          (if nonzero (FeedForward (cameraStab b)).[i]
           then (ffLastAttitudeFiltered c').[i] else (attitudeFiltered c').[i])
          (inputs c').[i] (OutputRange (cameraStab b)).[i] /\
  (if nonzero (FeedForward (cameraStab b)).[i]
   then (ffLastAttitude c').[i] = (attitudeFiltered c').[i]
   else (ffLastAttitude c').[i] = (ffLastAttitude c).[i] /\
        (ffLastAttitudeFiltered c').[i] = (ffLastAttitudeFiltered c).[i] /\
        (ffFilterAccumulator c').[i] = (ffFilterAccumulator c).[i]).
Proof.
  unfold process_axis.
  destruct (process_input b dT i c) as [c1 | ] eqn:E1; [ | discriminate].
  assert (F1 : ffLastAttitude c1 = ffLastAttitude c /\
               ffLastAttitudeFiltered c1 = ffLastAttitudeFiltered c /\
               ffFilterAccumulator c1 = ffFilterAccumulator c).
  { unfold process_input in E1.
    destruct ((Input (cameraStab b)).[i]); [ | now injection E1 as <-].
    destruct (accessoryVal b instId); [ | now injection E1 as <-].
    destruct ((StabilizationMode (cameraStab b)).[i]); [ | | discriminate].
    - now injection E1 as <-.
    - destruct (fabs_gt _ _); now injection E1 as <-. }
  destruct F1 as [F1 [F2 F3]].
  unfold filter_attitude, feed_forward, applyFeedForward.
  destruct (nonzero _).
  - destruct (gimbalTypeCorrection b i) as [corr | ]; [ | discriminate].
    destruct (ff_accumulate _ _ _ _ _ _ _ _) as [att acc].
    intros H. injection H as <- <-. simpl. rewrite !get_set_same. now split.
  - intros H. injection H as <- <-. simpl. rewrite F1, F2, F3, get_set_same. now split.
Qed.

(** X11: the commands of an invocation can be read off the data it
    leaves behind. On an axis whose feed-forward gain is not zero the
    command is [bound((ffLastAttitudeFiltered + inputs) / OutputRange, 1)]
    of the values stored at the end, and [ffLastAttitude] then equals
    [attitudeFiltered]: the feed-forward differentiates the filtered
    attitude. On an axis whose gain is zero the command is
    [bound((attitudeFiltered + inputs) / OutputRange, 1)] and the three
    feed-forward values of the axis are left as they were. *)
Theorem command_from_data (b : bus) (csd : CameraStab_data) (o : outcome) (i : axis) :
  ev_is_attitude b = true -> attitudeUpdated b csd = Some o ->
  let range := (OutputRange (cameraStab b)).[i] in
  let trim := (inputs (data o)).[i] in
  (nonzero (FeedForward (cameraStab b)).[i] = true ->
   In (i, bound (F32.div (F32.add (ffLastAttitudeFiltered (data o)).[i] trim) range) F32.one)
      (commands o) /\
   (ffLastAttitude (data o)).[i] = (attitudeFiltered (data o)).[i]) /\
  (nonzero (FeedForward (cameraStab b)).[i] = false ->
   In (i, bound (F32.div (F32.add (attitudeFiltered (data o)).[i] trim) range) F32.one)
      (commands o) /\
   (ffLastAttitude (data o)).[i] = (ffLastAttitude csd).[i] /\
   (ffLastAttitudeFiltered (data o)).[i] = (ffLastAttitudeFiltered csd).[i] /\
   (ffFilterAccumulator (data o)).[i] = (ffFilterAccumulator csd).[i]).
Proof.
  intros Hev H. cbv zeta.
  destruct (attitudeUpdated_axis b csd o i Hev H) as [c [c' [out [A [P [F [I1 _]]]]]]].
  apply axis_state_eq in A. destruct A as [A1 [A2 [A3 [A4 A5]]]].
  apply axis_state_eq in F. destruct F as [F1 [F2 [F3 [F4 F5]]]].
  destruct (process_axis_command b _ i c c' out P) as [Eo Es].
  rewrite F1, F2, F3, F4, F5. unfold output_of in Eo.
  split; intros Hnz; rewrite Hnz in Eo, Es; subst out.
  - split; [exact I1 | exact Es].
  - destruct Es as [E3 [E4 E5]]. repeat split; try exact I1; congruence.
Qed.

Lemma command_from_data_sample :
  exists o,
    attitudeUpdated (Examples.smooth_bus 10 (F32.of_Z 25)) (initial_data 0) = Some o /\
    In (ROLL, bound (F32.div (F32.add (attitudeFiltered (data o)).[ROLL]
                                      (inputs (data o)).[ROLL]) (F32.of_Z 20)) F32.one)
       (commands o).
Proof.
  assert (E : attitudeUpdated (Examples.smooth_bus 10 (F32.of_Z 25)) (initial_data 0)
              = Examples.smooth_outcome) by (vm_compute; reflexivity).
  destruct Examples.smooth_outcome as [o | ] eqn:Q; [ | discriminate Q].
  exists o. split; [exact E | ].
  destruct (command_from_data (Examples.smooth_bus 10 (F32.of_Z 25)) (initial_data 0) o ROLL
              eq_refl E) as [_ H].
  now destruct (H eq_refl) as [H1 _].
Defined.

(* ================================================================== *)
(** * Signs *)
(* ================================================================== *)

Section Signs.
Variables prec emax : Z.

Lemma binary_round_aux_sign (sx : bool) (mx ex : Z) (lx : location) :
  0 <= mx -> signed_number sx (binary_round_aux prec emax sx mx ex lx).
Proof.
  intros Hm. unfold binary_round_aux.
  pose proof (shr_fexp_nonneg prec emax mx ex lx Hm) as H1.
  destruct (shr_fexp prec emax mx ex lx) as [mrs' e']. simpl in H1.
  pose proof (round_nearest_even_ge (shr_m mrs') (loc_of_shr_record mrs')) as H2.
  pose proof (shr_fexp_nonneg prec emax
                (round_nearest_even (shr_m mrs') (loc_of_shr_record mrs'))
                e' loc_Exact ltac:(lia)) as H3.
  destruct (shr_fexp prec emax _ e' loc_Exact) as [mrs'' e'']. simpl in H3.
  destruct (shr_m mrs'') as [ | m | m]; try lia; try reflexivity.
  now destruct (e'' <=? emax - prec).
Qed.

Lemma binary_round_sign (s : bool) (m : positive) (e : Z) :
  signed_number s (binary_round prec emax s m e).
Proof.
  unfold binary_round. destruct (shl_align m e _) as [mz ez].
  apply binary_round_aux_sign. lia.
Qed.

Lemma signed_not_negative (x : spec_float) :
  signed_number false x -> SFltb x (S754_zero false) = false.
Proof. destruct x as [s | s | | s m e]; simpl; try tauto; now intros ->. Qed.

(** The product of two numbers that are not negative is not negative. *)
Lemma SFmul_not_negative (x y : spec_float) :
  SFltb x (S754_zero false) = false -> SFltb y (S754_zero false) = false ->
  SFltb (SFmul prec emax x y) (S754_zero false) = false.
Proof.
  destruct x as [sx | [ | ] | | [ | ] mx ex], y as [sy | [ | ] | | [ | ] my ey];
    try discriminate; try reflexivity; intros _ _;
    try (now destruct sx); try (now destruct sy); try (now destruct sx, sy).
  simpl. apply signed_not_negative. apply binary_round_aux_sign. lia.
Qed.

(** A difference [x - x] of a finite number is the positive zero. *)
Lemma SFsub_diag (x : spec_float) :
  is_finite x = true -> SFsub prec emax x x = S754_zero false.
Proof.
  destruct x as [s | s | | s m e]; try discriminate; intros _; simpl.
  - now destruct s.
  - now rewrite Z.sub_diag.
Qed.

End Signs.

Lemma of_float_not_negative (y : float) :
  SFltb y (S754_zero false) = false -> SFltb (F64.of_float y) (S754_zero false) = false.
Proof.
  destruct y as [s | s | | [ | ] m e]; try discriminate; try (intros H; exact H).
  intros _. simpl. apply signed_not_negative. apply binary_round_sign.
Qed.

(** [fabs(0) > y] is false when [y] is not negative. *)
Lemma fabs_gt_zero (s : bool) (y : float) :
  SFltb y (S754_zero false) = false -> fabs_gt (S754_zero s) y = false.
Proof.
  intros H. unfold fabs_gt, F64.gt, F64.fabs. simpl. now apply of_float_not_negative.
Qed.

(* ================================================================== *)
(** * The feed-forward at rest *)
(* ================================================================== *)

Lemma sub_diag (a : float) : is_finite a = true -> F32.sub a a = F32.zero.
Proof. apply SFsub_diag. Qed.

Lemma add_zero_r (a : float) :
  is_finite a = true -> a <> S754_zero true -> F32.add a F32.zero = a.
Proof.
  destruct a as [[ | ] | s | | s m e]; try discriminate; try reflexivity.
  intros _ H. now elim H.
Qed.

(** The divisor of the decay is a positive number: 1 or above. *)
Lemma clamped_filter_positive (filter : float) :
  is_nan filter = false ->
  F32.div F32.zero (if F32.lt filter F32.one then F32.one else filter) = F32.zero.
Proof.
  intros Hn. destruct (F32.lt filter F32.one) eqn:E; [reflexivity | ].
  destruct filter as [s | [ | ] | | [ | ] m e]; try discriminate; reflexivity.
Qed.

Lemma ff_accumulate_at_rest (dT a gain correction accel decel : float) :
  is_finite a = true -> a <> S754_zero true ->
  is_finite gain = true -> is_finite correction = true ->
  is_nan decel = false -> is_finite dT = true -> SFeqb dT F32.zero = false ->
  ff_accumulate dT a a gain correction accel decel F32.zero = (a, F32.zero).
Proof.
  intros Ha Hz Hg Hc Hd HdT HdT0. unfold ff_accumulate. cbv zeta.
  rewrite !(sub_diag a Ha).
  assert (E1 : exists s, F32.mul (F32.mul F32.zero gain) correction = S754_zero s).
  { destruct gain as [sg | sg | | sg mg eg]; try discriminate;
      destruct correction as [sc | sc | | sc mc ec]; try discriminate; simpl; eauto. }
  destruct E1 as [s ->].
  replace (F32.add F32.zero (S754_zero s)) with F32.zero by now destruct s.
  rewrite (add_zero_r a Ha Hz).
  replace (F32.gt F32.zero F32.zero) with false by reflexivity.
  rewrite clamped_filter_positive by now apply F32_div_not_nan.
  replace (F32.sub F32.zero F32.zero) with F32.zero by reflexivity.
  now rewrite (add_zero_r a Ha Hz).
Qed.

Lemma ff_limit_at_rest (dT maxAccel a : float) :
  is_finite a = true ->
  F32.lt maxAccel F32.zero = false -> F32.lt dT F32.zero = false ->
  ff_limit dT maxAccel a a = a.
Proof.
  intros Ha Hm HdT. unfold ff_limit.
  rewrite !(sub_diag a Ha). unfold F32.zero at 1.
  rewrite fabs_gt_zero; [reflexivity | ].
  apply SFmul_not_negative; [ | exact HdT].
  apply SFmul_not_negative; [exact Hm | reflexivity].
Qed.

Lemma applyFeedForward_at_rest (b : bus) (index : axis) (dT a : float)
    (csd : CameraStab_data) (correction : float) :
  gimbalTypeCorrection b index = Some correction -> is_finite correction = true ->
  is_finite a = true -> a <> S754_zero true ->
  is_finite (FeedForward (cameraStab b)).[index] = true ->
  is_nan (DecelTime (cameraStab b)).[index] = false ->
  F32.lt (MaxAccel (cameraStab b)) F32.zero = false ->
  is_finite dT = true -> F32.gt dT F32.zero = true ->
  (ffLastAttitude csd).[index] = a ->
  (ffLastAttitudeFiltered csd).[index] = a ->
  (ffFilterAccumulator csd).[index] = F32.zero ->
  exists csd',
    applyFeedForward b index dT a csd = Some (a, csd') /\
    axis_state csd' index = axis_state csd index.
Proof.
  intros Hc Hfc Ha Hz Hg Hd Hm HdT Hpos L1 L2 L3.
  unfold applyFeedForward. rewrite Hc, L1, L3.
  rewrite ff_accumulate_at_rest;
    try assumption; [ | now apply gt_zero_nonzero].
  cbn [set_ffLastAttitude set_ffFilterAccumulator ffLastAttitudeFiltered]. rewrite L2.
  rewrite ff_limit_at_rest; try assumption.
  - eexists. split; [reflexivity | ].
    unfold axis_state. simpl. rewrite !get_set_same. congruence.
  - apply SFleb_SFltb_false. apply SFltb_SFleb. exact Hpos.
Qed.

(** X12: the feed-forward is transparent at rest. When the attitude
    passed in is the finite value that [ffLastAttitude] and
    [ffLastAttitudeFiltered] already hold and the accumulator is zero,
    [applyFeedForward] returns the attitude unchanged and leaves the
    three values as they are, for every finite gain and correction,
    every time constant, every positive time delta and every maximal
    acceleration that is not negative. *)
Theorem feed_forward_at_rest (b : bus) (index : axis) (dT a : float)
    (csd : CameraStab_data) (correction : float) :
  gimbalTypeCorrection b index = Some correction -> is_finite correction = true ->
  is_finite a = true -> a <> S754_zero true ->
  is_finite (FeedForward (cameraStab b)).[index] = true ->
  is_nan (DecelTime (cameraStab b)).[index] = false ->
  F32.lt (MaxAccel (cameraStab b)) F32.zero = false ->
  is_finite dT = true -> F32.gt dT F32.zero = true ->
  (ffLastAttitude csd).[index] = a ->
  (ffLastAttitudeFiltered csd).[index] = a ->
  (ffFilterAccumulator csd).[index] = F32.zero ->
  exists csd',
    applyFeedForward b index dT a csd = Some (a, csd') /\
    axis_state csd' index = axis_state csd index.
Proof. apply applyFeedForward_at_rest. Qed.

Lemma feed_forward_at_rest_sample :
  exists csd',
    applyFeedForward (Examples.bus_at 10 (F32.of_Z 25)) ROLL (F32.of_Z 10) (F32.of_Z 25)
      {| lastSysTime := 0;
         inputs := fill F32.zero;
         attitudeFiltered := fill (F32.of_Z 25);
         ffLastAttitude := fill (F32.of_Z 25);
         ffLastAttitudeFiltered := fill (F32.of_Z 25);
         ffFilterAccumulator := fill F32.zero |} = Some (F32.of_Z 25, csd').
Proof.
  destruct (feed_forward_at_rest (Examples.bus_at 10 (F32.of_Z 25)) ROLL (F32.of_Z 10)
              (F32.of_Z 25)
              {| lastSysTime := 0;
                 inputs := fill F32.zero;
                 attitudeFiltered := fill (F32.of_Z 25);
                 ffLastAttitude := fill (F32.of_Z 25);
                 ffLastAttitudeFiltered := fill (F32.of_Z 25);
                 ffFilterAccumulator := fill F32.zero |}
              F32.one eq_refl eq_refl eq_refl ltac:(discriminate)
              eq_refl eq_refl eq_refl eq_refl eq_refl eq_refl eq_refl eq_refl)
    as [csd' [E _]].
  exists csd'. exact E.
Defined.

(* ================================================================== *)
(** * Level attitude *)
(* ================================================================== *)

Lemma lowpass_level (rt dT : float) :
  finite32 rt = true -> F32.le F32.zero rt = true ->
  is_finite dT = true -> signed_nonzero (-149) false dT ->
  lowpass rt dT F32.zero F32.zero = F32.zero.
Proof.
  intros Hrt H0 HdT Hpos. unfold finite32 in Hrt. apply andb_prop in Hrt.
  destruct Hrt as [Hf Hv]. unfold lowpass.
  assert (E1 : exists s, F32.mul rt F32.zero = S754_zero s).
  { destruct rt as [s | s | | s m e]; try discriminate; simpl; eauto. }
  assert (E2 : F32.mul dT F32.zero = F32.zero).
  { destruct dT as [s | s | | [ | ] m e]; try discriminate; simpl in Hpos;
      try tauto; try (destruct Hpos; discriminate); try reflexivity. }
  destruct E1 as [s ->]. rewrite E2.
  replace (F32.add (S754_zero s) F32.zero) with F32.zero by now destruct s.
  assert (Hsum : signed_nonzero (-149) false (F32.add rt dT)).
  { apply (SFadd_nonzero F32.prec F32.emax eq_refl); [ | exact Hpos].
    now apply valid_binary_nonneg. }
  destruct (F32.add rt dT) as [s' | [ | ] | | [ | ] m e]; simpl in Hsum;
    try tauto; try discriminate; try (destruct Hsum; discriminate); reflexivity.
Qed.

Lemma output_of_zero (range : float) :
  is_finite range = true -> nonzero range = true ->
  is_zero (output_of F32.zero F32.zero range) = true.
Proof.
  unfold nonzero, SFeqb. intros Hf Hz.
  destruct range as [s | s | | [ | ] m e]; try discriminate; reflexivity.
Qed.

(** X13: level attitude is an equilibrium. On an axis without trim
    sample whose filter value, feed-forward values and accumulator are
    zero, an attitude event with an attitude of zero leaves these values
    zero and commands [bound((0 + trim) / OutputRange, 1)], for every
    finite response time that is not negative, every finite feed-forward
    gain and gimbal correction, every deceleration time and every
    maximal acceleration that is not negative; with a trim of zero and a
    finite range other than zero the command is a zero. The filter and
    the feed-forward add no offset and no drift of their own. *)
Theorem level_attitude_is_an_equilibrium (b : bus) (csd : CameraStab_data) (o : outcome)
    (i : axis) :
  ev_is_attitude b = true ->
  0 <= tickCount b < 2 ^ 32 -> 0 <= lastSysTime csd < 2 ^ 32 ->
  trim_unavailable b i -> (attitudeActual b).[i] = F32.zero ->
  finite32 (ResponseTime (cameraStab b)).[i] = true ->
  F32.le F32.zero (ResponseTime (cameraStab b)).[i] = true ->
  is_finite (FeedForward (cameraStab b)).[i] = true ->
  is_nan (DecelTime (cameraStab b)).[i] = false ->
  F32.lt (MaxAccel (cameraStab b)) F32.zero = false ->
  (forall correction,
     gimbalTypeCorrection b i = Some correction -> is_finite correction = true) ->
  (attitudeFiltered csd).[i] = F32.zero ->
  (ffLastAttitude csd).[i] = F32.zero ->
  (ffLastAttitudeFiltered csd).[i] = F32.zero ->
  (ffFilterAccumulator csd).[i] = F32.zero ->
  attitudeUpdated b csd = Some o ->
  axis_state (data o) i = axis_state csd i /\
  In (i, bound (F32.div (F32.add F32.zero (inputs csd).[i])
                        (OutputRange (cameraStab b)).[i]) F32.one) (commands o) /\
  ((inputs csd).[i] = F32.zero ->
   is_finite (OutputRange (cameraStab b)).[i] = true ->
   nonzero (OutputRange (cameraStab b)).[i] = true ->
   forall out, In (i, out) (commands o) -> is_zero out = true).
Proof.
  intros Hev Hn Hl Hu Ha Hrt Hrt0 Hg Hd Hm Hcorr S2 S3 S4 S5 H.
  destruct (attitudeUpdated_axis b csd o i Hev H) as [c [c' [out [A [P [F [I1 I2]]]]]]].
  set (dT := elapsed_ms (tickCount b) (lastSysTime csd)) in *.
  assert (HdTf : is_finite dT = true) by now apply elapsed_ms_finite.
  assert (HdTp : signed_nonzero (-149) false dT).
  { apply signed_nonzero_weaken with (a := -23); [lia | now apply elapsed_ms_exponent]. }
  assert (HdTg : F32.gt dT F32.zero = true).
  { unfold F32.gt, F32.zero. now apply (signed_nonzero_gt F32.prec F32.emax). }
  pose proof A as A'. apply axis_state_eq in A'. destruct A' as [A1 [A2 [A3 [A4 A5]]]].
  unfold process_axis in P.
  rewrite (process_input_unavailable b dT i c Hu) in P.
  unfold filter_attitude in P.
  rewrite Ha, A2, S2, (lowpass_level _ dT Hrt Hrt0 HdTf HdTp) in P.
  unfold feed_forward in P.
  assert (R : axis_state c' i = axis_state c i /\
              out = output_of F32.zero (inputs c).[i] (OutputRange (cameraStab b)).[i]).
  { destruct (nonzero (FeedForward (cameraStab b)).[i]).
    - destruct (gimbalTypeCorrection b i) as [corr | ] eqn:Ec.
      2:{ unfold applyFeedForward in P. rewrite Ec in P. discriminate. }
      destruct (applyFeedForward_at_rest b i dT F32.zero (set_attitudeFiltered c i F32.zero)
                  corr Ec (Hcorr corr eq_refl) eq_refl ltac:(discriminate) Hg Hd Hm HdTf HdTg)
        as [c2 [E2 St]]; simpl; try congruence.
      rewrite E2 in P. injection P as Hc Ho. subst c2.
      assert (Hin : (inputs c').[i] = (inputs c).[i]).
      { apply axis_state_eq in St. now destruct St as [St _]. }
      rewrite Hin in Ho. split; [ | now symmetry].
      rewrite St. unfold axis_state. simpl. rewrite get_set_same. congruence.
    - injection P as Hc Ho. subst c'. split; [ | now symmetry].
      unfold axis_state. simpl. rewrite get_set_same. congruence. }
  destruct R as [St ->].
  split; [congruence | ]. rewrite A1 in I1, I2. unfold output_of in I1.
  split; [exact I1 | ].
  intros T Hf Hz out' Hin. rewrite (I2 out' Hin), T. now apply output_of_zero.
Qed.

Lemma level_attitude_sample :
  exists o,
    attitudeUpdated (Examples.bus_at 10 F32.zero) (initial_data 0) = Some o /\
    axis_state (data o) ROLL = axis_state (initial_data 0) ROLL.
Proof.
  destruct (attitudeUpdated (Examples.bus_at 10 F32.zero) (initial_data 0)) as [o | ] eqn:E;
    [ | vm_compute in E; discriminate E].
  exists o. split; [reflexivity | ].
  refine (proj1 (level_attitude_is_an_equilibrium (Examples.bus_at 10 F32.zero)
                   (initial_data 0) o ROLL eq_refl _ _ I eq_refl eq_refl eq_refl eq_refl
                   eq_refl eq_refl _ eq_refl eq_refl eq_refl eq_refl E)).
  - simpl; lia.
  - simpl; lia.
  - intros corr Hc. injection Hc as <-. reflexivity.
Defined.

(* ================================================================== *)
(** * Magnitudes under rounding *)
(* ================================================================== *)

Section Magnitude.
Variables prec emax : Z.
Hypothesis prec_pos : 0 < prec.

Abbreviation emin := (SpecFloat.emin prec emax).
Abbreviation fexp := (SpecFloat.fexp prec emax).

Lemma shr_1_exact (q : Z) :
  0 <= q ->
  shr_1 {| shr_m := 2 * q; shr_r := false; shr_s := false |}
    = {| shr_m := q; shr_r := false; shr_s := false |}.
Proof. intros Hq. destruct q as [ | q | q]; try lia; reflexivity. Qed.

Lemma iter_shr_1_exact (p : positive) :
  forall q, 0 <= q ->
    iter_pos shr_1 p {| shr_m := 2 ^ Zpos p * q; shr_r := false; shr_s := false |}
      = {| shr_m := q; shr_r := false; shr_s := false |}.
Proof.
  induction p as [p IH | p IH | ]; intros q Hq; cbn [iter_pos].
  - assert (H0 : 0 <= 2 ^ Zpos p) by (apply Z.pow_nonneg; lia).
    replace (2 ^ Zpos p~1 * q) with (2 * (2 ^ Zpos p * (2 ^ Zpos p * q))).
    2:{ rewrite (Pos2Z.inj_xI p).
        replace (2 * Zpos p + 1) with (1 + Zpos p + Zpos p) by lia.
        rewrite !Z.pow_add_r by lia. simpl (2 ^ 1). lia. }
    rewrite shr_1_exact by nia. rewrite IH by nia. now apply IH.
  - assert (H0 : 0 <= 2 ^ Zpos p) by (apply Z.pow_nonneg; lia).
    replace (2 ^ Zpos p~0 * q) with (2 ^ Zpos p * (2 ^ Zpos p * q)).
    2:{ rewrite (Pos2Z.inj_xO p).
        replace (2 * Zpos p) with (Zpos p + Zpos p) by lia.
        rewrite !Z.pow_add_r by lia. lia. }
    rewrite IH by nia. now apply IH.
  - change (2 ^ 1 * q) with (2 * q). now apply shr_1_exact.
Qed.


Lemma loc_of_shr_record_of_loc (m : Z) (l : location) :
  loc_of_shr_record (shr_record_of_loc m l) = l.
Proof. destruct l as [ | [ | | ]]; reflexivity. Qed.

Lemma Zdigits2_bounds (m : Z) :
  0 <= m -> m < 2 ^ Zdigits2 m /\ 0 <= Zdigits2 m.
Proof.
  intros Hm. destruct m as [ | p | p]; try lia; simpl.
  - split; lia.
  - pose proof (digits2_pos_bounds p). split; lia.
Qed.

(** The result of rounding [m * 2 ^ e], with the location [l] of the
    exact value between [m] and [m + 1], when the exponent is at or
    below that of the format. *)
Lemma binary_round_aux_result (s : bool) (m e : Z) (l : location) :
  0 <= m ->
  e <= fexp (Zdigits2 m + e) ->
  let F := fexp (Zdigits2 m + e) in
  let m1 := m / 2 ^ (F - e) in
  m1 < 2 ^ prec /\
  exists m2 : Z,
    m1 <= m2 <= m1 + 1 /\
    (l = loc_Exact -> m mod 2 ^ (F - e) = 0 -> m2 = m1) /\
    ((m2 = 0 /\ binary_round_aux prec emax s m e l = S754_zero s) \/
     (exists p2 m3 : positive,
        m2 = Zpos p2 /\
        Zpos m3 = m2 / 2 ^ Z.max 0 (fexp (Zpos (digits2_pos p2) + F) - F) /\
        binary_round_aux prec emax s m e l =
          if F + Z.max 0 (fexp (Zpos (digits2_pos p2) + F) - F) <=? emax - prec
          then S754_finite s m3 (F + Z.max 0 (fexp (Zpos (digits2_pos p2) + F) - F))
          else S754_infinity s)).
Proof.
  intros Hm Hal. cbv zeta.
  set (F := fexp (Zdigits2 m + e)) in *.
  assert (HFe : emin <= F) by apply fexp_ge_emin.
  pose proof (Zdigits2_bounds m Hm) as [Hd Hd0].
  assert (H2k : 0 < 2 ^ (F - e)) by (apply Z.pow_pos_nonneg; lia).
  assert (Hm1 : m / 2 ^ (F - e) < 2 ^ prec).
  { apply Z.div_lt_upper_bound; [exact H2k | ].
    rewrite <- Z.pow_add_r by lia.
    eapply Z.lt_le_trans; [exact Hd | ].
    apply Z.pow_le_mono_r; [lia | ]. unfold F, SpecFloat.fexp. lia. }
  split; [exact Hm1 | ].
  assert (Hm1' : 0 <= m / 2 ^ (F - e)) by (apply Z.div_pos; lia).
  (* the first shift *)
  assert (Hfirst : exists mrs',
            shr_fexp prec emax m e l = (mrs', F) /\
            shr_m mrs' = m / 2 ^ (F - e) /\
            (l = loc_Exact -> m mod 2 ^ (F - e) = 0 ->
             loc_of_shr_record mrs' = loc_Exact)).
  { unfold shr_fexp, shr. fold F.
    destruct (F - e) as [ | p | p] eqn:Ek; try lia.
    - eexists. split; [f_equal; lia | ].
      rewrite shr_record_of_loc_m, Z.div_1_r. split; [reflexivity | ].
      intros -> _. reflexivity.
    - eexists. split; [f_equal; lia | ].
      split; [rewrite iter_shr_1_m by (rewrite shr_record_of_loc_m; lia);
              now rewrite shr_record_of_loc_m | ].
      intros -> Hmod. simpl shr_record_of_loc.
      rewrite (Z.div_mod m (2 ^ Zpos p)) by lia.
      rewrite Hmod, Z.add_0_r.
      rewrite iter_shr_1_exact by (apply Z.div_pos; lia). reflexivity. }
  destruct Hfirst as [mrs' [Es [Em Hex]]].
  unfold binary_round_aux. rewrite Es.
  pose proof (round_nearest_even_ge (shr_m mrs') (loc_of_shr_record mrs')) as Hr1.
  pose proof (round_nearest_even_le (shr_m mrs') (loc_of_shr_record mrs')) as Hr2.
  set (m2 := round_nearest_even (shr_m mrs') (loc_of_shr_record mrs')) in *.
  exists m2. rewrite Em in Hr1, Hr2.
  split; [lia | ].
  split.
  { intros Hl Hmod. unfold m2. rewrite (Hex Hl Hmod). simpl. exact Em. }
  destruct m2 as [ | p2 | p2] eqn:E2; try lia.
  - left. split; [reflexivity | ].
    unfold shr_fexp, shr. simpl Zdigits2.
    assert (Hz : fexp (0 + F) - F <= 0) by (unfold SpecFloat.fexp in *; lia).
    destruct (fexp (0 + F) - F) as [ | q | q]; try lia; reflexivity.
  - right.
    pose proof (shr_fexp_spec prec emax p2 F loc_Exact) as [Ht1 Ht2].
    pose proof (shr_fexp_pos prec emax prec_pos (Zpos p2) F loc_Exact ltac:(lia) HFe)
      as [Hp2 _].
    cbv zeta in Ht1, Ht2.
    destruct (shr_fexp prec emax (Zpos p2) F loc_Exact) as [mrs'' e''].
    cbn [fst snd] in Ht1, Ht2, Hp2. subst e''.
    destruct (shr_m mrs'') as [ | m3 | m3] eqn:E3; try lia.
    exists p2, m3. split; [reflexivity | split; [exact Ht1 | reflexivity]].
Qed.


Lemma Zdigits2_le (m : Z) (q : positive) :
  0 <= m <= Zpos q -> Zdigits2 m <= Zpos (digits2_pos q).
Proof.
  intros [H0 H1]. destruct m as [ | p | p]; try lia; simpl.
  - lia.
  - now apply digits2_pos_le.
Qed.

(** Rounding a value at or below a number of the format does not go
    above it. The value is [m * 2 ^ e] when the location is exact and
    lies strictly between [m * 2 ^ e] and [(m + 1) * 2 ^ e] otherwise. *)
Lemma binary_round_aux_le (s : bool) (m e : Z) (l : location) (mx : positive) (ex : Z) :
  0 <= m ->
  e <= fexp (Zdigits2 m + e) ->
  bounded prec emax mx ex = true ->
  e <= ex ->
  (m + 1 <= Zpos mx * 2 ^ (ex - e) \/ (l = loc_Exact /\ m <= Zpos mx * 2 ^ (ex - e))) ->
  SFleb (SFabs (binary_round_aux prec emax s m e l)) (S754_finite false mx ex) = true.
Proof.
  intros Hm Hal Hb He HB.
  pose proof Hb as Hb'. unfold bounded in Hb'. apply andb_prop in Hb'.
  destruct Hb' as [Hc Hbd]. apply Z.leb_le in Hbd.
  pose proof (canonical_lt_pow prec emax mx ex Hc) as Hmx.
  pose proof (canonical_normal_ge prec emax mx ex Hc) as Hnorm.
  unfold canonical_mantissa in Hc. apply Z.eqb_eq in Hc.
  assert (H2e : 0 < 2 ^ (ex - e)) by (apply Z.pow_pos_nonneg; lia).
  assert (HmB : m <= Zpos mx * 2 ^ (ex - e)) by (destruct HB as [HB | [_ HB]]; lia).
  pose proof (binary_round_aux_result s m e l Hm Hal) as H. cbv zeta in H.
  set (F := fexp (Zdigits2 m + e)) in *.
  assert (HFe : emin <= F) by apply fexp_ge_emin.
  assert (HFx : F <= ex).
  { rewrite <- Hc. apply fexp_le.
    assert (Hq : exists q, Zpos q = Zpos mx * 2 ^ (ex - e)).
    { assert (0 < Zpos mx * 2 ^ (ex - e)) by (apply Z.mul_pos_pos; lia).
      destruct (Zpos mx * 2 ^ (ex - e)) as [ | q | q]; try lia. now exists q. }
    destruct Hq as [q Hq].
    pose proof (digits2_pos_shift mx q (ex - e) ltac:(lia) Hq) as Hdq.
    pose proof (Zdigits2_le m q ltac:(lia)). lia. }
  destruct H as [Hm1 [m2 [Hm2 [Hexact [[Ez ->] | [p2 [m3 [Ep [Hm3 ->]]]]]]]]].
  - reflexivity.
  - pose proof (second_shift prec emax prec_pos p2 F HFe ltac:(lia)) as Hk.
    cbv zeta in Hk.
    set (k2 := Z.max 0 (fexp (Zpos (digits2_pos p2) + F) - F)) in *.
    destruct Hk as [Hk0 Hk1].
    assert (Hpow : 2 ^ prec = 2 * 2 ^ (prec - 1)).
    { replace prec with (prec - 1 + 1) at 1 by lia.
      rewrite Z.pow_add_r by lia. simpl (2 ^ 1). lia. }
    assert (Hcases : (k2 = 0 /\ Zpos m3 = Zpos p2 /\ Zpos p2 < 2 ^ prec) \/
                     (k2 = 1 /\ Zpos m3 = 2 ^ (prec - 1) /\ Zpos p2 = 2 ^ prec)).
    { destruct (Z.eq_dec (Zpos p2) (2 ^ prec)) as [E | NE].
      - right. split; [now apply Hk1 | ]. split; [ | exact E].
        rewrite Hm3, Ep, (Hk1 E), E, Hpow.
        rewrite Z.mul_comm. now rewrite Z.div_mul by (simpl; lia).
      - left. assert (Hlt : Zpos p2 < 2 ^ prec) by lia.
        split; [now apply Hk0 | ].
        split; [ | exact Hlt]. rewrite Hm3, Ep, (Hk0 Hlt). apply Z.div_1_r. }
    assert (Hsmall : F = ex -> Zpos p2 <= Zpos mx).
    { intros HF. rewrite HF in *.
      destruct (Z.eq_dec m (Zpos mx * 2 ^ (ex - e))) as [E | NE].
      - assert (Hl : l = loc_Exact) by (destruct HB as [HB | [Hl _]]; [lia | exact Hl]).
        assert (Hmod : m mod 2 ^ (ex - e) = 0) by (rewrite E; apply Z.mod_mul; lia).
        rewrite <- Ep, (Hexact Hl Hmod), E. rewrite Z.div_mul by lia. lia.
      - assert (m / 2 ^ (ex - e) < Zpos mx); [ | lia].
        apply Z.div_lt_upper_bound; [exact H2e | ]. lia. }
    assert (Hfin : F + k2 <= emax - prec).
    { destruct Hcases as [[-> _] | [-> [_ E2]]]; [lia | ].
      destruct (Z.eq_dec F ex) as [HF | HF]; [ | lia].
      specialize (Hsmall HF). lia. }
    apply Z.leb_le in Hfin. rewrite Hfin.
    unfold SFleb, SFabs, SFcompare.
    destruct (Z.compare_spec (F + k2) ex) as [Heq | Hlt | Hgt]; try reflexivity.
    + rewrite Pos.compare_cont_spec. simpl.
      assert (Hle : Zpos m3 <= Zpos mx).
      { destruct Hcases as [[K0 [E3 _]] | [K1 [E3 _]]].
        + rewrite E3. apply Hsmall. lia.
        + rewrite E3. apply Hnorm. lia. }
      destruct (Pos.compare_spec m3 mx); simpl; try reflexivity. lia.
    + destruct Hcases as [[K0 _] | [K1 [_ E2]]]; [lia | ].
      assert (HF : F = ex) by lia. specialize (Hsmall HF). lia.
Qed.

(** The same for [binary_round], whose value is exactly [P * 2 ^ ez]. *)
Lemma binary_round_le (s : bool) (P : positive) (ez : Z) (mx : positive) (ex : Z) :
  bounded prec emax mx ex = true ->
  ez <= ex ->
  Zpos P <= Zpos mx * 2 ^ (ex - ez) ->
  SFleb (SFabs (binary_round prec emax s P ez)) (S754_finite false mx ex) = true.
Proof.
  intros Hb He HP. unfold binary_round.
  set (F := fexp (Zpos (digits2_pos P) + ez)).
  pose proof (shl_align_spec P ez F) as [Hmz Hez].
  destruct (shl_align P ez F) as [mz ez']. cbn [fst snd] in Hmz, Hez. subst ez'.
  assert (Hdz : Zpos (digits2_pos mz) + Z.min ez F = Zpos (digits2_pos P) + ez).
  { rewrite (digits2_pos_shift P mz (ez - Z.min ez F)); [lia | lia | exact Hmz]. }
  apply binary_round_aux_le; try assumption; try lia.
  - simpl Zdigits2. rewrite Hdz. fold F. lia.
  - right. split; [reflexivity | ]. rewrite Hmz.
    replace (ex - Z.min ez F) with ((ex - ez) + (ez - Z.min ez F)) by lia.
    rewrite Z.pow_add_r by lia. rewrite Z.mul_assoc.
    apply Z.mul_le_mono_nonneg_r; [apply Z.pow_nonneg; lia | exact HP].
Qed.


Lemma digits2_pos_div (p q : positive) (k : Z) :
  0 <= k -> Zpos q = Zpos p / 2 ^ k ->
  Zpos (digits2_pos q) = Zpos (digits2_pos p) - k.
Proof.
  intros Hk E. pose proof (digits2_pos_bounds p) as [H1 H2].
  set (d := Zpos (digits2_pos p)) in *.
  assert (H2k : 0 < 2 ^ k) by (apply Z.pow_pos_nonneg; lia).
  assert (Hpk : 2 ^ k <= Zpos p).
  { destruct (Z.le_gt_cases (2 ^ k) (Zpos p)) as [H | H]; [exact H | ].
    rewrite Z.div_small in E by lia. lia. }
  assert (Hkd : k < d).
  { destruct (Z.lt_ge_cases k d) as [H | H]; [exact H | ].
    assert (2 ^ d <= 2 ^ k) by (apply Z.pow_le_mono_r; lia). lia. }
  apply digits2_pos_unique. rewrite E. split.
  - apply Z.div_le_lower_bound; [exact H2k | ].
    rewrite <- Z.pow_add_r by lia. replace (k + (d - k - 1)) with (d - 1) by lia.
    exact H1.
  - apply Z.div_lt_upper_bound; [exact H2k | ].
    rewrite <- Z.pow_add_r by lia. replace (k + (d - k)) with d by lia. exact H2.
Qed.

(** The result of rounding is a number of the format. *)
Lemma binary_round_aux_valid (s : bool) (m e : Z) (l : location) :
  0 <= m -> e <= fexp (Zdigits2 m + e) ->
  valid_binary prec emax (binary_round_aux prec emax s m e l) = true.
Proof.
  intros Hm Hal.
  pose proof (binary_round_aux_result s m e l Hm Hal) as H. cbv zeta in H.
  set (F := fexp (Zdigits2 m + e)) in *.
  assert (HFe : emin <= F) by apply fexp_ge_emin.
  destruct H as [Hm1 [m2 [Hm2 [_ [[Ez ->] | [p2 [m3 [Ep [Hm3 ->]]]]]]]]];
    [reflexivity | ].
  assert (H2k : 0 < 2 ^ (F - e)) by (apply Z.pow_pos_nonneg; lia).
  assert (Hge : F <= fexp (Zpos (digits2_pos p2) + F)).
  { destruct (Z.eq_dec (m / 2 ^ (F - e)) 0) as [E0 | N0].
    - (* the first shift leaves nothing: the exponent is the least one *)
      assert (HmF : m < 2 ^ (F - e)).
      { destruct (Z.lt_ge_cases m (2 ^ (F - e))) as [Hlt | Hge]; [exact Hlt | ].
        assert (1 <= m / 2 ^ (F - e)); [ | lia].
        apply Z.div_le_lower_bound; lia. }
      assert (HdF : Zdigits2 m <= F - e).
      { destruct m as [ | p | p]; try lia; simpl; [lia | ].
        apply digits2_pos_lt_pow; [lia | exact HmF]. }
      assert (HF : F = emin) by (unfold F, SpecFloat.fexp in *; lia).
      rewrite HF. apply fexp_ge_emin.
    - assert (Hpos : 0 < m / 2 ^ (F - e)).
      { assert (0 <= m / 2 ^ (F - e)) by (apply Z.div_pos; lia). lia. }
      destruct m as [ | p | p]; try lia; [rewrite Z.div_0_l in Hpos; lia | ].
      destruct (Zpos p / 2 ^ (F - e)) as [ | q1 | q1] eqn:Eq1; try lia.
      pose proof (digits2_pos_div p q1 (F - e) ltac:(lia) (eq_sym Eq1)) as Hd1.
      pose proof (digits2_pos_le q1 p2 ltac:(lia)) as Hd2.
      simpl Zdigits2 in F.
      replace F with (fexp (Zpos (digits2_pos p) + e)) at 1 by reflexivity.
      apply fexp_le. lia. }
  rewrite Z.max_r in Hm3 |- * by lia.
  replace (F + (fexp (Zpos (digits2_pos p2) + F) - F))
    with (fexp (Zpos (digits2_pos p2) + F)) by lia.
  destruct (_ <=? emax - prec) eqn:Hfin; [ | reflexivity].
  cbn [valid_binary]. unfold bounded. rewrite Hfin, andb_true_r.
  unfold canonical_mantissa. apply Z.eqb_eq.
  rewrite Ep in Hm3.
  assert (Hk : 0 <= fexp (Zpos (digits2_pos p2) + F) - F) by lia.
  rewrite (digits2_pos_div p2 m3 _ Hk Hm3).
  f_equal. lia.
Qed.

Lemma binary_round_valid (s : bool) (P : positive) (ez : Z) :
  valid_binary prec emax (binary_round prec emax s P ez) = true.
Proof.
  unfold binary_round.
  set (F := fexp (Zpos (digits2_pos P) + ez)).
  pose proof (shl_align_spec P ez F) as [Hmz Hez].
  destruct (shl_align P ez F) as [mz ez']. cbn [fst snd] in Hmz, Hez. subst ez'.
  assert (Hdz : Zpos (digits2_pos mz) + Z.min ez F = Zpos (digits2_pos P) + ez).
  { rewrite (digits2_pos_shift P mz (ez - Z.min ez F)); [lia | lia | exact Hmz]. }
  apply binary_round_aux_valid; [lia | ].
  simpl Zdigits2. rewrite Hdz. fold F. lia.
Qed.

Lemma binary_normalize_valid (m e : Z) (s : bool) :
  valid_binary prec emax (binary_normalize prec emax m e s) = true.
Proof. destruct m; simpl; auto using binary_round_valid. Qed.

(** The order of two positive numbers of the format is that of their
    values. *)
Lemma SFleb_value (m1 : positive) (e1 : Z) (m2 : positive) (e2 : Z) :
  canonical_mantissa prec emax m1 e1 = true ->
  canonical_mantissa prec emax m2 e2 = true ->
  SFleb (S754_finite false m1 e1) (S754_finite false m2 e2) = true ->
  Zpos m1 * 2 ^ (e1 - Z.min e1 e2) <= Zpos m2 * 2 ^ (e2 - Z.min e1 e2).
Proof.
  intros Hc1 Hc2. unfold SFleb, SFcompare.
  pose proof (canonical_lt_pow prec emax m1 e1 Hc1) as Hlt.
  pose proof (canonical_normal_ge prec emax m2 e2 Hc2) as Hnorm.
  assert (He1 : emin <= e1).
  { unfold canonical_mantissa in Hc1. apply Z.eqb_eq in Hc1. rewrite <- Hc1.
    apply fexp_ge_emin. }
  destruct (Z.compare_spec e1 e2) as [Heq | Hl | Hg]; try discriminate.
  - subst e2. rewrite Z.min_id, Z.sub_diag, Z.pow_0_r, !Z.mul_1_r.
    rewrite Pos.compare_cont_spec. unfold Pos.switch_Eq.
    destruct (Pos.compare_spec m1 m2); try discriminate; lia.
  - intros _. rewrite Z.min_l by lia. rewrite Z.sub_diag, Z.pow_0_r, Z.mul_1_r.
    specialize (Hnorm ltac:(lia)).
    assert (Hp : 2 ^ prec = 2 ^ (prec - 1) * 2 ^ 1).
    { rewrite <- Z.pow_add_r by lia. f_equal. lia. }
    assert (H2 : 2 ^ 1 <= 2 ^ (e2 - e1)) by (apply Z.pow_le_mono_r; lia).
    assert (0 < 2 ^ (prec - 1)) by (apply Z.pow_pos_nonneg; lia).
    nia.
Qed.

Lemma digits2_pos_mul_ge (a b : positive) :
  Zpos (digits2_pos a) + Zpos (digits2_pos b) - 1 <= Zpos (digits2_pos (a * b)).
Proof.
  pose proof (digits2_pos_bounds a) as [Ha _].
  pose proof (digits2_pos_bounds b) as [Hb _].
  assert (H : 2 ^ (Zpos (digits2_pos a) - 1 + (Zpos (digits2_pos b) - 1)) <= Zpos (a * b)).
  { rewrite Z.pow_add_r, Pos2Z.inj_mul by lia.
    apply Z.mul_le_mono_nonneg; try assumption; apply Z.pow_nonneg; lia. }
  pose proof (digits2_pos_gt_pow (a * b) _ H). lia.
Qed.

(** The exponent of a product of two numbers of the format is at or
    below the exponent the format gives it. *)
Lemma product_aligned (mx my : positive) (ex ey : Z) :
  emin <= 0 ->
  canonical_mantissa prec emax mx ex = true ->
  canonical_mantissa prec emax my ey = true ->
  ex + ey <= fexp (Zpos (digits2_pos (mx * my)) + (ex + ey)).
Proof.
  intros H0 Hx Hy. unfold canonical_mantissa in *.
  apply Z.eqb_eq in Hx, Hy.
  pose proof (digits2_pos_mul_ge mx my) as Hd.
  pose proof (digits2_pos_bounds mx) as [_ _].
  assert (1 <= Zpos (digits2_pos mx)) by lia.
  assert (1 <= Zpos (digits2_pos my)) by lia.
  unfold SpecFloat.fexp in *. lia.
Qed.

Lemma SFmul_valid (x y : spec_float) :
  emin <= 0 ->
  valid_binary prec emax x = true -> valid_binary prec emax y = true ->
  valid_binary prec emax (SFmul prec emax x y) = true.
Proof.
  intros H0.
  destruct x as [sx | sx | | sx mx ex], y as [sy | sy | | sy my ey];
    try reflexivity; simpl.
  unfold bounded. intros Hx Hy. apply andb_prop in Hx, Hy.
  apply binary_round_aux_valid; [lia | ].
  apply product_aligned; tauto.
Qed.

(** Multiplying by a number of magnitude 1 or below does not increase
    the magnitude. *)
Lemma SFmul_le_r (x y : spec_float) :
  valid_binary prec emax x = true -> valid_binary prec emax y = true ->
  is_finite x = true -> is_finite y = true ->
  match x with
  | S754_finite _ mx ex => ex <= 0 /\ Zpos mx <= 2 ^ (- ex)
  | _ => True
  end ->
  SFleb (SFabs (SFmul prec emax x y)) (SFabs y) = true.
Proof.
  intros Hx Hy Hfx Hfy Hone.
  destruct x as [sx | sx | | sx mx ex]; try discriminate Hfx;
    destruct y as [sy | sy | | sy my ey]; try discriminate Hfy;
    try reflexivity.
  - destruct Hone as [He Hmx]. simpl in Hx, Hy. simpl SFmul.
    pose proof Hx as Hx'. pose proof Hy as Hy'.
    unfold bounded in Hx', Hy'. apply andb_prop in Hx', Hy'.
    destruct Hx' as [Hcx _], Hy' as [Hcy _].
    apply binary_round_aux_le; try assumption; try lia.
    + simpl Zdigits2.
      pose proof (digits2_pos_mul_ge mx my) as Hd.
      unfold canonical_mantissa in Hcx, Hcy. apply Z.eqb_eq in Hcx, Hcy.
      assert (1 <= Zpos (digits2_pos mx)) by lia.
      assert (1 <= Zpos (digits2_pos my)) by lia.
      unfold SpecFloat.fexp in *. lia.
    + right. split; [reflexivity | ].
      replace (ey - (ex + ey)) with (- ex) by lia.
      rewrite Pos2Z.inj_mul, (Z.mul_comm (Zpos mx)).
      apply Z.mul_le_mono_nonneg_l; lia.
Qed.


Lemma new_location_exact (nb_steps k : Z) :
  new_location nb_steps k = loc_Exact <-> k = 0.
Proof.
  unfold new_location, new_location_even, new_location_odd.
  destruct (Z.even nb_steps); destruct (Z.eqb_spec k 0) as [E | E];
    split; try tauto; try discriminate; intros; reflexivity.
Qed.

Lemma shifted_mantissa (m : positive) (z : Z) :
  0 <= z ->
  match z with Z0 => Zpos m | Zpos _ => Z.shiftl (Zpos m) z | Zneg _ => 0 end
    = Zpos m * 2 ^ z.
Proof.
  intros Hz. destruct z as [ | p | p]; try lia.
  apply Z.shiftl_mul_pow2. lia.
Qed.

(** The quotient, the exponent and the location that the division
    hands to the rounding. *)
Lemma SFdiv_core_binary_spec (m1 m2 : positive) (e1 e2 : Z) :
  let D := Zpos (digits2_pos m1) + e1 - (Zpos (digits2_pos m2) + e2) in
  let e' := Z.min (fexp D) (e1 - e2) in
  let s := e1 - e2 - e' in
  exists q l,
    SFdiv_core_binary prec emax (Zpos m1) e1 (Zpos m2) e2 = (q, e', l) /\
    q = (Zpos m1 * 2 ^ s) / Zpos m2 /\
    (l = loc_Exact <-> (Zpos m1 * 2 ^ s) mod Zpos m2 = 0) /\
    0 <= q /\
    e' <= fexp (Zdigits2 q + e').
Proof.
  cbv zeta. unfold SFdiv_core_binary. simpl Zdigits2.
  set (D := Zpos (digits2_pos m1) + e1 - (Zpos (digits2_pos m2) + e2)).
  set (e' := Z.min (fexp D) (e1 - e2)).
  set (s := e1 - e2 - e').
  assert (Hs : 0 <= s) by (unfold s, e'; lia).
  assert (H2s : 0 < 2 ^ s) by (apply Z.pow_pos_nonneg; lia).
  set (m' := match s with Z0 => Zpos m1 | Zpos _ => Z.shiftl (Zpos m1) s | Zneg _ => 0 end).
  assert (Em' : m' = Zpos m1 * 2 ^ s).
  { subst m'. now apply shifted_mantissa. }
  assert (Hm' : 0 < m') by (rewrite Em'; apply Z.mul_pos_pos; lia).
  pose proof (Z_div_mod m' (Zpos m2) ltac:(lia)) as Hdm.
  assert (Eq : m' / Zpos m2 = fst (Z.div_eucl m' (Zpos m2))) by reflexivity.
  assert (Er : m' mod Zpos m2 = snd (Z.div_eucl m' (Zpos m2))) by reflexivity.
  destruct (Z.div_eucl m' (Zpos m2)) as [q r]. cbn [fst snd] in Eq, Er.
  destruct Hdm as [Hdm Hr].
  assert (Hq : 0 <= q) by (rewrite <- Eq; apply Z.div_pos; lia).
  exists q, (new_location (Zpos m2) r).
  split; [reflexivity | ].
  split; [rewrite <- Em'; now symmetry | ].
  split; [rewrite <- Em', Er; apply new_location_exact | ].
  split; [exact Hq | ].
  (* the quotient has the digits that the exponent asks for *)
  assert (Hdq : Zpos (digits2_pos m1) + s - Zpos (digits2_pos m2) <= Zdigits2 q).
  { pose proof (Zdigits2_bounds q Hq) as [Hq2 Hq0].
    pose proof (digits2_pos_bounds m1) as [L1 _].
    pose proof (digits2_pos_bounds m2) as [_ U2].
    set (d1 := Zpos (digits2_pos m1)) in *. set (d2 := Zpos (digits2_pos m2)) in *.
    destruct (Z.le_gt_cases (d1 + s - d2) 0) as [Hle | Hgt]; [lia | ].
    assert (Ht : 2 ^ (d1 + s - d2 - 1) <= q).
    { rewrite <- Eq. apply Z.div_le_lower_bound; [lia | ].
      assert (H1 : Zpos m2 * 2 ^ (d1 + s - d2 - 1) <= 2 ^ d2 * 2 ^ (d1 + s - d2 - 1)).
      { apply Z.mul_le_mono_nonneg_r; [apply Z.pow_nonneg; lia | lia]. }
      rewrite <- Z.pow_add_r in H1 by lia.
      replace (d2 + (d1 + s - d2 - 1)) with ((d1 - 1) + s) in H1 by lia.
      rewrite Z.pow_add_r in H1 by lia.
      assert (H2 : 2 ^ (d1 - 1) * 2 ^ s <= Zpos m1 * 2 ^ s).
      { apply Z.mul_le_mono_nonneg_r; lia. }
      lia. }
    assert (0 < 2 ^ (d1 + s - d2 - 1)) by (apply Z.pow_pos_nonneg; lia).
    destruct q as [ | qp | qp]; try lia.
    cbn [Zdigits2]. pose proof (digits2_pos_gt_pow qp _ Ht) as Hg. lia. }
  assert (HD : D <= Zdigits2 q + e') by (unfold D, s in *; lia).
  apply Z.le_trans with (m := fexp D); [unfold e'; lia | now apply fexp_le].
Qed.

Lemma SFdiv_valid (x y : spec_float) :
  valid_binary prec emax (SFdiv prec emax x y) = true.
Proof.
  destruct x as [sx | sx | | sx mx ex], y as [sy | sy | | sy my ey];
    try reflexivity. simpl.
  pose proof (SFdiv_core_binary_spec mx my ex ey) as H. cbv zeta in H.
  destruct H as [q [l [-> [_ [_ [Hq Hal]]]]]].
  now apply binary_round_aux_valid.
Qed.

(** Dividing by a number of magnitude 1 or above does not increase
    the magnitude. *)
Lemma SFdiv_le (x y : spec_float) :
  valid_binary prec emax x = true -> is_finite x = true ->
  match y with
  | S754_finite _ my ey => 1 <= Zpos (digits2_pos my) + ey
  | S754_infinity _ => True
  | _ => False
  end ->
  SFleb (SFabs (SFdiv prec emax x y)) (SFabs x) = true.
Proof.
  intros Hx Hfx Hy.
  destruct x as [sx | sx | | sx mx ex]; try discriminate Hfx;
    destruct y as [sy | sy | | sy my ey]; try (now destruct Hy); try reflexivity.
  simpl in Hx. simpl SFdiv.
  pose proof (SFdiv_core_binary_spec mx my ex ey) as H. cbv zeta in H.
  set (D := Zpos (digits2_pos mx) + ex - (Zpos (digits2_pos my) + ey)) in *.
  set (e' := Z.min (fexp D) (ex - ey)) in *.
  set (s := ex - ey - e') in *.
  destruct H as [q [l [-> [Eq [Hl [Hq Hal]]]]]].
  pose proof Hx as Hx'. unfold bounded in Hx'. apply andb_prop in Hx'.
  destruct Hx' as [Hcx _]. unfold canonical_mantissa in Hcx. apply Z.eqb_eq in Hcx.
  assert (He' : e' <= ex).
  { apply Z.le_trans with (m := fexp D); [unfold e'; lia | ].
    rewrite <- Hcx. apply fexp_le. unfold D. lia. }
  assert (Hs : 0 <= s) by (unfold s, e'; lia).
  assert (H2s : 0 < 2 ^ s) by (apply Z.pow_pos_nonneg; lia).
  apply binary_round_aux_le; try assumption.
  (* m' = q * my + r with m' = mx * 2 ^ s, and B = mx * 2 ^ (s + ey) *)
  set (m' := Zpos mx * 2 ^ s) in *.
  assert (Hm' : 0 < m') by (apply Z.mul_pos_pos; lia).
  pose proof (Z.div_mod m' (Zpos my) ltac:(lia)) as Hdm.
  pose proof (Z.mod_pos_bound m' (Zpos my) ltac:(lia)) as Hr.
  rewrite <- Eq in Hdm.
  set (r := m' mod Zpos my) in *.
  replace (ex - e') with (s + ey) by (unfold s; lia).
  assert (Hc : q + 1 <= Zpos mx * 2 ^ (s + ey) \/ (r = 0 /\ q <= Zpos mx * 2 ^ (s + ey))).
  { destruct (Z.le_gt_cases 0 ey) as [Hey | Hey].
    - rewrite Z.pow_add_r by lia. fold m'.
      assert (H1 : 0 < 2 ^ ey) by (apply Z.pow_pos_nonneg; lia).
      destruct (Z.eq_dec r 0) as [E | NE]; [right | left]; nia.
    - pose proof (digits2_pos_bounds my) as [Lmy _].
      assert (Ht : 2 ^ (- ey) <= Zpos my).
      { eapply Z.le_trans; [ | exact Lmy]. apply Z.pow_le_mono_r; lia. }
      assert (Hsplit : m' = Zpos mx * 2 ^ (s + ey) * 2 ^ (- ey)).
      { unfold m'. rewrite <- Z.mul_assoc, <- Z.pow_add_r by (unfold s in *; lia).
        do 2 f_equal. lia. }
      assert (H0 : 0 < 2 ^ (- ey)) by (apply Z.pow_pos_nonneg; lia).
      set (B := Zpos mx * 2 ^ (s + ey)) in *.
      set (t := 2 ^ (- ey)) in *.
      assert (HB : 0 <= B).
      { unfold B. apply Z.mul_nonneg_nonneg; [lia | apply Z.pow_nonneg; lia]. }
      destruct (Z.eq_dec r 0) as [E | NE]; [right | left]; nia. }
  destruct Hc as [Hc | [Hr0 Hc]]; [now left | right].
  split; [now apply Hl | exact Hc].
Qed.

Lemma SFdiv_sign (sx sy : bool) (mx my : positive) (ex ey : Z) :
  signed_number (xorb sx sy)
    (SFdiv prec emax (S754_finite sx mx ex) (S754_finite sy my ey)).
Proof.
  simpl.
  pose proof (SFdiv_core_binary_spec mx my ex ey) as H. cbv zeta in H.
  destruct H as [q [l [-> [_ [_ [Hq _]]]]]].
  now apply binary_round_aux_sign.
Qed.


(** Taking away a part of a number leaves a number of the same sign
    and of no larger magnitude. *)
Lemma SFsub_contract (s : bool) (x q : spec_float) :
  valid_binary prec emax x = true -> valid_binary prec emax q = true ->
  is_finite x = true ->
  match x with S754_finite sx _ _ => sx = s | _ => True end ->
  match q with S754_finite sq _ _ => sq = s | S754_zero _ => True | _ => False end ->
  SFleb (SFabs q) (SFabs x) = true ->
  SFleb (SFabs (SFsub prec emax x q)) (SFabs x) = true /\
  match SFsub prec emax x q with
  | S754_finite s' _ _ => s' = s
  | S754_zero _ => True
  | _ => False
  end.
Proof.
  intros Hx Hq Hfx Hsx Hsq Hle.
  destruct x as [sx | sx | | sx mx ex]; try discriminate Hfx;
    destruct q as [sq | sq | | sq mq eq]; try (now destruct Hsq);
    try discriminate Hle.
  - destruct sx, sq; simpl; auto.
  - split; [ | exact Hsx]. simpl. unfold SFleb. simpl.
    now rewrite Z.compare_refl, Pos.compare_cont_refl.
  - subst sx sq. simpl in Hx, Hq. simpl SFabs in Hle |- *.
    pose proof Hx as Hx'. pose proof Hq as Hq'.
    unfold bounded in Hx', Hq'. apply andb_prop in Hx', Hq'.
    destruct Hx' as [Hcx _], Hq' as [Hcq _].
    pose proof (SFleb_value mq eq mx ex Hcq Hcx Hle) as Hv.
    rewrite (Z.min_comm eq ex) in Hv.
    cbn [SFsub]. change (IntDef.Z.min ex eq) with (Z.min ex eq).
    pose proof (shl_align_spec mx ex (Z.min ex eq)) as [Hpx _].
    pose proof (shl_align_spec mq eq (Z.min ex eq)) as [Hpq _].
    replace (Z.min ex (Z.min ex eq)) with (Z.min ex eq) in Hpx by lia.
    replace (Z.min eq (Z.min ex eq)) with (Z.min ex eq) in Hpq by lia.
    set (ez := Z.min ex eq) in *.
    set (px := fst (shl_align mx ex ez)) in *.
    set (pq := fst (shl_align mq eq ez)) in *.
    assert (Hpp : Zpos pq <= Zpos px) by lia.
    assert (Hround : forall s' P, Zpos P <= Zpos px ->
              SFleb (SFabs (binary_round prec emax s' P ez)) (S754_finite false mx ex) = true
              /\ match binary_round prec emax s' P ez with
                 | S754_finite s'' _ _ => s'' = s'
                 | S754_zero _ => True
                 | _ => False
                 end).
    { intros s' P HP.
      pose proof (binary_round_le s' P ez mx ex Hx ltac:(unfold ez; lia) ltac:(lia)) as Hb.
      split; [exact Hb | ].
      pose proof (binary_round_sign prec emax s' P ez) as Hs.
      destruct (binary_round prec emax s' P ez) as [s1 | s1 | | s1 m1 e1];
        simpl in Hs, Hb; try tauto; try discriminate. }
    destruct s; unfold cond_Zopp.
    + destruct (Z.sub (- Zpos px) (- Zpos pq)) as [ | P | P] eqn:EP; simpl.
      * split; [reflexivity | exact I].
      * lia.
      * apply Hround. lia.
    + destruct (Z.sub (Zpos px) (Zpos pq)) as [ | P | P] eqn:EP; simpl.
      * split; [reflexivity | exact I].
      * apply Hround. lia.
      * lia.
Qed.

End Magnitude.

(* ================================================================== *)
(** * Magnitudes in binary32 *)
(* ================================================================== *)

Lemma F32_emin_nonpos : emin F32.prec F32.emax <= 0.
Proof. rewrite F32_emin. lia. Qed.

(** A float of magnitude 1 or below: its exponent is at most 0 and its
    mantissa at most [2 ^ -e]. *)
Lemma le_one_mantissa (x : float) :
  F32.valid x = true -> F32.le (SFabs x) F32.one = true ->
  match x with
  | S754_finite _ mx ex => ex <= 0 /\ Zpos mx <= 2 ^ (- ex)
  | _ => True
  end.
Proof.
  destruct x as [s | s | | s m e]; try (intros; exact I).
  unfold F32.valid, valid_binary, bounded, F32.le, F32.one, SFleb, SFabs, SFcompare.
  intros Hb. apply andb_prop in Hb. destruct Hb as [Hc _].
  pose proof (canonical_lt_pow F32.prec F32.emax m e Hc) as Hlt.
  destruct (Z.compare_spec e (-23)) as [E | E | E]; try discriminate.
  - rewrite Pos.compare_cont_spec. unfold Pos.switch_Eq.
    destruct (Pos.compare_spec m 8388608) as [E' | E' | E']; try discriminate;
      intros _; subst e; split; try lia; change (2 ^ (- (-23))) with 8388608; lia.
  - intros _. split; [lia | ].
    assert (H : 2 ^ F32.prec <= 2 ^ (- e)) by (apply Z.pow_le_mono_r; unfold F32.prec; lia).
    lia.
Qed.

(** A float of 1 or above: positive, with [digits + e >= 1]. *)
Lemma ge_one_digits (f : float) :
  F32.valid f = true -> F32.le F32.one f = true ->
  match f with
  | S754_finite false mf ef => 1 <= Zpos (digits2_pos mf) + ef
  | S754_infinity false => True
  | _ => False
  end.
Proof.
  destruct f as [s | [ | ] | | [ | ] m e]; try discriminate; try (intros; exact I).
  unfold F32.valid, valid_binary, bounded, canonical_mantissa, F32.le, F32.one, SFleb,
    SFcompare.
  intros Hb. apply andb_prop in Hb. destruct Hb as [Hc _]. apply Z.eqb_eq in Hc.
  unfold fexp, F32.prec, F32.emax, emin in Hc.
  destruct (Z.compare_spec (-23) e) as [E | E | E]; try discriminate.
  - rewrite Pos.compare_cont_spec. unfold Pos.switch_Eq.
    destruct (Pos.compare_spec 8388608 m) as [E' | E' | E']; try discriminate;
      intros _; subst e;
      pose proof (digits2_pos_gt_pow m 23 ltac:(change (2 ^ 23) with 8388608; lia)); lia.
  - intros _. lia.
Qed.

(* ================================================================== *)
(** * The trim in attitude mode *)
(* ================================================================== *)

(** X14: in attitude mode the trim is the sample times the input range,
    whatever the previous trim and the time delta were: the input stage
    never halts there and keeps no memory, and the trim at the end of an
    invocation is that product. The product is not bounded by the code;
    for a finite sample of magnitude 1 or below and a finite range its
    magnitude is at most that of the range. *)
Theorem attitude_mode_trim (b : bus) (i : axis) (instId : nat) (sample : float) :
  (Input (cameraStab b)).[i] = INPUT_ACCESSORY instId ->
  accessoryVal b instId = Some sample ->
  (StabilizationMode (cameraStab b)).[i] = STABILIZATIONMODE_ATTITUDE ->
  let range := (InputRange (cameraStab b)).[i] in
  (forall dT csd,
     process_input b dT i csd = Some (set_inputs csd i (F32.mul sample range))) /\
  (forall csd o,
     ev_is_attitude b = true -> attitudeUpdated b csd = Some o ->
     (inputs (data o)).[i] = F32.mul sample range) /\
  (finite32 sample = true -> finite32 range = true ->
   F32.le (SFabs sample) F32.one = true ->
   F32.le (SFabs (F32.mul sample range)) (SFabs range) = true).
Proof.
  intros HI HA HM. cbv zeta.
  assert (HP : forall dT csd,
            process_input b dT i csd =
              Some (set_inputs csd i (F32.mul sample (InputRange (cameraStab b)).[i]))).
  { intros dT csd. unfold process_input. now rewrite HI, HA, HM. }
  split; [exact HP | split].
  - intros csd o Hev H.
    destruct (attitudeUpdated_axis b csd o i Hev H) as [c [c' [out [_ [P [F _]]]]]].
    apply axis_state_eq in F. destruct F as [F1 _]. rewrite F1.
    apply process_axis_inputs in P. destruct P as [c1 [E1 E2]].
    rewrite HP in E1. injection E1 as <-. rewrite E2. simpl. apply get_set_same.
  - intros Hs Hr H1. unfold finite32 in Hs, Hr.
    apply andb_prop in Hs, Hr. destruct Hs as [Hfs Hvs], Hr as [Hfr Hvr].
    apply (SFmul_le_r F32.prec F32.emax eq_refl); try assumption.
    now apply le_one_mantissa.
Qed.

Lemma attitude_mode_trim_sample :
  F32.le (SFabs (F32.mul (F32.neg (F32.ratio 3 4)) (F32.of_Z 20))) (SFabs (F32.of_Z 20)) = true.
Proof.
  refine (proj2 (proj2 (attitude_mode_trim
    {| ev_is_attitude := true; tickCount := 10;
       cameraStab :=
         {| Input := fill (INPUT_ACCESSORY 0);
            InputRange := fill (F32.of_Z 20);
            InputRate := fill (F32.of_Z 50);
            StabilizationMode := fill STABILIZATIONMODE_ATTITUDE;
            OutputRange := fill (F32.of_Z 20);
            ResponseTime := fill F32.zero;
            GimbalType := GIMBALTYPE_GENERIC;
            FeedForward := fill F32.zero;
            AccelTime := fill (F32.of_Z 5);
            DecelTime := fill (F32.of_Z 5);
            MaxAxisLockRate := F32.of_Z 1;
            MaxAccel := F32.of_Z 500 |};
       attitudeActual := fill F32.zero;
       accessoryVal := fun _ => Some (F32.neg (F32.ratio 3 4)) |}
    ROLL 0%nat (F32.neg (F32.ratio 3 4)) eq_refl eq_refl eq_refl)) _ _ _);
    reflexivity.
Defined.

(* ================================================================== *)
(** * The decay of the feed-forward accumulator *)
(* ================================================================== *)

Lemma clamped_filter_ge_one (tc dT : float) :
  is_nan tc = false -> is_finite dT = true -> SFeqb dT F32.zero = false ->
  match (if F32.lt (F32.div tc dT) F32.one then F32.one else F32.div tc dT) with
  | S754_finite false mf ef => 1 <= Zpos (digits2_pos mf) + ef
  | S754_infinity false => True
  | _ => False
  end.
Proof.
  intros Htc HdT Hz.
  pose proof (F32_div_not_nan tc dT Htc HdT Hz) as Hn.
  pose proof (SFdiv_valid F32.prec F32.emax eq_refl tc dT) as Hv.
  fold (F32.div tc dT) in Hv.
  destruct (F32.lt (F32.div tc dT) F32.one) eqn:E; [simpl; lia | ].
  apply ge_one_digits; [exact Hv | ].
  apply SFltb_false_SFleb; [reflexivity | exact Hn | exact E].
Qed.

(** One decay step [acc - acc / filter] with [filter >= 1]. *)
Lemma decay_contracts (acc f : float) :
  finite32 acc = true ->
  match f with
  | S754_finite false mf ef => 1 <= Zpos (digits2_pos mf) + ef
  | S754_infinity false => True
  | _ => False
  end ->
  F32.le (SFabs (F32.sub acc (F32.div acc f))) (SFabs acc) = true /\
  (F32.le F32.zero acc = true -> F32.le F32.zero (F32.sub acc (F32.div acc f)) = true) /\
  (F32.le acc F32.zero = true -> F32.le (F32.sub acc (F32.div acc f)) F32.zero = true).
Proof.
  intros Hacc Hf. unfold finite32 in Hacc. apply andb_prop in Hacc.
  destruct Hacc as [Hfa Hva].
  assert (Hf' : match f with
                | S754_finite _ my ey => 1 <= Zpos (digits2_pos my) + ey
                | S754_infinity _ => True
                | _ => False
                end).
  { destruct f as [s | [ | ] | | [ | ] m e]; tauto. }
  pose proof (SFdiv_le F32.prec F32.emax eq_refl acc f Hva Hfa Hf') as Hq.
  pose proof (SFdiv_valid F32.prec F32.emax eq_refl acc f) as Hvq.
  fold (F32.div acc f) in Hq, Hvq.
  set (sa := match acc with S754_finite s _ _ => s | _ => false end).
  assert (Hsq : match F32.div acc f with
                | S754_finite sq _ _ => sq = sa
                | S754_zero _ => True
                | _ => False
                end).
  { destruct acc as [s | s | | s m e]; try discriminate Hfa.
    - destruct f as [s' | [ | ] | | [ | ] m' e']; try (now destruct Hf); try exact I.
    - destruct f as [s' | [ | ] | | [ | ] m' e']; try (now destruct Hf); try exact I.
      pose proof (SFdiv_sign F32.prec F32.emax s false m m' e e') as Hs.
      fold (F32.div (S754_finite s m e) (S754_finite false m' e')) in Hs.
      rewrite xorb_false_r in Hs.
      destruct (F32.div (S754_finite s m e) (S754_finite false m' e')) as [s1 | s1 | | s1 m1 e1];
        simpl in Hs, Hq; try tauto; try discriminate. }
  assert (Hsa : match acc with S754_finite sx _ _ => sx = sa | _ => True end).
  { unfold sa. now destruct acc. }
  destruct (SFsub_contract F32.prec F32.emax eq_refl sa acc (F32.div acc f)
              Hva Hvq Hfa Hsa Hsq Hq) as [Hle Hsign].
  fold (F32.sub acc (F32.div acc f)) in Hle, Hsign.
  split; [exact Hle | ].
  unfold F32.le, F32.zero, sa in *.
  destruct (F32.sub acc (F32.div acc f)) as [s2 | s2 | | s2 m2 e2]; try tauto;
    try (split; intros _; reflexivity).
  destruct acc as [s | s | | s m e]; try discriminate Hfa.
  - cbn in Hle. discriminate Hle.
  - subst s2. destruct s; split; intros H; try (cbn in H; discriminate H); reflexivity.
Qed.

(** X15: the decay never enlarges the feed-forward accumulator and
    never turns its sign. With [acc1] the accumulator after the attitude
    change has been added and [acc2] the value stored, [|acc2| <= |acc1|],
    and [acc2] is zero or has the sign of [acc1], for every finite [acc1],
    every pair of time constants and every positive time delta. So while
    the attitude passed in does not change, the magnitude of the stored
    accumulator does not grow from one invocation to the next. *)
Theorem accumulator_decays (dT attitude last gain correction accel decel acc0 : float) :
  let acc1 := F32.add acc0 (F32.mul (F32.mul (F32.sub attitude last) gain) correction) in
  let acc2 := snd (ff_accumulate dT attitude last gain correction accel decel acc0) in
  is_nan accel = false -> is_nan decel = false ->
  is_finite dT = true -> F32.gt dT F32.zero = true ->
  (finite32 acc1 = true ->
   F32.le (SFabs acc2) (SFabs acc1) = true /\
   (F32.le F32.zero acc1 = true -> F32.le F32.zero acc2 = true) /\
   (F32.le acc1 F32.zero = true -> F32.le acc2 F32.zero = true)) /\
  (attitude = last -> is_finite attitude = true ->
   is_finite gain = true -> is_finite correction = true -> finite32 acc0 = true ->
   F32.le (SFabs acc2) (SFabs acc0) = true).
Proof.
  cbv zeta. intros Ha Hd HdT Hpos.
  assert (Hz : SFeqb dT F32.zero = false) by now apply gt_zero_nonzero.
  assert (Hmain : forall acc1,
            finite32 acc1 = true ->
            let f := F32.div (if F32.gt acc1 F32.zero then accel else decel) dT in
            let f' := if F32.lt f F32.one then F32.one else f in
            F32.le (SFabs (F32.sub acc1 (F32.div acc1 f'))) (SFabs acc1) = true /\
            (F32.le F32.zero acc1 = true ->
             F32.le F32.zero (F32.sub acc1 (F32.div acc1 f')) = true) /\
            (F32.le acc1 F32.zero = true ->
             F32.le (F32.sub acc1 (F32.div acc1 f')) F32.zero = true)).
  { intros acc1 H1. cbv zeta. apply decay_contracts; [exact H1 | ].
    apply clamped_filter_ge_one; try assumption.
    now destruct (F32.gt acc1 F32.zero). }
  split.
  - intros H1. unfold ff_accumulate. cbn [snd]. now apply Hmain.
  - intros -> Hf Hg Hc H0. unfold ff_accumulate. cbn [snd].
    rewrite (sub_diag last Hf).
    assert (E1 : exists s, F32.mul (F32.mul F32.zero gain) correction = S754_zero s).
    { destruct gain as [sg | sg | | sg mg eg]; try discriminate;
        destruct correction as [sc | sc | | sc mc ec]; try discriminate; simpl; eauto. }
    destruct E1 as [s ->].
    unfold finite32 in H0. pose proof H0 as H0'. apply andb_prop in H0'.
    destruct H0' as [Hf0 Hv0].
    assert (E2 : F32.add acc0 (S754_zero s) = acc0 \/
                 (is_zero acc0 = true /\ is_zero (F32.add acc0 (S754_zero s)) = true)).
    { destruct acc0 as [s0 | s0 | | s0 m0 e0]; try discriminate Hf0.
      - right. split; [reflexivity | now destruct s0, s].
      - left. reflexivity. }
    destruct E2 as [-> | [Z0 Z1]].
    + now apply Hmain.
    + set (acc1 := F32.add acc0 (S754_zero s)) in *.
      assert (H1 : finite32 acc1 = true) by (now destruct acc1).
      destruct (Hmain acc1 H1) as [Hle _]. cbv zeta in Hle.
      replace (SFabs acc0) with (SFabs acc1); [exact Hle | ].
      destruct acc0, acc1; try discriminate; reflexivity.
Qed.

Lemma accumulator_decays_sample :
  F32.le (SFabs (snd (ff_accumulate (F32.of_Z 10) (F32.of_Z 3) (F32.of_Z 3) (F32.of_Z 1)
                        F32.one (F32.of_Z 50) (F32.of_Z 30) (F32.ratio 7 10))))
         (SFabs (F32.ratio 7 10)) = true.
Proof.
  refine (proj2 (accumulator_decays (F32.of_Z 10) (F32.of_Z 3) (F32.of_Z 3) (F32.of_Z 1)
                   F32.one (F32.of_Z 50) (F32.of_Z 30) (F32.ratio 7 10)
                   eq_refl eq_refl eq_refl eq_refl) eq_refl eq_refl eq_refl eq_refl eq_refl).
Defined.

(* ================================================================== *)
(** * The command is never beyond full deflection *)
(* ================================================================== *)

(** X16: no command is ever beyond full deflection. Whatever the
    settings, the module data, the attitude and the trim are, infinities
    and NaN included, every command that a completed invocation writes is
    either no number or lies between -1 and 1. *)
Theorem command_never_beyond_unit (b : bus) (csd : CameraStab_data) (o : outcome)
    (i : axis) (out : float) :
  attitudeUpdated b csd = Some o -> In (i, out) (commands o) ->
  is_nan out = true \/
  (F32.le (F32.neg F32.one) out = true /\ F32.le out F32.one = true).
Proof.
  intros H Hin. destruct (ev_is_attitude b) eqn:Hev.
  - destruct (attitudeUpdated_axis b csd o i Hev H) as [c [c' [out' [_ [P [_ [_ I2]]]]]]].
    rewrite (I2 out Hin).
    apply process_axis_output in P. destruct P as [a ->]. apply output_of_unit.
  - unfold attitudeUpdated in H. rewrite Hev in H. simpl in H. injection H as <-.
    destruct Hin.
Qed.

Lemma command_never_beyond_unit_sample :
  exists o out,
    attitudeUpdated (Runs.nan_bus 10) (initial_data 0) = Some o /\
    In (PITCH, out) (commands o) /\
    (is_nan out = true \/
     (F32.le (F32.neg F32.one) out = true /\ F32.le out F32.one = true)).
Proof.
  assert (E1 : attitudeUpdated (Runs.nan_bus 10) (initial_data 0) = Runs.nan_outcome)
    by (vm_compute; reflexivity).
  destruct Runs.nan_outcome as [o | ] eqn:Q1; [ | discriminate Q1].
  destruct (attitudeUpdated_axis (Runs.nan_bus 10) (initial_data 0) o PITCH eq_refl E1)
    as [_ [_ [out [_ [_ [_ [Hin _]]]]]]].
  exists o, out. split; [exact E1 | split; [exact Hin | ]].
  exact (command_never_beyond_unit (Runs.nan_bus 10) (initial_data 0) o PITCH out E1 Hin).
Defined.

(* ================================================================== *)
(** * Sums and differences *)
(* ================================================================== *)

Section Sums.
Variables prec emax : Z.
Hypothesis prec_pos : 0 < prec.

Abbreviation emin := (SpecFloat.emin prec emax).
Abbreviation fexp := (SpecFloat.fexp prec emax).

Lemma SFadd_valid (x y : spec_float) :
  valid_binary prec emax x = true -> valid_binary prec emax y = true ->
  valid_binary prec emax (SFadd prec emax x y) = true.
Proof.
  intros Hx Hy.
  destruct x as [sx | sx | | sx mx ex], y as [sy | sy | | sy my ey];
    try reflexivity; try assumption;
    try (simpl; now destruct sx, sy).
  simpl. now apply binary_normalize_valid.
Qed.

Lemma SFsub_valid (x y : spec_float) :
  valid_binary prec emax x = true -> valid_binary prec emax y = true ->
  valid_binary prec emax (SFsub prec emax x y) = true.
Proof.
  intros Hx Hy.
  destruct x as [sx | sx | | sx mx ex], y as [sy | sy | | sy my ey];
    try reflexivity; try assumption;
    try (simpl; now destruct sx, sy).
  simpl. now apply binary_normalize_valid.
Qed.

Lemma canonical_exponent (m : positive) (e : Z) :
  canonical_mantissa prec emax m e = true -> emin <= e.
Proof.
  unfold canonical_mantissa. intros H. apply Z.eqb_eq in H. rewrite <- H.
  apply fexp_ge_emin.
Qed.

(** Two numbers of the format with the same value are the same. *)
Lemma canonical_unique (mx my : positive) (ex ey ez : Z) :
  canonical_mantissa prec emax mx ex = true ->
  canonical_mantissa prec emax my ey = true ->
  ez <= ex -> ez <= ey ->
  Zpos mx * 2 ^ (ex - ez) = Zpos my * 2 ^ (ey - ez) ->
  ex = ey /\ mx = my.
Proof.
  intros Hx Hy Hzx Hzy E. unfold canonical_mantissa in *.
  apply Z.eqb_eq in Hx, Hy.
  assert (Hqx : exists q, Zpos q = Zpos mx * 2 ^ (ex - ez)).
  { assert (0 < Zpos mx * 2 ^ (ex - ez)).
    { apply Z.mul_pos_pos; [lia | apply Z.pow_pos_nonneg; lia]. }
    destruct (Zpos mx * 2 ^ (ex - ez)) as [ | q | q]; try lia. now exists q. }
  destruct Hqx as [q Hq].
  pose proof (digits2_pos_shift mx q (ex - ez) ltac:(lia) Hq) as Hdx.
  rewrite E in Hq.
  pose proof (digits2_pos_shift my q (ey - ez) ltac:(lia) Hq) as Hdy.
  assert (Hd : Zpos (digits2_pos mx) + ex = Zpos (digits2_pos my) + ey) by lia.
  assert (He : ex = ey) by (rewrite <- Hx, <- Hy; now rewrite Hd).
  split; [exact He | ]. subst ey.
  assert (0 < 2 ^ (ex - ez)) by (apply Z.pow_pos_nonneg; lia).
  assert (Zpos mx = Zpos my) by nia. congruence.
Qed.

(** A difference of two finite numbers of the format is zero only when
    they are equal. *)
Lemma SFsub_zero_eq (x y : spec_float) :
  valid_binary prec emax x = true -> valid_binary prec emax y = true ->
  is_finite x = true -> is_finite y = true ->
  is_zero (SFsub prec emax x y) = true -> SFeqb x y = true.
Proof.
  intros Hx Hy Hfx Hfy.
  destruct x as [sx | sx | | sx mx ex]; try discriminate Hfx;
    destruct y as [sy | sy | | sy my ey]; try discriminate Hfy;
    try reflexivity; try discriminate.
  simpl in Hx, Hy. unfold bounded in Hx, Hy. apply andb_prop in Hx, Hy.
  destruct Hx as [Hcx _], Hy as [Hcy _].
  pose proof (canonical_exponent mx ex Hcx) as Hex.
  pose proof (canonical_exponent my ey Hcy) as Hey.
  cbn [SFsub]. change (IntDef.Z.min ex ey) with (Z.min ex ey).
  pose proof (shl_align_spec mx ex (Z.min ex ey)) as [Hpx _].
  pose proof (shl_align_spec my ey (Z.min ex ey)) as [Hpy _].
  replace (Z.min ex (Z.min ex ey)) with (Z.min ex ey) in Hpx by lia.
  replace (Z.min ey (Z.min ex ey)) with (Z.min ex ey) in Hpy by lia.
  set (ez := Z.min ex ey) in *.
  set (px := fst (shl_align mx ex ez)) in *.
  set (py := fst (shl_align my ey ez)) in *.
  intros Hz.
  assert (Hzero : cond_Zopp sx (Zpos px) - cond_Zopp sy (Zpos py) = 0).
  { destruct (cond_Zopp sx (Zpos px) - cond_Zopp sy (Zpos py)) as [ | p | p] eqn:E;
      [reflexivity | | ]; exfalso; simpl in Hz.
    - pose proof (binary_round_nonzero prec emax prec_pos false p ez ltac:(unfold ez; lia)) as Hn.
      now destruct (binary_round prec emax false p ez).
    - pose proof (binary_round_nonzero prec emax prec_pos true p ez ltac:(unfold ez; lia)) as Hn.
      now destruct (binary_round prec emax true p ez). }
  assert (Hs : sx = sy /\ Zpos px = Zpos py).
  { destruct sx, sy; unfold cond_Zopp in Hzero;
      (split; [reflexivity || (exfalso; lia) | lia]). }
  destruct Hs as [-> Hp]. rewrite Hpx, Hpy in Hp.
  destruct (canonical_unique mx my ex ey ez Hcx Hcy ltac:(unfold ez; lia)
              ltac:(unfold ez; lia) Hp) as [-> ->].
  unfold SFeqb. rewrite SFcompare_refl; reflexivity.
Qed.

End Sums.

(* ================================================================== *)
(** * A maximal acceleration of zero *)
(* ================================================================== *)

Lemma add_zero_eq (x z : float) :
  is_finite x = true -> is_zero z = true -> SFeqb (F32.add x z) x = true.
Proof.
  intros Hx Hz. destruct z as [sz | | | ]; try discriminate Hz.
  destruct x as [sx | sx | | sx mx ex]; try discriminate Hx.
  - now destruct sx, sz.
  - simpl. unfold SFeqb. rewrite SFcompare_refl; reflexivity.
Qed.

Lemma sub_not_nan (x y : float) :
  is_nan x = false -> is_finite y = true -> is_nan (F32.sub x y) = false.
Proof.
  intros Hx Hy.
  destruct x as [sx | sx | | sx mx ex]; try discriminate Hx;
    destruct y as [sy | sy | | sy my ey]; try discriminate Hy;
    try reflexivity; try (now destruct sx, sy).
  apply binary_normalize_not_nan.
Qed.

Lemma ff_limit_zero_accel (dT maxAccel last working : float) :
  is_zero maxAccel = true -> is_finite dT = true ->
  finite32 last = true -> F32.valid working = true -> is_nan working = false ->
  SFeqb (ff_limit dT maxAccel last working) last = true.
Proof.
  intros Hm HdT Hl Hv Hn. unfold finite32 in Hl. apply andb_prop in Hl.
  destruct Hl as [Hfl Hvl].
  assert (Ez : exists s, F32.mul (F32.mul maxAccel F32.milli) dT = S754_zero s).
  { destruct maxAccel as [sm | | | ]; try discriminate Hm.
    destruct dT as [sd | sd | | sd md ed]; try discriminate HdT; simpl; eauto. }
  destruct Ez as [s Ez]. unfold ff_limit. rewrite Ez.
  assert (Hvd : F32.valid (F32.sub working last) = true).
  { now apply (SFsub_valid F32.prec F32.emax eq_refl). }
  rewrite fabs_gt_float by (exact Hvd || reflexivity).
  pose proof (sub_not_nan working last Hn Hfl) as Hnd.
  destruct (F32.sub working last) as [sd | sd | | sd md ed] eqn:Ed; try discriminate Hnd.
  - (* no difference: the working attitude is the stored one *)
    replace (F32.gt (SFabs (S754_zero sd)) (S754_zero s)) with false by now destruct s.
    destruct working as [sw | sw | | sw mw ew]; try discriminate Hn.
    + apply (SFsub_zero_eq F32.prec F32.emax eq_refl); try assumption; try reflexivity.
      unfold F32.sub in Ed. now rewrite Ed.
    + exfalso. destruct last as [sl | sl | | sl ml el]; discriminate.
    + apply (SFsub_zero_eq F32.prec F32.emax eq_refl); try assumption; try reflexivity.
      unfold F32.sub in Ed. now rewrite Ed.
  - replace (F32.gt (SFabs (S754_infinity sd)) (S754_zero s)) with true by now destruct s.
    apply add_zero_eq; [exact Hfl | ].
    now destruct (F32.gt (S754_infinity sd) F32.zero).
  - replace (F32.gt (SFabs (S754_finite sd md ed)) (S754_zero s)) with true
      by now destruct s.
    apply add_zero_eq; [exact Hfl | ].
    now destruct (F32.gt (S754_finite sd md ed) F32.zero).
Qed.

(** X17: a maximal acceleration of zero does not switch the limit off,
    it freezes the feed-forward path. With [MaxAccel] zero the allowed
    step is zero, so whenever the working attitude is a number,
    [applyFeedForward] returns a value equal to the stored
    [ffLastAttitudeFiltered] and stores it again: the attitude that
    reaches the output mapper never moves away from the stored one. *)
Theorem zero_max_accel_freezes (b : bus) (index : axis) (dT attitude : float)
    (csd : CameraStab_data) (correction : float) :
  gimbalTypeCorrection b index = Some correction ->
  is_zero (MaxAccel (cameraStab b)) = true -> is_finite dT = true ->
  finite32 (ffLastAttitudeFiltered csd).[index] = true ->
  let working :=
    fst (ff_accumulate dT attitude (ffLastAttitude csd).[index]
           (FeedForward (cameraStab b)).[index] correction
           (AccelTime (cameraStab b)).[index] (DecelTime (cameraStab b)).[index]
           (ffFilterAccumulator csd).[index]) in
  F32.valid working = true -> is_nan working = false ->
  exists attitude' csd',
    applyFeedForward b index dT attitude csd = Some (attitude', csd') /\
    SFeqb attitude' (ffLastAttitudeFiltered csd).[index] = true /\
    (ffLastAttitudeFiltered csd').[index] = attitude'.
Proof.
  intros Hc Hm HdT Hl. cbv zeta. intros Hv Hn.
  unfold applyFeedForward. rewrite Hc.
  destruct (ff_accumulate _ _ _ _ _ _ _ _) as [working acc]. cbn [fst] in Hv, Hn.
  eexists. eexists. split; [reflexivity | ].
  split; [ | simpl; now rewrite get_set_same].
  cbn [set_ffLastAttitude set_ffFilterAccumulator ffLastAttitudeFiltered].
  now apply ff_limit_zero_accel.
Qed.

Lemma zero_max_accel_sample :
  exists attitude' csd',
    applyFeedForward (Runs.frozen_bus 10 (F32.of_Z 25)) ROLL (F32.of_Z 10) (F32.of_Z 25)
      (initial_data 0) = Some (attitude', csd') /\
    SFeqb attitude' F32.zero = true.
Proof.
  destruct (zero_max_accel_freezes (Runs.frozen_bus 10 (F32.of_Z 25)) ROLL (F32.of_Z 10)
              (F32.of_Z 25) (initial_data 0) F32.one eq_refl eq_refl eq_refl eq_refl
              ltac:(vm_compute; reflexivity) ltac:(vm_compute; reflexivity))
    as [a [c [E [H _]]]].
  exists a, c. split; [exact E | exact H].
Defined.

(* ================================================================== *)
(** * The trim at the end of its range *)
(* ================================================================== *)

Section Mirror.
Variables prec emax : Z.

Lemma binary_round_aux_opp (s : bool) (m e : Z) (l : location) :
  SFopp (binary_round_aux prec emax s m e l) = binary_round_aux prec emax (negb s) m e l.
Proof.
  unfold binary_round_aux.
  destruct (shr_fexp prec emax m e l) as [mrs' e'].
  destruct (shr_fexp prec emax _ e' loc_Exact) as [mrs'' e''].
  destruct (shr_m mrs''); try reflexivity.
  now destruct (e'' <=? emax - prec).
Qed.

Lemma binary_round_opp (s : bool) (m : positive) (e : Z) :
  SFopp (binary_round prec emax s m e) = binary_round prec emax (negb s) m e.
Proof.
  unfold binary_round. destruct (shl_align m e _) as [mz ez].
  apply binary_round_aux_opp.
Qed.

Lemma SFmul_opp_l (x y : spec_float) :
  SFmul prec emax (SFopp x) y = SFopp (SFmul prec emax x y).
Proof.
  destruct x as [sx | sx | | sx mx ex], y as [sy | sy | | sy my ey];
    simpl; try reflexivity; try (now destruct sx, sy).
  rewrite binary_round_aux_opp. now destruct sx, sy.
Qed.

(** The sum of the negations of a positive finite number and of a
    number that is zero or positive is the negation of their sum. *)
Lemma SFadd_opp_pos (x y : spec_float) :
  match x with S754_finite false _ _ => True | _ => False end ->
  match y with
  | S754_zero _ | S754_finite false _ _ | S754_infinity false => True
  | _ => False
  end ->
  SFadd prec emax (SFopp x) (SFopp y) = SFopp (SFadd prec emax x y).
Proof.
  destruct x as [sx | sx | | [ | ] mx ex]; try tauto.
  destruct y as [sy | [ | ] | | [ | ] my ey]; try tauto; intros _ _; try reflexivity.
  simpl. change (IntDef.Z.min ex ey) with (Z.min ex ey).
  set (px := fst (shl_align mx ex (Z.min ex ey))).
  set (py := fst (shl_align my ey (Z.min ex ey))).
  change (Zpos px + Zpos py) with (Zpos (px + py)).
  change (Zneg px + Zneg py) with (Zneg (px + py)).
  simpl. now rewrite binary_round_opp.
Qed.

End Mirror.

Lemma SFleb_antisym (a b : spec_float) :
  SFleb a b = true -> SFleb b a = true -> SFcompare a b = Some Eq.
Proof.
  unfold SFleb. rewrite (SFcompare_antisym b a).
  destruct (SFcompare a b) as [[ | | ] | ]; simpl; congruence.
Qed.

(** The product of a number that is zero or positive and a positive
    finite number is a float that is zero or positive. *)
Lemma mul_nonneg (x y : float) :
  F32.valid x = true -> finite32 y = true ->
  (is_zero x = true \/ signed_nonzero (-149) false x) ->
  F32.gt y F32.zero = true ->
  F32.valid (F32.mul x y) = true /\
  (is_zero (F32.mul x y) = true \/ signed_nonzero (-149) false (F32.mul x y)).
Proof.
  intros Hvx Hy Hx Hpos. unfold finite32 in Hy. apply andb_prop in Hy.
  destruct Hy as [Hfy Hvy].
  assert (Hv : F32.valid (F32.mul x y) = true).
  { apply (SFmul_valid F32.prec F32.emax eq_refl); try assumption.
    apply F32_emin_nonpos. }
  split; [exact Hv | ].
  destruct y as [sy | sy | | [ | ] my ey]; try discriminate Hfy; try discriminate Hpos.
  destruct x as [sx | sx | | sx mx ex].
  - left. reflexivity.
  - destruct Hx as [Hx | Hx]; [discriminate Hx | ]. simpl in Hx. subst sx.
    right. reflexivity.
  - destruct Hx as [Hx | Hx]; [discriminate Hx | destruct Hx].
  - destruct Hx as [Hx | [Hx _]]; [discriminate Hx | ]. subst sx.
    pose proof (binary_round_aux_sign F32.prec F32.emax false (Zpos (mx * my)) (ex + ey)
                  loc_Exact ltac:(lia)) as Hs.
    change (binary_round_aux F32.prec F32.emax false (Zpos (mx * my)) (ex + ey) loc_Exact)
      with (F32.mul (S754_finite false mx ex) (S754_finite false my ey)) in Hs.
    destruct (F32.mul (S754_finite false mx ex) (S754_finite false my ey))
      as [s | s | | s m e]; simpl in Hs; try tauto.
    right. simpl. split; [exact Hs | ].
    unfold F32.valid, valid_binary, bounded in Hv. apply andb_prop in Hv.
    destruct Hv as [Hc _].
    pose proof (canonical_exponent F32.prec F32.emax m e Hc) as He.
    now rewrite F32_emin in He.
Qed.

Lemma integrate_at_range (range inc : float) :
  finite32 range = true -> F32.gt range F32.zero = true ->
  (is_zero inc = true \/ signed_nonzero (-149) false inc) ->
  bound (F32.add range inc) range = range.
Proof.
  intros Hr Hpos Hinc.
  assert (H0 : F32.le F32.zero range = true) by now apply SFltb_SFleb.
  assert (Hfin : exists m e, range = S754_finite false m e).
  { unfold finite32 in Hr. apply andb_prop in Hr. destruct Hr as [Hf _].
    destruct range as [s | s | | [ | ] m e]; try discriminate; eauto. }
  destruct Hfin as [m [e Er]].
  destruct Hinc as [Hz | Hs].
  - destruct inc as [s | | | ]; try discriminate Hz.
    rewrite Er. simpl F32.add. rewrite <- Er.
    apply bound_identity. rewrite Er. simpl SFabs. rewrite <- Er.
    apply SFleb_refl. now rewrite Er.
  - subst range.
    assert (Hle : F32.le (S754_finite false m e) (S754_finite false m e) = true).
    { now apply SFleb_refl. }
    destruct (integrate_up _ inc _ Hr Hs Hle H0) as [H1 H2].
    pose proof (SFleb_antisym _ _ H2 H1) as Heq.
    now apply SFcompare_Eq_finite in Heq.
Qed.

Lemma positive_float (x : float) :
  finite32 x = true -> F32.gt x F32.zero = true ->
  exists m e, x = S754_finite false m e /\ signed_nonzero (-149) false x.
Proof.
  unfold finite32. intros H Hpos. apply andb_prop in H. destruct H as [Hf Hv].
  destruct x as [s | s | | [ | ] m e]; try discriminate.
  exists m, e. split; [reflexivity | ]. simpl. split; [reflexivity | ].
  unfold F32.valid, valid_binary, bounded in Hv. apply andb_prop in Hv.
  destruct Hv as [Hc _].
  pose proof (canonical_exponent F32.prec F32.emax m e Hc) as He.
  now rewrite F32_emin in He.
Qed.

(** The step of a positive rate over a positive time delta is zero or
    positive. *)
Lemma lock_step_nonneg (rate dT : float) :
  finite32 rate = true -> F32.gt rate F32.zero = true ->
  finite32 dT = true -> F32.gt dT F32.zero = true ->
  let inc := F32.mul (F32.mul rate F32.milli) dT in
  is_zero inc = true \/ signed_nonzero (-149) false inc.
Proof.
  intros Hr Hrp Hd Hdp. cbv zeta.
  destruct (positive_float rate Hr Hrp) as [m [e [_ Hs]]].
  assert (Hvr : F32.valid rate = true).
  { unfold finite32 in Hr. apply andb_prop in Hr. tauto. }
  destruct (mul_nonneg rate F32.milli Hvr eq_refl (or_intror Hs) eq_refl) as [Hv1 H1].
  now destruct (mul_nonneg _ dT Hv1 Hd H1 Hdp).
Qed.

(** X18: the ends of the input range hold the trim. In axis-lock mode,
    once the trim is at the input range and the rate is still positive
    and above the threshold, every further invocation stores the range
    again, exactly; and the same at the negated range with a negative
    rate. The sum of the trim and the step never slips past the range by
    rounding, for every positive finite range and time delta. *)
Theorem axis_lock_saturates (b : bus) (i : axis) (instId : nat) (sample : float) :
  (Input (cameraStab b)).[i] = INPUT_ACCESSORY instId ->
  accessoryVal b instId = Some sample ->
  (StabilizationMode (cameraStab b)).[i] = STABILIZATIONMODE_AXISLOCK ->
  let rate := F32.mul sample (InputRate (cameraStab b)).[i] in
  let range := (InputRange (cameraStab b)).[i] in
  fabs_gt rate (MaxAxisLockRate (cameraStab b)) = true ->
  finite32 rate = true ->
  finite32 range = true -> F32.gt range F32.zero = true ->
  forall dT csd,
    finite32 dT = true -> F32.gt dT F32.zero = true ->
    (F32.gt rate F32.zero = true -> (inputs csd).[i] = range ->
     process_input b dT i csd = Some (set_inputs csd i range)) /\
    (F32.lt rate F32.zero = true -> (inputs csd).[i] = F32.neg range ->
     process_input b dT i csd = Some (set_inputs csd i (F32.neg range))).
Proof.
  intros HI HA HM. cbv zeta. intros Hgt Hr Hrange Hpos dT csd HdT HdTp.
  rewrite (process_input_axislock b dT i csd instId sample HI HA HM), Hgt.
  set (rate := F32.mul sample (InputRate (cameraStab b)).[i]) in *.
  set (range := (InputRange (cameraStab b)).[i]) in *.
  split.
  - intros Hrp ->. do 2 f_equal.
    apply integrate_at_range; try assumption.
    now apply lock_step_nonneg.
  - intros Hrn ->. do 2 f_equal.
    (* the mirror image of the first case *)
    assert (Hr' : finite32 (F32.neg rate) = true /\ F32.gt (F32.neg rate) F32.zero = true
                  /\ rate = SFopp (F32.neg rate)).
    { unfold finite32, F32.neg in *.
      destruct rate as [s | s | | [ | ] m e]; try discriminate; auto. }
    destruct Hr' as [Hr1 [Hr2 Hr3]].
    pose proof (lock_step_nonneg (F32.neg rate) dT Hr1 Hr2 HdT HdTp) as Hinc.
    cbv zeta in Hinc.
    set (inc := F32.mul (F32.mul (F32.neg rate) F32.milli) dT) in *.
    assert (Einc : F32.mul (F32.mul rate F32.milli) dT = SFopp inc).
    { unfold inc, F32.mul. rewrite Hr3 at 1. now rewrite !SFmul_opp_l. }
    rewrite Einc.
    destruct (positive_float range Hrange Hpos) as [m [e [Er _]]].
    assert (Esum : F32.add (F32.neg range) (SFopp inc) = SFopp (F32.add range inc)).
    { unfold F32.add, F32.neg. apply SFadd_opp_pos.
      - now rewrite Er.
      - destruct Hinc as [Hz | Hs].
        + now destruct inc.
        + destruct inc as [s | [ | ] | | [ | ] mi ei]; simpl in Hs; try tauto;
            try discriminate; destruct Hs; discriminate. }
    rewrite Esum.
    change (SFopp (F32.add range inc)) with (F32.neg (F32.add range inc)).
    rewrite bound_opp by now apply SFltb_SFleb.
    f_equal. now apply integrate_at_range.
Qed.

Lemma axis_lock_saturates_sample :
  process_input (Runs.lock20_bus (F32.ratio 8 10)) (F32.of_Z 10) ROLL
    (set_inputs (initial_data 0) ROLL (F32.of_Z 20))
  = Some (set_inputs (set_inputs (initial_data 0) ROLL (F32.of_Z 20)) ROLL (F32.of_Z 20)).
Proof.
  refine (proj1 (axis_lock_saturates (Runs.lock20_bus (F32.ratio 8 10)) ROLL 0%nat
                   (F32.ratio 8 10) eq_refl eq_refl eq_refl _ _ _ _
                   (F32.of_Z 10) (set_inputs (initial_data 0) ROLL (F32.of_Z 20)) _ _) _ _);
    vm_compute; reflexivity.
Defined.

(* ================================================================== *)
(** * A time constant at or below the time delta *)
(* ================================================================== *)

Section Unit.
Variables prec emax : Z.
Hypothesis prec_pos : 0 < prec.
Variable one_m : positive.
Hypothesis one_m_spec : Zpos one_m = 2 ^ (prec - 1).

Abbreviation emin := (SpecFloat.emin prec emax).
Abbreviation fexp := (SpecFloat.fexp prec emax).

(** Division by 1.0 is exact. *)
Lemma SFdiv_one (s : bool) (m : positive) (e : Z) :
  bounded prec emax m e = true ->
  SFdiv prec emax (S754_finite s m e) (S754_finite false one_m (1 - prec))
    = S754_finite s m e.
Proof.
  intros Hb. pose proof Hb as Hb'. unfold bounded in Hb'. apply andb_prop in Hb'.
  destruct Hb' as [Hc Hbd]. unfold canonical_mantissa in Hc. apply Z.eqb_eq in Hc.
  cbn [SFdiv]. rewrite xorb_false_r.
  pose proof (SFdiv_core_binary_spec prec emax m one_m e (1 - prec)) as H.
  cbv zeta in H.
  assert (Hd1 : Zpos (digits2_pos one_m) = prec).
  { apply digits2_pos_unique. rewrite one_m_spec. split; [lia | ].
    apply Z.pow_lt_mono_r; lia. }
  rewrite Hd1 in H.
  set (d := Zpos (digits2_pos m)) in *.
  replace (d + e - (prec + (1 - prec))) with (d + e - 1) in H by lia.
  assert (HF' : fexp (d + e - 1) <= e).
  { rewrite <- Hc at 2. apply fexp_le. lia. }
  rewrite Z.min_l in H by lia.
  set (e' := fexp (d + e - 1)) in *.
  destruct H as [q [l [-> [Eq [Hl [Hq Hal]]]]]].
  assert (H2 : 0 < 2 ^ (prec - 1)) by (apply Z.pow_pos_nonneg; lia).
  assert (Hsplit : Zpos m * 2 ^ (e - (1 - prec) - e') = Zpos m * 2 ^ (e - e') * Zpos one_m).
  { rewrite one_m_spec, <- Z.mul_assoc, <- Z.pow_add_r by lia. do 2 f_equal. lia. }
  rewrite Hsplit in Eq, Hl.
  rewrite Z.div_mul in Eq by lia. rewrite Z.mod_mul in Hl by lia.
  assert (Hle : l = loc_Exact) by now apply Hl.
  assert (H2e : 0 < 2 ^ (e - e')) by (apply Z.pow_pos_nonneg; lia).
  assert (Hqp : exists qp, q = Zpos qp).
  { assert (0 < q) by (rewrite Eq; apply Z.mul_pos_pos; lia).
    destruct q as [ | qp | qp]; try lia. now exists qp. }
  destruct Hqp as [qp Hqp].
  assert (Hdq : Zdigits2 q + e' = d + e).
  { rewrite Hqp. simpl Zdigits2.
    rewrite (digits2_pos_shift m qp (e - e')); [fold d; lia | lia | ].
    now rewrite <- Hqp. }
  pose proof (binary_round_aux_result prec emax prec_pos s q e' l Hq Hal) as R.
  cbv zeta in R. rewrite Hdq, Hc in R.
  destruct R as [_ [m2 [_ [Hex [[E0 _] | [p2 [m3 [Ep [Hm3 ->]]]]]]]]].
  - exfalso. rewrite (Hex Hle) in E0.
    + rewrite Eq, Z.div_mul in E0 by lia. lia.
    + rewrite Eq. apply Z.mod_mul. lia.
  - assert (Em2 : m2 = Zpos m).
    { rewrite (Hex Hle); [rewrite Eq; apply Z.div_mul; lia | ].
      rewrite Eq. apply Z.mod_mul. lia. }
    rewrite Em2 in Ep. injection Ep as <-. fold d in Hm3 |- *.
    rewrite Hc, Z.sub_diag in Hm3 |- *. simpl Z.max in Hm3 |- *.
    rewrite Z.add_0_r. rewrite Em2, Z.pow_0_r, Z.div_1_r in Hm3.
    injection Hm3 as ->. now rewrite Hbd.
Qed.

End Unit.

Lemma div_one (x : float) :
  finite32 x = true -> F32.div x F32.one = x \/ (is_zero x = true /\ is_zero (F32.div x F32.one) = true).
Proof.
  unfold finite32. intros H. apply andb_prop in H. destruct H as [Hf Hv].
  destruct x as [s | s | | s m e]; try discriminate Hf.
  - right. split; reflexivity.
  - left. apply (SFdiv_one F32.prec F32.emax eq_refl 8388608 eq_refl s m e). exact Hv.
Qed.

(** The order of two positive numbers of the format is that of their
    digits and exponents. *)
Lemma SFleb_digits (m1 : positive) (e1 : Z) (m2 : positive) (e2 : Z) :
  canonical_mantissa F32.prec F32.emax m1 e1 = true ->
  canonical_mantissa F32.prec F32.emax m2 e2 = true ->
  SFleb (S754_finite false m1 e1) (S754_finite false m2 e2) = true ->
  Zpos (digits2_pos m1) + e1 <= Zpos (digits2_pos m2) + e2.
Proof.
  intros H1 H2. unfold canonical_mantissa in H1, H2. apply Z.eqb_eq in H1, H2.
  unfold SFleb, SFcompare.
  destruct (Z.compare_spec e1 e2) as [E | E | E]; try discriminate.
  - rewrite Pos.compare_cont_spec. unfold Pos.switch_Eq.
    destruct (Pos.compare_spec m1 m2) as [E' | E' | E']; try discriminate; intros _.
    + subst. lia.
    + pose proof (digits2_pos_le m1 m2 ltac:(lia)). lia.
  - intros _. unfold fexp, emin, F32.prec, F32.emax in *. lia.
Qed.

(** The quotient of a finite number by a positive finite number at or
    above it is at most 1. *)
Lemma div_le_one (tc dT : float) :
  finite32 tc = true -> finite32 dT = true -> F32.gt dT F32.zero = true ->
  F32.le tc dT = true -> F32.le (F32.div tc dT) F32.one = true.
Proof.
  intros Htc HdT Hpos Hle. unfold finite32 in Htc, HdT.
  apply andb_prop in Htc, HdT. destruct Htc as [Hft Hvt], HdT as [Hfd Hvd].
  destruct dT as [sd | sd | | [ | ] m2 e2]; try discriminate Hfd; try discriminate Hpos.
  destruct tc as [st | st | | st m1 e1]; try discriminate Hft.
  - now destruct st.
  - destruct st.
    + pose proof (SFdiv_sign F32.prec F32.emax true false m1 m2 e1 e2) as Hs.
      fold (F32.div (S754_finite true m1 e1) (S754_finite false m2 e2)) in Hs.
      destruct (F32.div (S754_finite true m1 e1) (S754_finite false m2 e2))
        as [s | s | | s m e]; simpl in Hs; try tauto; subst s; reflexivity.
    + pose proof (SFdiv_sign F32.prec F32.emax false false m1 m2 e1 e2) as Hs.
      assert (Hb : SFleb (SFabs (F32.div (S754_finite false m1 e1) (S754_finite false m2 e2)))
                     F32.one = true).
      { simpl in Hvt, Hvd. pose proof Hvt as Hvt'. pose proof Hvd as Hvd'.
        unfold bounded in Hvt', Hvd'. apply andb_prop in Hvt', Hvd'.
        destruct Hvt' as [Hc1 _], Hvd' as [Hc2 _].
        pose proof (SFleb_value F32.prec F32.emax eq_refl m1 e1 m2 e2 Hc1 Hc2 Hle) as Hval.
        pose proof (SFleb_digits m1 e1 m2 e2 Hc1 Hc2 Hle) as Hdig.
        unfold F32.div. cbn [SFdiv xorb].
        pose proof (SFdiv_core_binary_spec F32.prec F32.emax m1 m2 e1 e2) as H.
        cbv zeta in H.
        set (D := Zpos (digits2_pos m1) + e1 - (Zpos (digits2_pos m2) + e2)) in *.
        set (e' := Z.min (fexp F32.prec F32.emax D) (e1 - e2)) in *.
        set (s := e1 - e2 - e') in *.
        destruct H as [q [l [-> [Eq [Hl [Hq Hal]]]]]].
        assert (He' : e' <= -24).
        { unfold e', fexp, emin, F32.prec, F32.emax. lia. }
        assert (Hs0 : 0 <= s) by (unfold s, e'; lia).
        apply (binary_round_aux_le F32.prec F32.emax eq_refl); try assumption;
          try reflexivity; try lia.
        change (Zpos 8388608) with (2 ^ 23). rewrite <- Z.pow_add_r by lia.
        replace (23 + (-23 - e')) with (- e') by lia.
        set (m' := Zpos m1 * 2 ^ s) in *.
        assert (Hm' : m' <= Zpos m2 * 2 ^ (- e')).
        { unfold m'. destruct (Z.le_gt_cases e2 e1) as [H21 | H12].
          - rewrite Z.min_r in Hval by lia.
            rewrite Z.sub_diag, Z.pow_0_r, Z.mul_1_r in Hval.
            replace s with ((e1 - e2) + (- e')) by (unfold s; lia).
            rewrite Z.pow_add_r, Z.mul_assoc by lia.
            apply Z.mul_le_mono_nonneg_r; [apply Z.pow_nonneg; lia | exact Hval].
          - rewrite Z.min_l in Hval by lia.
            rewrite Z.sub_diag, Z.pow_0_r, Z.mul_1_r in Hval.
            replace (- e') with ((e2 - e1) + s) by (unfold s; lia).
            rewrite Z.pow_add_r, Z.mul_assoc by lia.
            apply Z.mul_le_mono_nonneg_r; [apply Z.pow_nonneg; lia | exact Hval]. }
        pose proof (Z.div_mod m' (Zpos m2) ltac:(lia)) as Hdm.
        pose proof (Z.mod_pos_bound m' (Zpos m2) ltac:(lia)) as Hr.
        rewrite <- Eq in Hdm.
        set (r := m' mod Zpos m2) in *.
        assert (Ht : 0 < 2 ^ (- e')) by (apply Z.pow_pos_nonneg; lia).
        set (T := 2 ^ (- e')) in *.
        destruct (Z.eq_dec r 0) as [E | NE].
        - right. split; [now apply Hl | nia].
        - left. nia. }
      fold (F32.div (S754_finite false m1 e1) (S754_finite false m2 e2)) in Hs.
      unfold F32.le.
      destruct (F32.div (S754_finite false m1 e1) (S754_finite false m2 e2))
        as [s | s | | s m e]; simpl in Hs; try tauto; subst s; exact Hb.
Qed.

(** With the time constant at or below the time delta the divisor of
    the decay is 1.0. *)
Lemma short_filter_is_one (tc dT : float) :
  finite32 tc = true -> finite32 dT = true -> F32.gt dT F32.zero = true ->
  F32.le tc dT = true ->
  (if F32.lt (F32.div tc dT) F32.one then F32.one else F32.div tc dT) = F32.one.
Proof.
  intros Htc HdT Hpos Hle.
  pose proof (div_le_one tc dT Htc HdT Hpos Hle) as H1.
  destruct (F32.lt (F32.div tc dT) F32.one) eqn:E; [reflexivity | ].
  assert (Hn : is_nan (F32.div tc dT) = false) by (now apply SFleb_not_nan_l in H1).
  assert (H2 : SFleb F32.one (F32.div tc dT) = true).
  { apply SFltb_false_SFleb; [reflexivity | exact Hn | exact E]. }
  pose proof (SFleb_antisym _ _ H1 H2) as Heq.
  now apply SFcompare_Eq_finite in Heq.
Qed.

(** X19: a time constant at or below the time delta clears the
    accumulator. When both [AccelTime] and [DecelTime] are at most [dT]
    (zero included), the divisor [filter] is clamped to exactly 1.0 and
    the decay [accumulator - accumulator / filter] stores the zero, for
    every finite value the accumulator has after the attitude change was
    added: the feed-forward then keeps no memory from one invocation to
    the next and adds the scaled attitude change once. *)
Theorem short_time_constant_clears
    (dT attitude last gain correction accel decel acc0 : float) :
  let acc1 := F32.add acc0 (F32.mul (F32.mul (F32.sub attitude last) gain) correction) in
  finite32 acc1 = true ->
  finite32 dT = true -> F32.gt dT F32.zero = true ->
  finite32 accel = true -> finite32 decel = true ->
  F32.le accel dT = true -> F32.le decel dT = true ->
  ff_accumulate dT attitude last gain correction accel decel acc0 =
    (F32.add (F32.add attitude acc1) F32.zero, F32.zero).
Proof.
  cbv zeta. intros H1 HdT Hpos Ha Hd Hla Hld. unfold ff_accumulate.
  set (acc1 := F32.add acc0 (F32.mul (F32.mul (F32.sub attitude last) gain) correction)) in *.
  assert (Ef : (if F32.lt (F32.div (if F32.gt acc1 F32.zero then accel else decel) dT) F32.one
                then F32.one
                else F32.div (if F32.gt acc1 F32.zero then accel else decel) dT) = F32.one).
  { destruct (F32.gt acc1 F32.zero); now apply short_filter_is_one. }
  rewrite Ef.
  assert (Ez : F32.sub acc1 (F32.div acc1 F32.one) = F32.zero).
  { destruct (div_one acc1 H1) as [-> | [Z1 Z2]].
    - apply sub_diag. unfold finite32 in H1. apply andb_prop in H1. tauto.
    - destruct acc1 as [s1 | | | ]; try discriminate Z1.
      destruct (F32.div (S754_zero s1) F32.one) as [s2 | | | ] eqn:E2; try discriminate Z2.
      simpl in E2. injection E2 as <-. now destruct s1. }
  now rewrite Ez.
Qed.

Lemma short_time_constant_sample :
  snd (ff_accumulate (F32.of_Z 10) (F32.of_Z 3) (F32.of_Z 1) (F32.of_Z 2) F32.one
         (F32.of_Z 5) (F32.of_Z 10) (F32.ratio 7 10)) = F32.zero.
Proof.
  rewrite (short_time_constant_clears (F32.of_Z 10) (F32.of_Z 3) (F32.of_Z 1) (F32.of_Z 2)
             F32.one (F32.of_Z 5) (F32.of_Z 10) (F32.ratio 7 10));
    vm_compute; reflexivity.
Defined.
